(** * FastTrack MCP server: extraction and presentation pipeline

    A shallow embedding of the decision logic of the repository
    (src/utils/outputFormatter.ts, src/utils/jsonPath.ts,
    src/utils/htmlToText.ts, src/utils/authProvider.ts,
    src/tools/extraction/extractCode.ts, the Dataverse, e-mail and PDF
    extraction tools, the in-memory store and the environment tools)
    together with the properties its specification states about it and
    further properties of the code.

    Conventions of the embedding.
    - A JavaScript string is a [list ascii]; one [ascii] stands for one
      UTF-16 code unit (the alphabet modelled is the code units 0..255).
      [str "..."] turns a literal into such a list.
    - A JavaScript number inside a data value is a [Z]. A numeric tool
      argument is a [number]: any rational (every finite double is one) or
      an infinity.
    - A JavaScript object is an association list in enumeration order;
      well-formed objects have pairwise distinct keys ([wf_value]).
    - A record of an extraction result is a plain object or an array
      ([DataRecord]): extract_json hands over the arrays it finds.
    - Library functions of the JavaScript runtime (String.prototype.*,
      RegExp matching, JSON.stringify, path.extname) are modelled from their
      ECMAScript / Node.js definitions. *)

From Stdlib Require Import ZArith QArith Qround List Ascii String DecimalString
  DecimalPos Lia Bool.
From stdpp Require Import base option list gmap strings.

Set Warnings "-register-all".
Local Open Scope Z_scope.

(** ** JavaScript strings *)

Abbreviation jstring := (list ascii).

Definition str (s : string) : jstring := list_ascii_of_string s.

Definition nl : ascii := "010"%char.
Definition tab : ascii := "009"%char.
Definition dquote : ascii := "034"%char.
Definition backslash : ascii := "092"%char.

Definition ascii_eqb (a b : ascii) : bool := Ascii.eqb a b.

Fixpoint jstring_eqb (s t : jstring) : bool :=
  match s, t with
  | [], [] => true
  | a :: s', b :: t' => ascii_eqb a b && jstring_eqb s' t'
  | _, _ => false
  end.

Definition code (a : ascii) : nat := nat_of_ascii a.

Definition in_range (lo hi : nat) (a : ascii) : bool :=
  (lo <=? code a)%nat && (code a <=? hi)%nat.

(** WhiteSpace and LineTerminator code units below 256: what [\s] matches
    and what [trim] removes. *)
Definition is_space (a : ascii) : bool :=
  in_range 9 13 a || (code a =? 32)%nat || (code a =? 160)%nat.

Definition is_digit (a : ascii) : bool := in_range 48 57 a.
Definition is_upper (a : ascii) : bool := in_range 65 90 a.
Definition is_lower (a : ascii) : bool := in_range 97 122 a.

(** [\w] *)
Definition is_word (a : ascii) : bool :=
  is_upper a || is_lower a || is_digit a || (code a =? 95)%nat.

(** [.] matches anything but a line terminator. *)
Definition is_line_terminator (a : ascii) : bool :=
  (code a =? 10)%nat || (code a =? 13)%nat.

(** Case folding of the [i] flag: only [A-Z] and [a-z] fold together with
    an ASCII letter of the pattern. *)
Definition ascii_fold (a : ascii) : ascii :=
  if is_upper a then ascii_of_nat (code a + 32) else a.

(** [String.prototype.toLowerCase] on the code units below 256. *)
Definition lower_unit (a : ascii) : ascii :=
  if is_upper a
     || (in_range 192 222 a && negb (code a =? 215)%nat)
  then ascii_of_nat (code a + 32) else a.

Definition toLowerCase (s : jstring) : jstring := map lower_unit s.

(** [s.startsWith(p)] *)
Fixpoint startsWith (s p : jstring) : bool :=
  match p, s with
  | [], _ => true
  | b :: p', a :: s' => ascii_eqb a b && startsWith s' p'
  | _ :: _, [] => false
  end.

(** [s.endsWith(p)] *)
Definition endsWith (s p : jstring) : bool := startsWith (rev s) (rev p).

(** [s.includes(p)] *)
Fixpoint includes (s p : jstring) : bool :=
  startsWith s p ||
  match s with
  | [] => false
  | _ :: s' => includes s' p
  end.

(** [s.substring(0, n)] *)
Definition substring0 (n : nat) (s : jstring) : jstring := take n s.

(** The length of the longest prefix of [s] whose characters satisfy
    [p]. *)
Fixpoint span (p : ascii -> bool) (s : jstring) : nat :=
  match s with
  | a :: s' => if p a then S (span p s') else O
  | [] => O
  end.

(** [s.split(sep)] for a one-character separator: never empty. *)
Fixpoint split (sep : ascii) (s : jstring) : list jstring :=
  match s with
  | [] => [[]]
  | a :: s' =>
      if ascii_eqb a sep then [] :: split sep s'
      else
        match split sep s' with
        | piece :: pieces => (a :: piece) :: pieces
        | [] => [[a]]
        end
  end.

(** [pieces.join(sep)] *)
Fixpoint join (sep : jstring) (pieces : list jstring) : jstring :=
  match pieces with
  | [] => []
  | [piece] => piece
  | piece :: pieces' => piece ++ sep ++ join sep pieces'
  end.

Fixpoint trimStart (s : jstring) : jstring :=
  match s with
  | a :: s' => if is_space a then trimStart s' else s
  | [] => []
  end.

(** [s.trim()] *)
Definition trim (s : jstring) : jstring := rev (trimStart (rev (trimStart s))).

(** [String(n)] for an integral number *)
Definition String_of_Z (n : Z) : jstring :=
  str (DecimalString.NilZero.string_of_int (Z.to_int n)).

(** [parseInt(s, 10)]: leading white space, a sign, then the longest run of
    digits; [None] is [NaN]. *)
Fixpoint digits_value (acc : Z) (s : jstring) : Z :=
  match s with
  | a :: s' =>
      if is_digit a then digits_value (10 * acc + Z.of_nat (code a - 48)) s'
      else acc
  | [] => acc
  end.

Definition parseInt (s : jstring) : option Z :=
  let unsigned (t : jstring) :=
    match t with
    | a :: _ => if is_digit a then Some (digits_value 0 t) else None
    | [] => None
    end in
  match trimStart s with
  | sign :: t =>
      if ascii_eqb sign "-" then option_map Z.opp (unsigned t)
      else if ascii_eqb sign "+" then unsigned t
      else unsigned (sign :: t)
  | [] => None
  end.

(** ** Regular expressions

    A backtracking matcher for the fragment of ECMAScript regular
    expressions the sources use: literals, classes, concatenation, ordered
    alternation, greedy repetition, capturing groups and the two anchors
    (without the [m] flag). [rx r c] lists the configurations reached by
    matching [r] from [c], in the order the backtracking search finds them,
    so that its head is the match ECMAScript reports. *)

Inductive regex : Type :=
| Eps
| Chr (a : ascii)
| Cls (p : ascii -> bool)
| Seq (r1 r2 : regex)
| Alt (r1 r2 : regex)
| Star (r : regex)
| Group (n : nat) (r : regex)
| Bol
| Eol.

Record cfg : Type := mkCfg {
  pos : nat;                       (* index into the whole input *)
  rest : jstring;                  (* input from [pos] on *)
  groups : list (nat * jstring)    (* captures, latest first *)
}.

Definition step (c : cfg) (s' : jstring) : cfg :=
  mkCfg (S (pos c)) s' (groups c).

(** Greedy repetition of the matcher [m]: the iterations are tried first,
    the empty repetition last. An iteration that consumes nothing is
    rejected, so the length of the input bounds the number of iterations
    and is the [fuel] the matcher below hands over. *)
Fixpoint star (m : cfg -> list cfg) (fuel : nat) (c : cfg) {struct fuel}
  : list cfg :=
  match fuel with
  | O => [c]
  | S fuel' =>
      flat_map
        (fun c' =>
           if (length (rest c') <? length (rest c))%nat
           then star m fuel' c' else [])
        (m c)
      ++ [c]
  end.

Fixpoint rx (r : regex) (c : cfg) {struct r} : list cfg :=
  match r with
  | Eps => [c]
  | Chr a =>
      match rest c with
      | x :: s' => if ascii_eqb x a then [step c s'] else []
      | [] => []
      end
  | Cls p =>
      match rest c with
      | x :: s' => if p x then [step c s'] else []
      | [] => []
      end
  | Seq r1 r2 => flat_map (rx r2) (rx r1 c)
  | Alt r1 r2 => rx r1 c ++ rx r2 c
  | Star r1 => star (rx r1) (length (rest c)) c
  | Group n r1 =>
      map (fun c' =>
             mkCfg (pos c') (rest c')
                   ((n, take (pos c' - pos c) (rest c)) :: groups c'))
          (rx r1 c)
  | Bol => if (pos c =? 0)%nat then [c] else []
  | Eol => match rest c with [] => [c] | _ :: _ => [] end
  end.

(** Building blocks, so that a pattern reads like its source. *)
Fixpoint lit (s : jstring) : regex :=
  match s with
  | [] => Eps
  | [a] => Chr a
  | a :: s' => Seq (Chr a) (lit s')
  end.

Fixpoint cat (rs : list regex) : regex :=
  match rs with
  | [] => Eps
  | [r] => r
  | r :: rs' => Seq r (cat rs')
  end.

Fixpoint alt (r : regex) (rs : list regex) : regex :=
  match rs with
  | [] => r
  | r' :: rs' => Alt r (alt r' rs')
  end.

Definition Plus (r : regex) : regex := Seq r (Star r).
Definition Opt (r : regex) : regex := Alt r Eps.
Definition AtLeast3 (r : regex) : regex := Seq r (Seq r (Seq r (Star r))).

(** The [i] flag *)
Fixpoint ci (r : regex) : regex :=
  match r with
  | Chr a => Cls (fun x => ascii_eqb (ascii_fold x) (ascii_fold a))
  | Seq r1 r2 => Seq (ci r1) (ci r2)
  | Alt r1 r2 => Alt (ci r1) (ci r2)
  | Star r1 => Star (ci r1)
  | Group n r1 => Group n (ci r1)
  | _ => r
  end.

Definition space : regex := Cls is_space.
Definition word : regex := Cls is_word.
Definition digit : regex := Cls is_digit.
Definition dot : regex := Cls (fun a => negb (is_line_terminator a)).
Definition any_of (s : jstring) : regex := Cls (fun a => existsb (ascii_eqb a) s).
Definition none_of (s : jstring) : regex :=
  Cls (fun a => negb (existsb (ascii_eqb a) s)).

(** The match of [r] that starts at index [i], where [s] is the input from
    [i] on. *)
Definition match_here (r : regex) (i : nat) (s : jstring) : option cfg :=
  head (rx r (mkCfg i s [])).

(** Leftmost match at or after index [i]: [RegExp.prototype.exec]. *)
Fixpoint exec_from (r : regex) (i : nat) (s : jstring) : option (nat * cfg) :=
  match match_here r i s with
  | Some c => Some (i, c)
  | None =>
      match s with
      | [] => None
      | _ :: s' => exec_from r (S i) s'
      end
  end.

(** [r.test(s)] *)
Definition test (r : regex) (s : jstring) : bool :=
  match exec_from r 0 s with Some _ => true | None => false end.

Fixpoint group_count (r : regex) : nat :=
  match r with
  | Seq r1 r2 | Alt r1 r2 => Nat.max (group_count r1) (group_count r2)
  | Star r1 => group_count r1
  | Group n r1 => Nat.max n (group_count r1)
  | _ => O
  end.

Definition capture (c : cfg) (n : nat) : option jstring :=
  snd <$> List.find (fun g => (fst g =? n)%nat) (groups c).

(** [s.match(r)] without the [g] flag: the matched text followed by the
    captures, [None] standing for an [undefined] entry. *)
Definition match_array (r : regex) (s : jstring)
  : option (list (option jstring)) :=
  match exec_from r 0 s with
  | Some (i, c) =>
      Some (Some (take (pos c - i) (drop i s))
            :: map (capture c) (seq 1 (group_count r)))
  | None => None
  end.

(** [s.replace(r, ...)] with the [g] flag. [rep matched c] is the
    replacement text for a match; [skip] counts the characters of the
    current match still to be dropped. After an empty match the search
    resumes one character further. *)
Fixpoint replace_go (r : regex) (rep : jstring -> cfg -> jstring)
    (i skip : nat) (s : jstring) {struct s} : jstring :=
  match skip with
  | S skip' =>
      match s with
      | [] => []
      | _ :: s' => replace_go r rep (S i) skip' s'
      end
  | O =>
      match match_here r i s with
      | Some c =>
          let n := (pos c - i)%nat in
          rep (take n s) c ++
          match s with
          | [] => []
          | a :: s' =>
              match n with
              | O => a :: replace_go r rep (S i) O s'
              | S n' => replace_go r rep (S i) n' s'
              end
          end
      | None =>
          match s with
          | [] => []
          | a :: s' => a :: replace_go r rep (S i) O s'
          end
      end
  end.

Definition replaceAll (r : regex) (by_ : jstring) (s : jstring) : jstring :=
  replace_go r (fun _ _ => by_) 0 0 s.

(** [s.replace(r, ...)] without the [g] flag: the leftmost match only. *)
Fixpoint replace_first_go (r : regex) (rep : jstring -> cfg -> jstring)
    (i : nat) (s : jstring) {struct s} : jstring :=
  match match_here r i s with
  | Some c => rep (take (pos c - i) s) c ++ rest c
  | None =>
      match s with
      | [] => []
      | a :: s' => a :: replace_first_go r rep (S i) s'
      end
  end.

Definition replaceFirst (r : regex) (by_ : jstring) (s : jstring) : jstring :=
  replace_first_go r (fun _ _ => by_) 0 s.

(** ** JavaScript values *)

Inductive value : Type :=
| VUndefined
| VNull
| VBool (b : bool)
| VNum (n : Z)
| VStr (s : jstring)
| VArr (items : list value)
| VObj (fields : list (jstring * value)).

(** A record of an extraction result: [Record<string, unknown>]. *)
Abbreviation record := (list (jstring * value)).

(** [Object.keys(o)], [Object.values(o)] *)
Definition Object_keys (o : record) : list jstring := map fst o.
Definition Object_values (o : record) : list value := map snd o.

(** [o[k]] on the own properties of a data object; [undefined] when
    absent. (Keys of records are data keys; a lookup that would fall through
    to [Object.prototype] is modelled for the fixed tables only, below.) *)
Fixpoint get_own (o : record) (k : jstring) : option value :=
  match o with
  | [] => None
  | (k', v) :: o' => if jstring_eqb k' k then Some v else get_own o' k
  end.

Definition get (o : record) (k : jstring) : value :=
  match get_own o k with Some v => v | None => VUndefined end.

(** Keys that are canonical array indices ("0", "7", "42", ...) are
    enumerated first, in ascending order; the other keys follow in the order
    of their creation. *)
Definition array_index (k : jstring) : option Z :=
  match k with
  | [] => None
  | a :: k' =>
      if forallb is_digit k
         && (negb (ascii_eqb a "0") || (length k' =? 0)%nat)
         && (digits_value 0 k <=? 4294967294)
      then Some (digits_value 0 k) else None
  end.

Fixpoint update (o : record) (k : jstring) (v : value) : record :=
  match o with
  | [] => []
  | (k', v') :: o' =>
      if jstring_eqb k' k then (k', v) :: o' else (k', v') :: update o' k v
  end.

Fixpoint insert_index (o : record) (n : Z) (k : jstring) (v : value) : record :=
  match o with
  | [] => [(k, v)]
  | (k', v') :: o' =>
      match array_index k' with
      | Some n' =>
          if n' <? n then (k', v') :: insert_index o' n k v
          else (k, v) :: o
      | None => (k, v) :: o
      end
  end.

(** [o[k] = v] *)
Definition set (o : record) (k : jstring) (v : value) : record :=
  match get_own o k with
  | Some _ => update o k v
  | None =>
      match array_index k with
      | Some n => insert_index o n k v
      | None => o ++ [(k, v)]
      end
  end.

(** [Object.assign(target, source)] *)
Definition Object_assign (target source : record) : record :=
  fold_left (fun acc kv => set acc (fst kv) (snd kv)) source target.

(** Objects have pairwise distinct keys, at every level. *)
Fixpoint nodup_keys (ks : list jstring) : bool :=
  match ks with
  | [] => true
  | k :: ks' => negb (existsb (jstring_eqb k) ks') && nodup_keys ks'
  end.

Fixpoint wf_value (v : value) : bool :=
  match v with
  | VArr items => forallb wf_value items
  | VObj fields =>
      nodup_keys (map fst fields) &&
      forallb (fun kv => wf_value (snd kv)) fields
  | _ => true
  end.

(** [typeof v === "object"] *)
Definition typeof_object (v : value) : bool :=
  match v with
  | VNull | VArr _ | VObj _ => true
  | _ => false
  end.

Definition is_null (v : value) : bool :=
  match v with VNull => true | _ => false end.

Definition Array_isArray (v : value) : bool :=
  match v with VArr _ => true | _ => false end.

(** [v !== null && typeof v === "object" && !Array.isArray(v)] *)
Definition is_plain_object (v : value) : bool :=
  match v with VObj _ => true | _ => false end.

(** A call either returns or throws. *)
Inductive outcome (A : Type) : Type :=
| Returns (a : A)
| Throws.
Arguments Returns {A} a.
Arguments Throws {A}.

(** ** Lookup in an object literal used as a table

    [TABLE[name]] on an object literal consults the literal's own keys and
    then [Object.prototype]; the names found there are all truthy but are
    not entries of the table. *)

Definition Object_prototype_names : list jstring :=
  map str
    ["constructor"; "hasOwnProperty"; "isPrototypeOf"; "propertyIsEnumerable";
     "toLocaleString"; "toString"; "valueOf"; "__proto__";
     "__defineGetter__"; "__defineSetter__"; "__lookupGetter__";
     "__lookupSetter__"]%string.

Inductive property (A : Type) : Type :=
| Own (a : A)
| Inherited
| Missing.
Arguments Own {A} a.
Arguments Inherited {A}.
Arguments Missing {A}.

Fixpoint assoc {A : Type} (table : list (jstring * A)) (k : jstring) : option A :=
  match table with
  | [] => None
  | (k', a) :: table' => if jstring_eqb k' k then Some a else assoc table' k
  end.

Definition table_get {A : Type} (table : list (jstring * A)) (k : jstring)
  : property A :=
  match assoc table k with
  | Some a => Own a
  | None =>
      if existsb (jstring_eqb k) Object_prototype_names then Inherited
      else Missing
  end.

(** ** [JSON.stringify] and [String]

    [stringify gap indent v] is SerializeJSONProperty of ECMAScript with the
    gap string [gap] at the current indentation [indent]; [None] is the
    [undefined] result. A property whose value serializes to [undefined] is
    left out of an object; an array element that does is written [null]. *)

Definition hex_digit (n : nat) : ascii :=
  nth n (str "0123456789abcdef") "0"%char.

Definition quote_unit (a : ascii) : jstring :=
  let n := code a in
  if (n =? 8)%nat then [backslash; "b"%char]
  else if (n =? 9)%nat then [backslash; "t"%char]
  else if (n =? 10)%nat then [backslash; "n"%char]
  else if (n =? 12)%nat then [backslash; "f"%char]
  else if (n =? 13)%nat then [backslash; "r"%char]
  else if (n =? 34)%nat then [backslash; dquote]
  else if (n =? 92)%nat then [backslash; backslash]
  else if (n <? 32)%nat then
    [backslash; "u"%char; "0"%char; "0"%char;
     hex_digit (n / 16); hex_digit (n mod 16)]
  else [a].

Definition QuoteJSONString (s : jstring) : jstring :=
  dquote :: flat_map quote_unit s ++ [dquote].

Definition wrap (open_ close_ gap indent : jstring) (partial : list jstring)
  : jstring :=
  match partial with
  | [] => open_ ++ close_
  | _ :: _ =>
      match gap with
      | [] => open_ ++ join (str ",") partial ++ close_
      | _ :: _ =>
          let inner := indent ++ gap in
          open_ ++ [nl] ++ inner
          ++ join (str "," ++ [nl] ++ inner) partial
          ++ [nl] ++ indent ++ close_
      end
  end.

Fixpoint stringify (gap indent : jstring) (v : value) : option jstring :=
  match v with
  | VUndefined => None
  | VNull => Some (str "null")
  | VBool true => Some (str "true")
  | VBool false => Some (str "false")
  | VNum n => Some (String_of_Z n)
  | VStr s => Some (QuoteJSONString s)
  | VArr items =>
      let element x :=
        match stringify gap (indent ++ gap) x with
        | Some t => t
        | None => str "null"
        end in
      Some (wrap (str "[") (str "]") gap indent (map element items))
  | VObj fields =>
      let member kv :=
        match stringify gap (indent ++ gap) (snd kv) with
        | Some t =>
            [QuoteJSONString (fst kv) ++ str ":"
             ++ (match gap with [] => [] | _ :: _ => str " " end) ++ t]
        | None => []
        end in
      Some (wrap (str "{") (str "}") gap indent (flat_map member fields))
  end.

(** [JSON.stringify(v)] and [JSON.stringify(v, null, 2)] of an object or an
    array (never [undefined]). *)
Definition JSON_stringify (v : value) : jstring :=
  default [] (stringify [] [] v).

Definition JSON_stringify_2 (v : value) : jstring :=
  default [] (stringify (str "  ") [] v).

(** [String(v)], when the conversion returns. For a value that is not an
    object it always does; for an object or an array see [ToString]
    below. *)
Fixpoint String_of (v : value) : jstring :=
  match v with
  | VUndefined => str "undefined"
  | VNull => str "null"
  | VBool true => str "true"
  | VBool false => str "false"
  | VNum n => String_of_Z n
  | VStr s => s
  | VArr items =>
      join (str ",")
        (map (fun x =>
                match x with
                | VUndefined | VNull => []
                | _ => String_of x
                end) items)
  | VObj _ => str "[object Object]"
  end.

(** [String(v)] of an object goes through [toString] and [valueOf] of the
    object. In a data object an own property of either name is not callable
    and [Object.prototype.valueOf] hands back the object itself, so the
    conversion throws a TypeError exactly when the object has an own key
    "toString"; without one, [Object.prototype.toString] answers. An array
    converts its elements in turn ([undefined] and [null] to the empty
    text), and throws when one of them does. *)
Fixpoint String_throws (v : value) : bool :=
  match v with
  | VArr items => existsb String_throws items
  | VObj fields => existsb (jstring_eqb (str "toString")) (map fst fields)
  | _ => false
  end.

Definition ToString (v : value) : outcome jstring :=
  if String_throws v then Throws else Returns (String_of v).

(** [values.map(f)] for an [f] that may throw: the first throw ends it. *)
Fixpoint map_outcome {A B : Type} (f : A -> outcome B) (l : list A)
  : outcome (list B) :=
  match l with
  | [] => Returns []
  | x :: l' =>
      match f x with
      | Throws => Throws
      | Returns y =>
          match map_outcome f l' with
          | Throws => Throws
          | Returns ys => Returns (y :: ys)
          end
      end
  end.

(** ** Numeric tool arguments

    A numeric argument of a tool arrives as a JSON number: any finite
    double, or an infinity when the literal overflows ([1e999]). A finite
    double is a rational; [NaN] cannot arrive. *)
Inductive number : Type :=
| Finite (q : Q)
| PlusInfinity
| MinusInfinity.

Definition of_Z (n : Z) : number := Finite (inject_Z n).

(** [x < y] and [x <= y] *)
Definition number_ltb (x y : number) : bool :=
  match x, y with
  | Finite p, Finite q => negb (Qle_bool q p)
  | Finite _, PlusInfinity => true
  | MinusInfinity, Finite _ => true
  | MinusInfinity, PlusInfinity => true
  | _, _ => false
  end.

Definition number_leb (x y : number) : bool := negb (number_ltb y x).

(** [Math.min(x, y)] *)
Definition Math_min (x y : number) : number :=
  if number_ltb y x then y else x.

(** [x || d] for an optional number: [undefined] and zero are falsy. *)
Definition or_default (x : option number) (d : number) : number :=
  match x with
  | None => d
  | Some (Finite q) => if Qeq_bool q 0 then d else Finite q
  | Some x' => x'
  end.

(** ToIntegerOrInfinity of a finite number: the fraction is dropped, toward
    zero. *)
Definition truncate (q : Q) : Z :=
  if Qle_bool 0 q then Qfloor q else Qceiling q.

(** [n] is a whole number. *)
Definition integral (x : number) : Prop :=
  exists n : Z, x = Finite (inject_Z n).

(** ** Records of an extraction result

    The declared type of a record is [Record<string, unknown>]. At run time
    it is a plain object or an array: extract_json keeps every item of a
    parsed array that is [typeof "object"] and not null, arrays included.
    [Object.keys], [Object.values], [Object.entries] and [r[k]] see an array
    as the object of its indices. *)
Inductive DataRecord : Type :=
| ObjectRecord (fields : record)
| ArrayRecord (items : list value).

Fixpoint indexed (i : Z) (items : list value) : record :=
  match items with
  | [] => []
  | x :: items' => (String_of_Z i, x) :: indexed (i + 1) items'
  end.

(** [Object.entries(r)] *)
Definition entries (r : DataRecord) : record :=
  match r with
  | ObjectRecord fields => fields
  | ArrayRecord items => indexed 0 items
  end.

(** The record as a value. *)
Definition record_value (r : DataRecord) : value :=
  match r with
  | ObjectRecord fields => VObj fields
  | ArrayRecord items => VArr items
  end.

(** [r[k]] on the own properties of a record; an array has its [length]
    besides its indices. *)
Definition record_get (r : DataRecord) (k : jstring) : value :=
  match r with
  | ObjectRecord fields => get fields k
  | ArrayRecord items =>
      if jstring_eqb k (str "length") then VNum (Z.of_nat (length items))
      else get (indexed 0 items) k
  end.

(** ** Output formatter (src/utils/outputFormatter.ts) *)

Module OutputFormatter.

Inductive ExtractionOutputFormat : Type :=
| Json | Markdown | Summary | KeyValue | Csv.

Definition format_name (f : ExtractionOutputFormat) : jstring :=
  match f with
  | Json => str "json"
  | Markdown => str "markdown"
  | Summary => str "summary"
  | KeyValue => str "key-value"
  | Csv => str "csv"
  end.

(** Modelled from the spec: the declaration of the metadata [source] tag is
    not among the sources; the spec lists the tags and every caller under
    src/ uses one of them. *)
Inductive ExtractionSource : Type :=
| SrcPdf | SrcEmail | SrcDataverse | SrcJson | SrcCode.

Definition source_name (s : ExtractionSource) : jstring :=
  match s with
  | SrcPdf => str "pdf"
  | SrcEmail => str "email"
  | SrcDataverse => str "dataverse"
  | SrcJson => str "json"
  | SrcCode => str "code"
  end.

(** What [resolveFormat] hands back: a format, or, for a tool name that
    only [Object.prototype] knows, the inherited value (not a format). *)
Inductive resolved : Type :=
| Fmt (f : ExtractionOutputFormat)
| NotAFormat.

Record Metadata : Type := mkMetadata {
  source : ExtractionSource;
  extractedAt : jstring;
  outputFormat : resolved;
  recordCount : Z;
  warnings : option (list jstring);
  targetTool : option jstring
}.

Record ExtractionResult : Type := mkResult {
  metadata : Metadata;
  records : list DataRecord
}.

Definition TARGET_TOOL_FORMAT_MAP : list (jstring * ExtractionOutputFormat) :=
  [ (str "add_customer", Json);
    (str "update_customer_status", Json);
    (str "add_environment", Json);
    (str "add_checklist_item", Json);
    (str "update_checklist_item", Json);
    (str "search_best_practices", Markdown);
    (str "get_implementation_checklist", Markdown);
    (str "get_customer", KeyValue);
    (str "list_customers", Csv);
    (str "get_environments", Csv);
    (str "validate_environment_readiness", Summary) ].

Definition TARGET_TOOL_FIELDS : list (jstring * list jstring) :=
  [ (str "add_customer",
      map str ["name"; "industry"; "region"; "engagementType"; "d365Modules";
               "goLiveDate"; "assignedArchitect"]%string);
    (str "add_environment",
      map str ["customerId"; "name"; "type"; "region"; "version";
               "lcsProjectId"; "url"]%string);
    (str "add_checklist_item",
      map str ["customerId"; "phase"; "category"; "title"; "description";
               "owner"; "dueDate"]%string);
    (str "update_customer_status",
      map str ["customerId"; "status"; "notes"]%string);
    (str "update_checklist_item",
      map str ["customerId"; "itemId"; "status"; "notes"]%string) ].

(** [getMaxDepth(obj, depth)] *)
Fixpoint getMaxDepth (obj : value) (depth : Z) : Z :=
  match obj with
  | VObj fields =>
      fold_left
        (fun max kv => Z.max max (getMaxDepth (snd kv) (depth + 1)))
        fields depth
  | _ => depth
  end.

(** [typeof v !== "object" || v === null || Array.isArray(v)] *)
Definition flat_value (v : value) : bool :=
  negb (typeof_object v) || is_null v || Array_isArray v.

(** [typeof v === "string" && v.length > 200] *)
Definition long_text (v : value) : bool :=
  match v with
  | VStr s => 200 <? Z.of_nat (length s)
  | _ => false
  end.

Definition detectFormatFromData (records : list DataRecord)
  : ExtractionOutputFormat :=
  match records with
  | [] => Json
  | [r] =>
      let depth := getMaxDepth (record_value r) 0 in
      if 2 <? depth then Json else KeyValue
  | _ =>
      let allFlat :=
        forallb (fun r => forallb flat_value (Object_values (entries r)))
                records in
      if allFlat && (3 <? Z.of_nat (length records)) then Csv
      else
        let hasLongText :=
          existsb (fun r => existsb long_text (Object_values (entries r)))
                  records in
        if hasLongText then Markdown else Json
  end.

(** [targetTool && TARGET_TOOL_FORMAT_MAP[targetTool]]: the empty string is
    falsy, every table entry and every inherited value is truthy. *)
Definition resolveFormat (result : ExtractionResult)
    (explicitFormat : option ExtractionOutputFormat)
    (targetTool : option jstring) : resolved :=
  match explicitFormat with
  | Some f => Fmt f
  | None =>
      let heuristic := Fmt (detectFormatFromData (records result)) in
      match targetTool with
      | None | Some [] => heuristic
      | Some tool =>
          match table_get TARGET_TOOL_FORMAT_MAP tool with
          | Own f => Fmt f
          | Inherited => NotAFormat
          | Missing => heuristic
          end
      end
  end.

(** [mapFieldsToTarget(records, targetTool)]. It throws (a TypeError) when
    the table lookup falls through to [Object.prototype] and the loop tries
    to iterate the inherited value. *)

(** [keys.find(p)] followed by the truthiness test of the key found *)
Definition find_key (p : jstring -> bool) (keys : list jstring)
  : option jstring :=
  match List.find p keys with
  | Some [] => None
  | found => found
  end.

Definition map_field (sourceRecord mapped : record) (expected : jstring)
  : record :=
  let exactKey :=
    find_key (fun k => jstring_eqb (toLowerCase k) (toLowerCase expected))
             (Object_keys sourceRecord) in
  match exactKey with
  | Some k => set mapped expected (get sourceRecord k)
  | None =>
      let containsKey :=
        find_key (fun k =>
                    includes (toLowerCase k) (toLowerCase expected)
                    || includes (toLowerCase expected) (toLowerCase k))
                 (Object_keys sourceRecord) in
      match containsKey with
      | Some k => set mapped expected (get sourceRecord k)
      | None => set mapped expected VUndefined
      end
  end.

Definition mapFieldsToTarget (records : list DataRecord)
    (targetTool : jstring) : outcome (option record) :=
  match table_get TARGET_TOOL_FIELDS targetTool, records with
  | Missing, _ => Returns None
  | _, [] => Returns None
  | Inherited, _ :: _ => Throws
  | Own expectedFields, sourceRecord :: _ =>
      Returns
        (Some (fold_left (map_field (entries sourceRecord)) expectedFields []))
  end.

(** The metadata object as [JSON.stringify] sees it. An absent [warnings]
    or [targetTool] and a non-format [outputFormat] all serialize to
    nothing. *)
Definition metadata_value (m : Metadata) : value :=
  VObj
    ([ (str "source", VStr (source_name (source m)));
       (str "extractedAt", VStr (extractedAt m));
       (str "outputFormat",
         match outputFormat m with
         | Fmt f => VStr (format_name f)
         | NotAFormat => VUndefined
         end);
       (str "recordCount", VNum (recordCount m));
       (str "warnings",
         match warnings m with
         | Some ws => VArr (map VStr ws)
         | None => VUndefined
         end) ]
     ++ match targetTool m with
        | Some t => [(str "targetTool", VStr t)]
        | None => []
        end).

Definition renderJson (result : ExtractionResult)
    (mappedFields : option record) : jstring :=
  let output :=
    [ (str "metadata", metadata_value (metadata result));
      (str "records", VArr (map record_value (records result))) ]
    ++ match mappedFields with
       | Some mapped => [(str "mappedFields", VObj mapped)]
       | None => []
       end in
  JSON_stringify_2 (VObj output).

(** [typeof value === "object" && value !== null ? JSON.stringify(value)
    : String(value ?? "")] *)
Definition display (v : value) : jstring :=
  match v with
  | VArr _ | VObj _ => JSON_stringify v
  | VUndefined | VNull => []
  | _ => String_of v
  end.

Definition has_warnings (m : Metadata) : bool :=
  match warnings m with
  | Some (_ :: _) => true
  | _ => false
  end.

Definition warning_list (m : Metadata) : list jstring :=
  default [] (warnings m).

(** [items.map((x, i) => f (i + 1) x)] *)
Fixpoint mapi1 {A B : Type} (f : Z -> A -> B) (i : Z) (l : list A) : list B :=
  match l with
  | [] => []
  | x :: l' => f (i + 1) x :: mapi1 f (i + 1) l'
  end.

Definition renderMarkdown (result : ExtractionResult) : jstring :=
  let m := metadata result in
  let header :=
    str "---" ++ [nl] ++ str "source: " ++ source_name (source m)
    ++ str " | extractedAt: " ++ extractedAt m
    ++ str " | records: " ++ String_of_Z (recordCount m)
    ++ [nl] ++ str "---" ++ [nl] in
  let section (n : Z) (r : DataRecord) :=
    (str "## Record " ++ String_of_Z n)
    :: map (fun kv => str "- **" ++ fst kv ++ str "**: " ++ display (snd kv))
           (entries r)
    ++ [[]] in
  let lines :=
    header :: concat (mapi1 section 0 (records result))
    ++ (if has_warnings m
        then str "## Warnings" :: map (fun w => str "- " ++ w) (warning_list m)
        else []) in
  join [nl] lines.

(** [new Set(...)]: the distinct strings, first occurrence first *)
Fixpoint distinct (seen : list jstring) (l : list jstring) : list jstring :=
  match l with
  | [] => rev seen
  | x :: l' =>
      if existsb (jstring_eqb x) seen then distinct seen l'
      else distinct (x :: seen) l'
  end.

Definition all_keys (records : list DataRecord) : list jstring :=
  distinct [] (concat (map (fun r => Object_keys (entries r)) records)).

(** The values of a key that are neither [undefined] nor [null]. *)
Definition present_values (records : list DataRecord) (key : jstring)
  : list value :=
  List.filter
    (fun v => match v with VUndefined | VNull => false | _ => true end)
    (map (fun r => record_get r key) records).

(** The lines of one key. [values.map((v) => String(v))] comes first and
    throws where a conversion does; the later conversions are of the same
    values. *)
Definition summary_line (records : list DataRecord) (key : jstring)
  : outcome (list jstring) :=
  let values := present_values records key in
  match map_outcome ToString values with
  | Throws => Throws
  | Returns texts =>
      let unique := distinct [] texts in
      Returns
        (if (length unique <=? 5)%nat && (1 <? length values)%nat then
           let counts :=
             fold_left
               (fun counts s =>
                  set counts s
                      (VNum (match get counts s with VNum c => c | _ => 0 end
                             + 1)))
               texts [] in
           let dist :=
             join (str ", ")
               (map (fun kc =>
                       fst kc ++ str " (" ++ String_of (snd kc) ++ str ")")
                    counts) in
           [key ++ str ": " ++ dist]
         else if (5 <? length unique)%nat then
           [key ++ str ": " ++ String_of_Z (Z.of_nat (length unique))
            ++ str " unique values"]
         else
           match texts with
           | [s] => [key ++ str ": " ++ substring0 100 s]
           | _ => []
           end)
  end.

Definition warnings_line (m : Metadata) : list jstring :=
  if has_warnings m
  then [[nl] ++ str "Warnings: " ++ join (str "; ") (warning_list m)]
  else [].

Definition renderSummary (result : ExtractionResult) : outcome jstring :=
  let m := metadata result in
  let first :=
    str "Extracted " ++ String_of_Z (recordCount m) ++ str " "
    ++ source_name (source m) ++ str " record(s) at " ++ extractedAt m
    ++ str "." in
  match records result with
  | [] => Returns (join [nl] [first; str "No records found."])
  | rs =>
      match map_outcome (summary_line rs) (all_keys rs) with
      | Throws => Throws
      | Returns lines =>
          Returns (join [nl] (first :: concat lines ++ warnings_line m))
      end
  end.

Definition renderKeyValue (result : ExtractionResult) : jstring :=
  let rs := records result in
  let count := Z.of_nat (length rs) in
  let block (n : Z) (r : DataRecord) :=
    (if 1 <? count then [str "=== Record " ++ String_of_Z n ++ str " ==="]
     else [])
    ++ map (fun kv => fst kv ++ str ": " ++ display (snd kv)) (entries r)
    ++ (if n - 1 <? count - 1 then [[]] else []) in
  join [nl] (concat (mapi1 block 0 rs) ++ warnings_line (metadata result)).

(** A CSV cell: [""] for an absent or null value, otherwise the text,
    quoted when it holds a comma, a quote or a newline. *)
Definition csv_cell (val : value) : jstring :=
  match val with
  | VUndefined | VNull => []
  | _ =>
      let s := match val with
               | VArr _ | VObj _ => JSON_stringify val
               | _ => String_of val
               end in
      if includes s (str ",") || includes s [dquote] || includes s [nl]
      then [dquote] ++ replaceAll (Chr dquote) [dquote; dquote] s ++ [dquote]
      else s
  end.

Definition renderCsv (result : ExtractionResult) : jstring :=
  let m := metadata result in
  match records result with
  | [] =>
      str "# source: " ++ source_name (source m) ++ str " | records: 0"
      ++ [nl] ++ str "(no data)"
  | rs =>
      let headers := all_keys rs in
      let comment :=
        str "# source: " ++ source_name (source m)
        ++ str " | extractedAt: " ++ extractedAt m
        ++ str " | records: " ++ String_of_Z (recordCount m) in
      let row (r : DataRecord) :=
        join (str ",") (map (fun h => csv_cell (record_get r h)) headers) in
      join [nl] (comment :: join (str ",") headers :: map row rs)
  end.

(** [result.metadata.outputFormat = format;
    if (targetTool) result.metadata.targetTool = targetTool;] *)
Definition stamp (m : Metadata) (fmt : resolved) (tool : option jstring)
  : Metadata :=
  mkMetadata (source m) (extractedAt m) fmt (recordCount m) (warnings m)
             (match tool with Some t => Some t | None => targetTool m end).

(** [format(result, explicitFormat, targetTool)]: the resolved format and
    the tool name are written into the metadata, then the renderer of the
    format runs; a non-format falls to the [default] branch. *)
Definition format (result : ExtractionResult)
    (explicitFormat : option ExtractionOutputFormat)
    (targetTool : option jstring) : outcome jstring :=
  let fmt := resolveFormat result explicitFormat targetTool in
  let tool := match targetTool with
              | Some (a :: t) => Some (a :: t)
              | _ => None
              end in
  let result' := mkResult (stamp (metadata result) fmt tool) (records result) in
  let mappedFields :=
    match tool with
    | Some t => mapFieldsToTarget (records result) t
    | None => Returns None
    end in
  match mappedFields with
  | Throws => Throws
  | Returns mapped =>
      match fmt with
      | Fmt Json | NotAFormat => Returns (renderJson result' mapped)
      | Fmt Markdown => Returns (renderMarkdown result')
      | Fmt Summary => renderSummary result'
      | Fmt KeyValue => Returns (renderKeyValue result')
      | Fmt Csv => Returns (renderCsv result')
      end
  end.

(** *** The depth of the specification

    The specification's own measure: a value that is not an object
    (arrays included, which the heuristic never opens) has depth 0, an
    empty object has depth 0, and any other object has depth 1 plus the
    largest depth among its values. [max_values_depth r] is the largest
    depth among the values of the record [r]. *)
Fixpoint nesting_depth (v : value) : Z :=
  match v with
  | VObj [] => 0
  | VObj fields =>
      1 + fold_left (fun m kv => Z.max m (nesting_depth (snd kv))) fields 0
  | _ => 0
  end.

Definition max_values_depth (r : record) : Z :=
  fold_left (fun m v => Z.max m (nesting_depth v)) (Object_values r) 0.

(** No tool name is supplied, or the lookup
    [TARGET_TOOL_FORMAT_MAP[targetTool]] finds nothing: neither an entry of
    the table nor one of the names that every object inherits from
    [Object.prototype]. *)
Definition no_format_hint (targetTool : option jstring) : Prop :=
  match targetTool with
  | None => True
  | Some t => table_get TARGET_TOOL_FORMAT_MAP t = Missing
  end.

(** Every value of every record is a scalar, null or an array. *)
Definition all_flat (rs : list DataRecord) : Prop :=
  Forall
    (fun r =>
       Forall (fun v => is_plain_object v = false) (Object_values (entries r)))
    rs.

(** Some record has a string value of more than 200 characters. *)
Definition some_long_text (rs : list DataRecord) : Prop :=
  Exists
    (fun r =>
       Exists (fun v => exists s, v = VStr s /\ 200 < Z.of_nat (length s))
              (Object_values (entries r)))
    rs.

(** The first record has a key that matches the expected field: the same
    name up to case, or one name containing the other up to case. *)
Definition has_match (sourceRecord : record) (expected : jstring) : bool :=
  existsb
    (fun k =>
       jstring_eqb (toLowerCase k) (toLowerCase expected)
       || includes (toLowerCase k) (toLowerCase expected)
       || includes (toLowerCase expected) (toLowerCase k))
    (Object_keys sourceRecord).

End OutputFormatter.

(** ** Path resolver and object flattener (src/utils/jsonPath.ts) *)

Module JsonPath.

(** [/\[(\d+)\]/g] and [/\[\*\]/g] *)
Definition bracket_index : regex :=
  cat [Chr "["; Group 1 (Plus digit); Chr "]"].

Definition bracket_star : regex := lit (str "[*]").

Definition segments_of (path : jstring) : list jstring :=
  split "."
    (replaceAll bracket_star (str ".*")
       (replace_go bracket_index
          (fun _ c => str "." ++ default [] (capture c 1)) 0 0 path)).

(** [items[index]] for a number [index] *)
Definition array_get (items : list value) (index : Z) : value :=
  if index <? 0 then VUndefined
  else nth (Z.to_nat index) items VUndefined.

Fixpoint sequence {A : Type} (l : list (option A)) : option (list A) :=
  match l with
  | [] => Some []
  | Some x :: l' => option_map (cons x) (sequence l')
  | None :: _ => None
  end.

(** The loop of [resolveJsonPath] over the segments; [again] is the
    function itself, called by the wildcard case on the rest of the path. *)
Fixpoint walk (again : value -> jstring -> option value)
    (segments : list jstring) (current : value) {struct segments}
  : option value :=
  match segments with
  | [] => Some current
  | segment :: more =>
      match current with
      | VNull | VUndefined => Some VUndefined
      | VArr items =>
          if jstring_eqb segment (str "*") then
            match join (str ".") more with
            | [] => Some current
            | remaining =>
                option_map VArr
                  (sequence (map (fun item => again item remaining) items))
            end
          else
            match parseInt segment with
            | None => Some VUndefined
            | Some index => walk again more (array_get items index)
            end
      | VObj fields => walk again more (get fields segment)
      | _ => Some VUndefined
      end
  end.

(** [resolveJsonPath(obj, path)]. The path handed to the inner call is
    shorter than [path]; [fuel] bounds the depth of these calls and [None]
    means it ran out. *)
Fixpoint resolve (fuel : nat) (obj : value) (path : jstring) {struct fuel}
  : option value :=
  match fuel with
  | O => None
  | S fuel' => walk (resolve fuel') (segments_of path) obj
  end.

Definition resolveJsonPath (obj : value) (path : jstring) : option value :=
  resolve (S (length path)) obj path.

(** [prefix ? `${prefix}.${key}` : key] *)
Definition fullKey (prefix key : jstring) : jstring :=
  match prefix with
  | [] => key
  | _ :: _ => prefix ++ str "." ++ key
  end.

(** [flattenObject(obj, prefix)] *)
Fixpoint flatten (obj : value) (prefix : jstring) : record :=
  match obj with
  | VObj fields =>
      fold_left
        (fun result kv =>
           match snd kv with
           | VObj _ =>
               Object_assign result
                 (flatten (snd kv) (fullKey prefix (fst kv)))
           | other => set result (fullKey prefix (fst kv)) other
           end)
        fields []
  | _ => []
  end.

Definition flattenObject (obj : record) (prefix : jstring) : record :=
  flatten (VObj obj) prefix.

(** The flattened key of the path [p] below [prefix]. *)
Definition path_key (prefix : jstring) (p : list jstring) : jstring :=
  fold_left fullKey p prefix.

(** [leads fields p v]: following the keys [p] from the object [fields]
    through nested objects ends at the value [v], which is not an object. *)
Inductive leads : record -> list jstring -> value -> Prop :=
| leads_leaf (fields : record) (k : jstring) (v : value) :
    In (k, v) fields -> is_plain_object v = false -> leads fields [k] v
| leads_step (fields sub : record) (k : jstring) (p : list jstring)
    (v : value) :
    In (k, VObj sub) fields -> leads sub p v -> leads fields (k :: p) v.

(** The keys of an object and of the objects nested in it (arrays are not
    opened, as in [flattenObject]). *)
Fixpoint all_object_keys (v : value) : list jstring :=
  match v with
  | VObj fields =>
      flat_map (fun kv => fst kv :: all_object_keys (snd kv)) fields
  | _ => []
  end.

(** The same, requiring distinct keys in each of those objects. *)
Fixpoint distinct_keys (v : value) : bool :=
  match v with
  | VObj fields =>
      nodup_keys (map fst fields)
      && forallb (fun kv => distinct_keys (snd kv)) fields
  | _ => true
  end.

Definition has_char (a : ascii) (s : jstring) : bool :=
  existsb (ascii_eqb a) s.

(** Hypothesis of the specification: keys contain no dots. *)
Definition dot_free (v : value) : Prop :=
  Forall (fun k => has_char "." k = false) (all_object_keys v).

(** Every object reachable through objects has at least one value. *)
Fixpoint objects_nonempty (v : value) : bool :=
  match v with
  | VObj fields =>
      forallb
        (fun kv =>
           match snd kv with
           | VObj [] => false
           | _ => objects_nonempty (snd kv)
           end) fields
  | _ => true
  end.

(** Keys that are not empty and hold neither a dot nor a bracketed index
    ([[0]], [[12]], ...) nor a bracketed wildcard ([[*]]). *)
Definition plain_key (k : jstring) : bool :=
  negb (length k =? 0)%nat && negb (has_char "." k)
  && negb (test bracket_index k) && negb (test bracket_star k).

(** The words the two bracket patterns match. *)
Definition index_word (w : jstring) : Prop :=
  exists ds,
    w = "["%char :: ds ++ ["]"%char]
    /\ ds <> [] /\ forallb is_digit ds = true.

Definition star_word (w : jstring) : Prop := w = str "[*]".

Definition plain_keys (v : value) : Prop :=
  Forall (fun k => plain_key k = true) (all_object_keys v).

End JsonPath.

(** ** Plain-text converter (src/utils/htmlToText.ts) *)

Module HtmlToText.

Definition any_tag : regex :=
  cat [Chr "<"; Plus (none_of (str ">")); Chr ">"].

(** The pipeline, in the order of the source: the substitutions on markup
    (tags, then named character references), then the two on white
    space. *)
Definition markup_steps : list (regex * jstring) :=
  [ (ci (cat [lit (str "<br"); Star space; Opt (Chr "/"); Chr ">"]), [nl]);
    (ci (lit (str "</p>")), [nl; nl]);
    (ci (lit (str "</div>")), [nl]);
    (ci (lit (str "</li>")), [nl]);
    (ci (cat [lit (str "<li"); Star (none_of (str ">")); Chr ">"]), str "- ");
    (ci (lit (str "</tr>")), [nl]);
    (ci (lit (str "</td>")), [tab]);
    (any_tag, []);
    (lit (str "&amp;"), str "&");
    (lit (str "&lt;"), str "<");
    (lit (str "&gt;"), str ">");
    (lit (str "&quot;"), [dquote]);
    (lit (str "&#39;"), str "'");
    (lit (str "&nbsp;"), str " ") ].

Definition space_steps : list (regex * jstring) :=
  [ (Plus (any_of [" "%char; tab]), str " ");
    (AtLeast3 (Chr nl), [nl; nl]) ].

Definition steps : list (regex * jstring) := markup_steps ++ space_steps.

Definition run_steps (l : list (regex * jstring)) (s : jstring) : jstring :=
  fold_left (fun s step => replaceAll (fst step) (snd step) s) l s.

Definition htmlToText (html : jstring) : jstring := trim (run_steps steps html).

(** "No further HTML markup": no tag-shaped substring and none of the six
    named character references. *)
Definition entities : list jstring :=
  map str ["&amp;"; "&lt;"; "&gt;"; "&quot;"; "&#39;"; "&nbsp;"]%string.

Definition no_markup (s : jstring) : Prop :=
  test any_tag s = false /\ Forall (fun e => includes s e = false) entities.

(** The text starts with something tag-shaped: [<], one or more characters
    other than [>], then [>]. *)
Definition not_gt (a : ascii) : bool := negb (existsb (ascii_eqb a) (str ">")).

Definition tag_prefix (s : jstring) : Prop :=
  exists body tail,
    s = "<"%char :: body ++ ">"%char :: tail
    /\ body <> [] /\ forallb not_gt body = true.

(** What the two white-space steps establish: blanks come one at a time
    and are spaces, and no three newlines are adjacent. *)
Definition blank_unit (a : ascii) : bool :=
  existsb (ascii_eqb a) [" "%char; tab].

Definition newline_unit (a : ascii) : bool := ascii_eqb a nl.

Fixpoint single_spaced (s : jstring) : bool :=
  match s with
  | [] => true
  | a :: s' =>
      (if blank_unit a
       then ascii_eqb a " " && (span blank_unit s' =? 0)%nat
       else true)
      && single_spaced s'
  end.

Fixpoint no_triple_newline (s : jstring) : bool :=
  (span newline_unit s <? 3)%nat
  && match s with
     | [] => true
     | _ :: s' => no_triple_newline s'
     end.

End HtmlToText.

(** ** Code structure extractor (src/tools/extraction/extractCode.ts) *)

Module ExtractCode.

Inductive ExtractionMode : Type :=
| Full | Structure | Imports | Exports | Comments.

Record CodeRecord : Type := mkCodeRecord {
  type : jstring;
  name : jstring;
  line : Z;
  signature : jstring
}.

Definition LANGUAGE_MAP : list (jstring * jstring) :=
  [ (str ".ts", str "typescript");
    (str ".tsx", str "typescript");
    (str ".js", str "javascript");
    (str ".jsx", str "javascript");
    (str ".cs", str "csharp");
    (str ".xpp", str "xpp");
    (str ".xml", str "xml");
    (str ".json", str "json");
    (str ".py", str "python");
    (str ".java", str "java");
    (str ".sql", str "sql") ].

(** [path.extname] (POSIX): the text from the last dot of the last path
    component on; empty when that component has no dot, starts with its
    only dot, or is [..]. *)
Fixpoint drop_slashes (s : jstring) : jstring :=
  match s with
  | a :: s' => if ascii_eqb a "/" then drop_slashes s' else s
  | [] => []
  end.

Fixpoint until_char (a : ascii) (s : jstring) : jstring :=
  match s with
  | x :: s' => if ascii_eqb x a then [] else x :: until_char a s'
  | [] => []
  end.

Definition basename_rev (path : jstring) : jstring :=
  until_char "/" (drop_slashes (rev path)).

Definition extname (path : jstring) : jstring :=
  let base_rev := basename_rev path in
  if negb (existsb (ascii_eqb ".") base_rev) then []
  else
    let ext_rev := until_char "." base_rev in
    if (length ext_rev + 1 =? length base_rev)%nat then []
    else if jstring_eqb base_rev (str "..") then []
    else "."%char :: rev ext_rev.

(** [LANGUAGE_MAP[ext] || "unknown"]; [ext] is empty or starts with a dot,
    so the lookup never reaches [Object.prototype]. *)
Definition detectLanguage (filePath : jstring) : jstring :=
  match assoc LANGUAGE_MAP (toLowerCase (extname filePath)) with
  | Some language => language
  | None => str "unknown"
  end.

Definition kw (s : string) : regex := lit (str s).
Definition sp : regex := Plus space.
Definition sp0 : regex := Star space.
Definition ident : regex := Plus word.

Definition visibility3 : regex :=
  alt (kw "public") [kw "private"; kw "protected"].
Definition visibility4 : regex :=
  alt (kw "public") [kw "private"; kw "protected"; kw "internal"].

(** [\w[\w<>\[\],\s]*]: a type expression *)
Definition type_expr : regex :=
  Seq word
      (Star (Cls (fun a =>
                    is_word a || existsb (ascii_eqb a) (str "<>[],")
                    || is_space a))).

Definition typescript_patterns : list regex :=
  [ cat [Bol; Opt (Group 1 (cat [kw "export"; sp]));
         Group 2 (alt (kw "interface")
                      [kw "type"; kw "enum"; kw "class";
                       cat [kw "abstract"; sp; kw "class"]]);
         sp; Group 3 ident];
    cat [Bol; Opt (Group 1 (cat [kw "export"; sp]));
         Opt (Group 2 (cat [kw "async"; sp]));
         kw "function"; sp; Group 3 ident];
    cat [Bol; sp0;
         Group 1 (alt (kw "public")
                      [kw "private"; kw "protected"; kw "static"; kw "async"]);
         sp; Group 2 ident; sp0; Chr "("] ].

Definition javascript_patterns : list regex :=
  [ cat [Bol; Opt (Group 1 (cat [kw "export"; sp]));
         Group 2 (kw "class"); sp; Group 3 ident];
    cat [Bol; Opt (Group 1 (cat [kw "export"; sp]));
         Opt (Group 2 (cat [kw "async"; sp]));
         kw "function"; sp; Group 3 ident];
    cat [Bol; sp0; Group 1 (alt (kw "const") [kw "let"; kw "var"]);
         sp; Group 2 ident; sp0; Chr "="; sp0;
         Opt (Group 3 (cat [kw "async"; sp])); Chr "("] ].

Definition csharp_patterns : list regex :=
  [ cat [Bol; sp0; Opt (Group 1 visibility4); sp0;
         Opt (Group 2 (cat [kw "static"; sp]));
         Opt (Group 3 (cat [kw "partial"; sp]));
         Group 4 (alt (kw "class")
                      [kw "interface"; kw "struct"; kw "enum"; kw "record"]);
         sp; Group 5 ident];
    cat [Bol; sp0; Opt (Group 1 visibility4); sp0;
         Opt (Group 2 (cat [kw "static"; sp]));
         Opt (Group 3 (cat [kw "async"; sp]));
         Opt (Group 4 (cat [kw "virtual"; sp]));
         Opt (Group 5 (cat [kw "override"; sp]));
         type_expr; sp; Group 6 ident; sp0; Chr "("] ].

Definition xpp_patterns : list regex :=
  [ cat [Bol; sp0; Opt (Group 1 visibility3); sp0;
         Opt (Group 2 (cat [kw "static"; sp]));
         Group 3 (alt (kw "class") [kw "interface"; kw "table"]);
         sp; Group 4 ident];
    cat [Bol; sp0; Opt (Group 1 visibility3); sp0;
         Opt (Group 2 (cat [kw "static"; sp]));
         ident; sp; Group 3 ident; sp0; Chr "("] ].

Definition python_patterns : list regex :=
  [ cat [Bol; kw "class"; sp; Group 1 ident];
    cat [Bol; Opt (Group 1 (cat [kw "async"; sp])); kw "def"; sp;
         Group 2 ident] ].

Definition java_patterns : list regex :=
  [ cat [Bol; sp0; Opt (Group 1 visibility3); sp0;
         Opt (Group 2 (cat [kw "static"; sp]));
         Opt (Group 3 (cat [kw "abstract"; sp]));
         Group 4 (alt (kw "class") [kw "interface"; kw "enum"]);
         sp; Group 5 ident];
    cat [Bol; sp0; Opt (Group 1 visibility3); sp0;
         Opt (Group 2 (cat [kw "static"; sp]));
         Opt (Group 3 (cat [kw "abstract"; sp]));
         type_expr; sp; Group 4 ident; sp0; Chr "("] ].

Definition patterns : list (jstring * list regex) :=
  [ (str "typescript", typescript_patterns);
    (str "javascript", javascript_patterns);
    (str "csharp", csharp_patterns);
    (str "xpp", xpp_patterns);
    (str "python", python_patterns);
    (str "java", java_patterns) ].

Definition inferType (signature language : jstring) : jstring :=
  let s := toLowerCase signature in
  if includes s (str "class") then str "class"
  else if includes s (str "interface") then str "interface"
  else if includes s (str "enum") then str "enum"
  else if includes s (str "struct") then str "struct"
  else if includes s (str "type ") && jstring_eqb language (str "typescript")
  then str "type"
  else if includes s (str "function") || includes s (str "def ")
  then str "function"
  else if includes s (str "table") && jstring_eqb language (str "xpp")
  then str "table"
  else str "method".

(** [/^\s*$/] and [/\s*\($/] *)
Definition blank : regex := cat [Bol; sp0; Eol].
Definition trailing_paren : regex := cat [sp0; Chr "("; Eol].

(** [match.filter((g) => g && !g.match(/^\s*$/))] *)
Definition nonEmpty (m : list (option jstring)) : list jstring :=
  flat_map
    (fun g =>
       match g with
       | Some (a :: t) => if test blank (a :: t) then [] else [a :: t]
       | _ => []
       end) m.

(** The first pattern of [langPatterns] that matches the line *)
Fixpoint first_match (langPatterns : list regex) (l : jstring)
  : option (list (option jstring)) :=
  match langPatterns with
  | [] => None
  | pattern :: more =>
      match match_array pattern l with
      | Some m => Some m
      | None => first_match more l
      end
  end.

Definition structure_record (langPatterns : list regex) (language : jstring)
    (i : Z) (l : jstring) : list CodeRecord :=
  match first_match langPatterns l with
  | Some m =>
      let signature := trim l in
      let name :=
        match last (nonEmpty m) with
        | Some g => g
        | None => substring0 50 signature
        end in
      [ mkCodeRecord (inferType signature language)
                     (replaceFirst trailing_paren [] name)
                     i
                     (substring0 200 signature) ]
  | None => []
  end.

(** [lines.map((l, i) => f (i + 1) l)], flattened *)
Fixpoint scan {A : Type} (f : Z -> jstring -> list A) (i : Z)
    (lines : list jstring) : list A :=
  match lines with
  | [] => []
  | l :: lines' => f (i + 1) l ++ scan f (i + 1) lines'
  end.

(** [extractStructure(content, language)]. A language that is not a key of
    [patterns] gets the TypeScript patterns; iterating the value inherited
    for an [Object.prototype] name throws on the first line. *)
Definition extractStructure (content language : jstring)
  : outcome (list CodeRecord) :=
  let lines := split nl content in
  match table_get patterns language with
  | Inherited => Throws
  | Own langPatterns =>
      Returns (scan (structure_record langPatterns language) 0 lines)
  | Missing =>
      Returns (scan (structure_record typescript_patterns language) 0 lines)
  end.

Definition importPatterns : list (jstring * regex) :=
  [ (str "typescript", cat [Bol; kw "import"; sp; Star dot]);
    (str "javascript",
      cat [Bol; Group 1 (alt (kw "import") [kw "require"]); sp0;
           Opt (Chr "("); Star dot]);
    (str "csharp", cat [Bol; kw "using"; sp; Star dot]);
    (str "xpp", cat [Bol; kw "using"; sp; Star dot]);
    (str "python",
      cat [Bol; Group 1 (alt (kw "import") [kw "from"]); sp; Star dot]);
    (str "java", cat [Bol; kw "import"; sp; Star dot]) ].

Definition import_record (pattern : regex) (i : Z) (l : jstring)
  : list CodeRecord :=
  if test pattern (trim l)
  then [mkCodeRecord (str "import") (trim l) i (trim l)]
  else [].

Definition extractImports (content language : jstring)
  : outcome (list CodeRecord) :=
  let lines := split nl content in
  match table_get importPatterns language with
  | Inherited => Throws
  | Own pattern => Returns (scan (import_record pattern) 0 lines)
  | Missing =>
      Returns
        (scan (import_record (cat [Bol; kw "import"; sp; Star dot])) 0 lines)
  end.

Definition export_record (language : jstring) (i : Z) (l : jstring)
  : list CodeRecord :=
  let line := trim l in
  let exported :=
    mkCodeRecord (str "export") (substring0 80 line) i (substring0 200 line) in
  if (jstring_eqb language (str "typescript")
      || jstring_eqb language (str "javascript"))
     && startsWith line (str "export ")
  then [exported]
  else if (jstring_eqb language (str "csharp")
           || jstring_eqb language (str "java")
           || jstring_eqb language (str "xpp"))
          && test (cat [Bol; kw "public"; sp]) line
  then [exported]
  else [].

Definition extractExports (content language : jstring) : list CodeRecord :=
  scan (export_record language) 0 (split nl content).

(** [extractComments(content)]: the loop state is [inBlock], [blockStart]
    and [blockLines]. *)
Fixpoint comments_loop (i : Z) (inBlock : bool) (blockStart : Z)
    (blockLines : list jstring) (lines : list jstring) : list CodeRecord :=
  match lines with
  | [] => []
  | l :: lines' =>
      let line := trim l in
      let xml :=
        if startsWith line (str "///")
        then [mkCodeRecord (str "xml-doc-comment")
                (str "Comment at line " ++ String_of_Z (i + 1)) (i + 1)
                (substring0 200 line)]
        else [] in
      if startsWith line (str "/**") && negb inBlock then
        xml ++ comments_loop (i + 1) true (i + 1) [line] lines'
      else if inBlock then
        let blockLines' := blockLines ++ [line] in
        if includes line (str "*/") then
          mkCodeRecord (str "doc-comment")
            (str "Comment at line " ++ String_of_Z blockStart) blockStart
            (substring0 500 (join [nl] blockLines'))
          :: xml ++ comments_loop (i + 1) false blockStart [] lines'
        else xml ++ comments_loop (i + 1) true blockStart blockLines' lines'
      else xml ++ comments_loop (i + 1) false blockStart blockLines lines'
  end.

Definition extractComments (content : jstring) : list CodeRecord :=
  comments_loop 0 false 0 [] (split nl content).

Definition extractFull (content : jstring) : list CodeRecord :=
  take 500
    (scan (fun i l => [mkCodeRecord (str "line") (String_of_Z i) i l]) 0
          (split nl content)).

(** The records the tool handler computes: [language || detectLanguage
    (filePath)], then the branch of the mode. *)
Definition resolve_language (language : option jstring) (filePath : jstring)
  : jstring :=
  match language with
  | Some (a :: t) => a :: t
  | _ => detectLanguage filePath
  end.

Definition codeRecords (mode : ExtractionMode) (lang content : jstring)
  : outcome (list CodeRecord) :=
  match mode with
  | Full => Returns (extractFull content)
  | Structure => extractStructure content lang
  | Imports => extractImports content lang
  | Exports => Returns (extractExports content lang)
  | Comments => Returns (extractComments content)
  end.

(** [same_but_type a b]: the records agree, except that where [b] is
    tagged "type" the tag of [a] may be another one. *)
Definition same_but_type (a b : CodeRecord) : Prop :=
  name a = name b /\ line a = line b /\ signature a = signature b
  /\ (type a = type b \/ type b = str "type").

End ExtractCode.

(** ** Token cache (src/utils/authProvider.ts) *)

Module AuthProvider.

Record CachedToken : Type := mkCachedToken {
  accessToken : jstring;
  expiresAt : Z            (* milliseconds, as [Date.now()] *)
}.

(** What the token endpoint answers when it is asked. *)
Inductive TokenResponse : Type :=
| TokenOk (access_token : jstring) (expires_in : Z)
| TokenFailed (status : Z).

(** One call of [getToken]: what it returns, whether it sent a request to
    the token endpoint, and the cache it leaves. *)
Record Call : Type := mkCall {
  returned : outcome jstring;
  fetched : bool;
  cache_after : gmap jstring CachedToken
}.

(** [getToken(cacheKey, ...)] run at [Date.now() = now]; [response] is the
    answer of the endpoint, consulted only when the cache does not serve
    the call. *)
Definition getToken (tokenCache : gmap jstring CachedToken) (now : Z)
    (cacheKey : jstring) (response : TokenResponse) : Call :=
  let fresh :=
    match response with
    | TokenFailed _ => mkCall Throws true tokenCache
    | TokenOk access_token expires_in =>
        let token := mkCachedToken access_token (now + expires_in * 1000) in
        mkCall (Returns (accessToken token)) true
               (<[cacheKey := token]> tokenCache)
    end in
  match tokenCache !! cacheKey with
  | Some cached =>
      if now + 5 * 60 * 1000 <? expiresAt cached
      then mkCall (Returns (accessToken cached)) false tokenCache
      else fresh
  | None => fresh
  end.

(** [clearCache()] *)
Definition clearCache (tokenCache : gmap jstring CachedToken)
  : gmap jstring CachedToken := ∅.

(** A request to [getToken]: the clock, the key and the endpoint's
    answer. *)
Record Request : Type := mkRequest {
  at_time : Z;
  key : jstring;
  answer : TokenResponse
}.

(** A sequence of calls, each starting from the cache the previous one
    left. *)
Fixpoint run (tokenCache : gmap jstring CachedToken) (reqs : list Request)
  : list (Request * Call) * gmap jstring CachedToken :=
  match reqs with
  | [] => ([], tokenCache)
  | r :: reqs' =>
      let c := getToken tokenCache (at_time r) (key r) (answer r) in
      let (calls, final) := run (cache_after c) reqs' in
      ((r, c) :: calls, final)
  end.

End AuthProvider.

(** ** Dataverse extraction (the [extract_dataverse] tool) *)

Module ExtractDataverse.

Import OutputFormatter.

Record ODataResponse : Type := mkOData {
  value : option (list record);          (* [data.value] *)
  nextLink : option jstring              (* [data["@odata.nextLink"]] *)
}.

Inductive HttpResponse : Type :=
| Ok (data : ODataResponse)
| NotOk (status : Z) (errorText : jstring).

(** The server: its answer to the [n]-th request of the invocation, sent
    to the given link. *)
Definition Server : Type := nat -> jstring -> HttpResponse.

Definition stripODataAnnotations (r : record) : record :=
  fold_left
    (fun cleaned kv =>
       let key := fst kv in
       if startsWith key (str "@odata.")
          || startsWith key (str "@Microsoft.")
          || (startsWith key (str "_") && endsWith key (str "_value"))
       then cleaned
       else set cleaned key (snd kv))
    r [].

(** [Math.min(top || 50, 500)] *)
Definition maxTop (top : option number) : number :=
  Math_min (or_default top (of_Z 50)) (of_Z 500).

Definition maxPages : Z := 5.

Definition truthy (link : option jstring) : bool :=
  match link with
  | Some (_ :: _) => true
  | _ => false
  end.

Record LoopState : Type := mkLoop {
  allRecords : list record;
  link : option jstring;
  pageCount : Z;
  sent : list jstring        (* the requests sent so far, oldest first *)
}.

Inductive LoopResult : Type :=
| Finished (s : LoopState)
| Failed (s : LoopState) (status : Z) (errorText : jstring).

(** The pagination loop. Each iteration adds one to [pageCount], so
    [maxPages] iterations at most run; [fuel] makes that structural, and
    [None] means the fuel ran out. *)
Fixpoint paginate (fuel : nat) (server : Server) (limit : number)
    (s : LoopState) : option LoopResult :=
  if truthy (link s)
     && number_ltb (of_Z (Z.of_nat (length (allRecords s)))) limit
     && (pageCount s <? maxPages)
  then
    match fuel with
    | O => None
    | S fuel' =>
        let url := default [] (link s) in
        match server (length (sent s)) url with
        | NotOk status errorText =>
            Some (Failed (mkLoop (allRecords s) (link s) (pageCount s)
                                 (sent s ++ [url]))
                         status errorText)
        | Ok data =>
            let pageRecords :=
              map stripODataAnnotations (default [] (value data)) in
            paginate fuel' server limit
              (mkLoop (allRecords s ++ pageRecords) (nextLink data)
                      (pageCount s + 1) (sent s ++ [url]))
        end
    end
  else Some (Finished s).

(** [records.slice(0, n)] for an integral [n], and for any number: the end
    is ToIntegerOrInfinity of it. *)
Definition slice0 {A : Type} (n : Z) (l : list A) : list A :=
  if n <? 0 then take (length l - Z.to_nat (- n)) l
  else take (Z.to_nat n) l.

Definition slice_to {A : Type} (end_ : number) (l : list A) : list A :=
  match end_ with
  | Finite q => slice0 (truncate q) l
  | PlusInfinity => l
  | MinusInfinity => []
  end.

(** What an invocation produced: the requests it sent, and either an early
    message or the result envelope. *)
Inductive Output : Type :=
| Message (text : jstring)
| Envelope (result : ExtractionResult).

Record Extraction : Type := mkExtraction {
  requests : list jstring;
  output : Output
}.

Definition error_text (table : jstring) (status : Z) (errorText : jstring)
  : jstring :=
  if status =? 401 then
    str "Authentication failed (401). Token may be expired or invalid. Check your Dataverse credentials."
  else if status =? 404 then
    str "Table '" ++ table
    ++ str "' not found. Verify the logical name (e.g. 'accounts', 'contacts')."
  else
    str "Dataverse API error (" ++ String_of_Z status ++ str "): "
    ++ substring0 300 errorText.

Definition more_available (shown : nat) : jstring :=
  str "More records available in Dataverse. Showing first "
  ++ String_of_Z (Z.of_nat shown) ++ str " results.".

(** [`${envUrl.replace(/\/$/, "")}/api/data/v9.2/${table}?${params}`] *)
Definition firstLink (envUrl table params : jstring) : jstring :=
  replaceFirst (cat [Chr "/"; Eol]) [] envUrl
  ++ str "/api/data/v9.2/" ++ table ++ str "?" ++ params.

Definition fetch_all (server : Server) (limit : number) (first : jstring)
  : option LoopResult :=
  paginate (Z.to_nat maxPages) server limit (mkLoop [] (Some first) 0 []).

(** What follows the loop: trimming, the warning, the envelope. *)
Definition envelope (limit : number) (now : jstring) (s : LoopState)
  : ExtractionResult :=
  let trimmed :=
    if number_ltb limit (of_Z (Z.of_nat (length (allRecords s))))
    then slice_to limit (allRecords s) else allRecords s in
  let warnings :=
    if truthy (link s)
       && number_leb limit (of_Z (Z.of_nat (length trimmed)))
    then [more_available (length trimmed)] else [] in
  mkResult
    (mkMetadata SrcDataverse now (Fmt Json) (Z.of_nat (length trimmed))
       (match warnings with [] => None | _ :: _ => Some warnings end)
       None)
    (map ObjectRecord trimmed).

(** The handler from the construction of the first link to the result
    envelope. [params] is the serialized query string and [now] the time
    stamp. *)
Definition extract (server : Server) (envUrl table params : jstring)
    (top : option number) (now : jstring) : option Extraction :=
  let limit := maxTop top in
  match fetch_all server limit (firstLink envUrl table params) with
  | None => None
  | Some (Failed s status errorText) =>
      Some (mkExtraction (sent s) (Message (error_text table status errorText)))
  | Some (Finished s) =>
      Some (mkExtraction (sent s) (Envelope (envelope limit now s)))
  end.

(** The warnings of an envelope. *)
Definition warned (o : Output) : list jstring :=
  match o with
  | Envelope result => default [] (warnings (metadata result))
  | Message _ => []
  end.

Definition returned_records (o : Output) : list DataRecord :=
  match o with
  | Envelope result => records result
  | Message _ => []
  end.

End ExtractDataverse.

(** ** Names that an assignment appends

    A list of property names that are pairwise distinct and none of which is
    an array index: assigning them in turn to a fresh object enumerates them
    in the order of the list. *)
Definition plain_names (ks : list jstring) : bool :=
  nodup_keys ks
  && forallb
       (fun k => match array_index k with None => true | Some _ => false end)
       ks.

(** ** OData annotations (the test of [stripODataAnnotations]) *)

(** [key.startsWith("@odata.") || key.startsWith("@Microsoft.") ||
    key.startsWith("_") && key.endsWith("_value")] *)
Definition annotation_key (key : jstring) : bool :=
  startsWith key (str "@odata.")
  || startsWith key (str "@Microsoft.")
  || (startsWith key (str "_") && endsWith key (str "_value")).

(** ** Page selection of the PDF extraction (the [extract_pdf] tool) *)

Module ExtractPdf.

(** [Math.max(1, x)]; [None] is [NaN], which [Math.max] hands on. *)
Definition max1 (x : option Z) : option Z := option_map (Z.max 1) x.

(** [for (let i = start; ...; i++) pageNumbers.push(i)], [n] turns of it. *)
Fixpoint count_up (n : nat) (i : Z) : list Z :=
  match n with
  | O => []
  | S n' => i :: count_up n' (i + 1)
  end.

(** [for (let i = start; i <= end; i++) pageNumbers.push(i)]: the loop
    makes [end - start + 1] turns when that is positive, and none when
    [start] or [end] is [NaN] (a comparison with [NaN] is false). *)
Definition range (start end_ : option Z) : list Z :=
  match start, end_ with
  | Some a, Some b => count_up (Z.to_nat (b - a + 1)) a
  | _, _ => []
  end.

(** The pages one comma-separated part contributes. With a hyphen in it the
    part is a range, read from the first two pieces around hyphens. The
    numbers are the integers the numerals denote; the doubles of the code
    are those integers as long as they stay below 2^53. *)
Definition part_pages (part : jstring) : list Z :=
  if includes part (str "-") then
    match split "-" part with
    | startStr :: endStr :: _ =>
        range (max1 (parseInt startStr)) (parseInt endStr)
    | _ => []
    end
  else
    match parseInt part with
    | Some page => if 0 <? page then [page] else []
    | None => []
    end.

(** [[...new Set(numbers)]]: the distinct numbers, first occurrence first *)
Fixpoint unique (seen : list Z) (l : list Z) : list Z :=
  match l with
  | [] => rev seen
  | x :: l' =>
      if existsb (Z.eqb x) seen then unique seen l'
      else unique (x :: seen) l'
  end.

(** [numbers.sort((a, b) => a - b)]: the ascending arrangement, which is
    the same whatever the sorting algorithm; here by insertion. *)
Fixpoint insert_sorted (x : Z) (l : list Z) : list Z :=
  match l with
  | [] => [x]
  | y :: l' => if x <=? y then x :: l else y :: insert_sorted x l'
  end.

Definition sort_ascending (l : list Z) : list Z :=
  fold_right insert_sorted [] l.

(** [buildParseParams(pages, _)]: [None] is the empty parameter object
    (every page is read), [Some l] is [{ partial: l }]. *)
Definition buildParseParams (pages : option jstring) : option (list Z) :=
  match pages with
  | None | Some [] => None
  | Some p =>
      if jstring_eqb (toLowerCase p) (str "all") then None
      else
        let parts := map trim (split "," p) in
        let pageNumbers := flat_map part_pages parts in
        match pageNumbers with
        | [] => None
        | _ :: _ => Some (sort_ascending (unique [] pageNumbers))
        end
  end.

(** Strictly ascending *)
Fixpoint ascending (l : list Z) : bool :=
  match l with
  | x :: ((y :: _) as l') => (x <? y) && ascending l'
  | _ => true
  end.

End ExtractPdf.

(** ** The in-memory store (src/data/store.ts) and the tools on
    environments

    A [Map] is an association list in insertion order. *)

Module Customer.

Inductive EngagementType : Type := FastTrack | Unified | Direct.

Inductive Status : Type :=
| Active | Onboarding | GoLive | PostGoLive | Completed.

Record Customer : Type := mkCustomer {
  id : jstring;
  name : jstring;
  industry : jstring;
  region : jstring;
  engagementType : EngagementType;
  status : Status;
  d365Modules : list jstring;
  goLiveDate : option jstring;
  assignedArchitect : option jstring;
  notes : option jstring;
  createdAt : jstring;
  updatedAt : jstring
}.

End Customer.

Module D365Environment.

Inductive EnvironmentType : Type :=
| Sandbox | UAT | Production | DevTest | Build.

Inductive Status : Type := Active | Provisioning | Decommissioned.

Record D365Environment : Type := mkEnvironment {
  id : jstring;
  customerId : jstring;
  name : jstring;
  type : EnvironmentType;
  region : jstring;
  version : jstring;
  lcsProjectId : option jstring;
  url : option jstring;
  status : Status
}.

Definition type_name (t : EnvironmentType) : jstring :=
  match t with
  | Sandbox => str "Sandbox"
  | UAT => str "UAT"
  | Production => str "Production"
  | DevTest => str "DevTest"
  | Build => str "Build"
  end.

Definition is_type (t : EnvironmentType) (e : D365Environment) : bool :=
  jstring_eqb (type_name (type e)) (type_name t).

Definition is_decommissioned (e : D365Environment) : bool :=
  match status e with Decommissioned => true | _ => false end.

End D365Environment.

Module Store.

Import Customer D365Environment.

(** [m.get(k)], [m.set(k, v)], [m.values()], [m.size] *)
Definition Map_get {A : Type} (m : list (jstring * A)) (k : jstring)
  : option A := assoc m k.

Fixpoint Map_set {A : Type} (m : list (jstring * A)) (k : jstring) (v : A)
  : list (jstring * A) :=
  match m with
  | [] => [(k, v)]
  | (k', v') :: m' =>
      if jstring_eqb k' k then (k', v) :: m' else (k', v') :: Map_set m' k v
  end.

Definition Map_values {A : Type} (m : list (jstring * A)) : list A := map snd m.

Definition Map_size {A : Type} (m : list (jstring * A)) : Z :=
  Z.of_nat (length m).

Record FastTrackStore : Type := mkStore {
  customers : list (jstring * Customer);
  environments : list (jstring * D365Environment)
}.

(** The sample customers and environments of [seedData]. *)
Definition sampleCustomers : list Customer :=
  [ mkCustomer (str "cust-001") (str "Contoso Manufacturing")
      (str "Manufacturing") (str "North America") FastTrack Customer.Active
      (map str ["Finance"; "Supply Chain Management";
                "Production Control"]%string)
      (Some (str "2026-06-15")) (Some (str "Ragnar Pitla")) None
      (str "2025-11-01T00:00:00Z") (str "2026-02-01T00:00:00Z");
    mkCustomer (str "cust-002") (str "Northwind Traders")
      (str "Retail") (str "Europe") FastTrack Onboarding
      (map str ["Finance"; "Commerce"; "Warehouse Management"]%string)
      (Some (str "2026-09-01")) (Some (str "Ragnar Pitla")) None
      (str "2026-01-15T00:00:00Z") (str "2026-02-05T00:00:00Z");
    mkCustomer (str "cust-003") (str "Adventure Works")
      (str "Distribution") (str "Asia Pacific") Unified GoLive
      (map str ["Finance"; "Supply Chain Management";
                "Transportation Management"]%string)
      (Some (str "2026-03-01")) None None
      (str "2025-06-01T00:00:00Z") (str "2026-02-08T00:00:00Z") ].

Definition sampleEnvironments : list D365Environment :=
  [ mkEnvironment (str "env-001") (str "cust-001") (str "Contoso-Sandbox-T1")
      Sandbox (str "East US") (str "10.0.40") None None D365Environment.Active;
    mkEnvironment (str "env-002") (str "cust-001") (str "Contoso-UAT")
      UAT (str "East US") (str "10.0.40") None None D365Environment.Active;
    mkEnvironment (str "env-003") (str "cust-001") (str "Contoso-Prod")
      Production (str "East US") (str "10.0.39") None None
      D365Environment.Active ].

Definition seedData : FastTrackStore :=
  mkStore
    (fold_left (fun m c => Map_set m (Customer.id c) c) sampleCustomers [])
    (fold_left (fun m e => Map_set m (D365Environment.id e) e)
               sampleEnvironments []).

(** [s.padStart(3, "0")] *)
Definition padStart3 (s : jstring) : jstring :=
  repeat "0"%char (3 - length s) ++ s.

(** [`${prefix}-${String(n).padStart(3, "0")}`] *)
Definition numbered (prefix : jstring) (n : Z) : jstring :=
  prefix ++ str "-" ++ padStart3 (String_of_Z n).

(** The [add_environment] tool: the store it leaves and the text it
    answers. *)
Definition add_environment (store : FastTrackStore)
    (customerId name : jstring) (type : EnvironmentType)
    (region version : jstring) (lcsProjectId url : option jstring)
  : FastTrackStore * jstring :=
  match Map_get (customers store) customerId with
  | None => (store, str "Customer not found: " ++ customerId)
  | Some customer =>
      let id := numbered (str "env") (Map_size (environments store) + 1) in
      let environment :=
        mkEnvironment id customerId name type region version lcsProjectId url
                      D365Environment.Active in
      (mkStore (customers store) (Map_set (environments store) id environment),
       str "Environment added for " ++ Customer.name customer ++ str "."
       ++ [nl; nl] ++ str "**ID:** " ++ id
       ++ [nl] ++ str "**Name:** " ++ name
       ++ [nl] ++ str "**Type:** " ++ type_name type
       ++ [nl] ++ str "**Version:** v" ++ version
       ++ [nl] ++ str "**Region:** " ++ region)
  end.

(** The ids of a map are [prefix-001], [prefix-002], ... in this order. *)
Definition sequential {A : Type} (prefix : jstring) (m : list (jstring * A))
  : Prop :=
  map fst m
  = map (fun i => numbered prefix (Z.of_nat i)) (seq 1 (length m)).

End Store.

(** ** Environment readiness (the [validate_environment_readiness]
    tool) *)

Module ValidateEnvironment.

Import Customer D365Environment Store.

(** The running state of the checks: [findings] and [score]. *)
Record Checks : Type := mkChecks {
  findings : list jstring;
  score : Z
}.

(** [findings.push(text); score -= penalty;] *)
Definition finding (text : jstring) (penalty : Z) (c : Checks) : Checks :=
  mkChecks (findings c ++ [text]) (score c - penalty).

Definition hasType (t : EnvironmentType) (environments : list D365Environment)
  : bool := existsb (is_type t) environments.

(** [new Set(environments.map((e) => e.version))] *)
Definition versions (environments : list D365Environment) : list jstring :=
  OutputFormatter.distinct [] (map version environments).

(** The checks, in the order of the source. *)
Definition assess (environments : list D365Environment) : Checks :=
  let c0 := mkChecks [] 100 in
  let hasProd := hasType Production environments in
  let c1 :=
    if negb hasProd
    then finding (str "CRITICAL: No Production environment configured.") 30 c0
    else c0 in
  let hasUAT := hasType UAT environments in
  let c2 :=
    if negb hasUAT
    then finding
           (str "HIGH: No UAT environment configured. UAT is required before go-live.")
           20 c1
    else c1 in
  let hasSandbox := hasType Sandbox environments in
  let c3 :=
    if negb hasSandbox
    then finding
           (str "MEDIUM: No Sandbox environment configured for development/testing.")
           10 c2
    else c2 in
  let c4 :=
    if (1 <? length (versions environments))%nat
    then finding
           (str "WARNING: Version mismatch across environments: "
            ++ join (str ", ") (versions environments)
            ++ str ". Ensure all environments are on the same version before go-live.")
           15 c3
    else c3 in
  let c5 :=
    if hasProd && hasUAT then
      match List.find (is_type Production) environments,
            List.find (is_type UAT) environments with
      | Some prodEnv, Some uatEnv =>
          if negb (jstring_eqb (version prodEnv) (version uatEnv))
          then finding
                 (str "WARNING: Production (v" ++ version prodEnv
                  ++ str ") and UAT (v" ++ version uatEnv
                  ++ str ") are on different versions.")
                 10 c4
          else c4
      | _, _ => c4
      end
    else c4 in
  let decommissioned := List.filter is_decommissioned environments in
  let c6 :=
    match decommissioned with
    | [] => c5
    | _ :: _ =>
        finding
          (str "INFO: " ++ String_of_Z (Z.of_nat (length decommissioned))
           ++ str " decommissioned environment(s) found. Consider cleaning up LCS resources.")
          0 c5
    end in
  match findings c6 with
  | [] => finding (str "All environment checks passed.") 0 c6
  | _ :: _ => c6
  end.

Definition scoreLabel (score : Z) : jstring :=
  if 90 <=? score then str "Excellent"
  else if 70 <=? score then str "Good"
  else if 50 <=? score then str "Needs Attention"
  else str "Critical Issues".

(** What the report interpolates. (Its heading holds a dash outside the
    modelled alphabet, so the text itself is not built.) *)
Record Report : Type := mkReport {
  customerName : jstring;
  shownScore : Z;                 (* [Math.max(0, score)] *)
  label : jstring;
  environmentCount : Z;
  listed : list jstring           (* the findings *)
}.

Inductive Output : Type :=
| NotFound (text : jstring)
| Readiness (report : Report).

Definition validate_environment_readiness (store : FastTrackStore)
    (customerId : jstring) : Output :=
  match Map_get (customers store) customerId with
  | None => NotFound (str "Customer not found: " ++ customerId)
  | Some customer =>
      let environments :=
        List.filter (fun e => jstring_eqb (D365Environment.customerId e) customerId)
                    (Map_values (Store.environments store)) in
      let c := assess environments in
      Readiness
        (mkReport (Customer.name customer) (Z.max 0 (score c))
                  (scoreLabel (score c))
                  (Z.of_nat (length environments)) (findings c))
  end.

End ValidateEnvironment.

(** ** The text of a CSV cell

    [typeof val === "object" ? JSON.stringify(val) : String(val)], the text
    that [renderCsv] quotes when it holds a comma, a quote or a newline. *)
Definition cell_text (val : value) : jstring :=
  match val with
  | VArr _ | VObj _ => JSON_stringify val
  | _ => String_of val
  end.

(** ** E-mail extraction (the [extract_email] tool) *)

Module ExtractEmail.

Import OutputFormatter.

Record EmailAddress : Type := mkEmailAddress {
  name : jstring;
  address : jstring
}.

Record Body : Type := mkBody {
  contentType : jstring;
  content : jstring
}.

Record GraphMessage : Type := mkMessage {
  id : jstring;
  subject : jstring;
  from : option EmailAddress;          (* [from?.emailAddress] *)
  receivedDateTime : jstring;
  bodyPreview : jstring;
  body : option Body;
  hasAttachments : bool;
  importance : jstring;
  toRecipients : option (list EmailAddress)
}.

(** [Math.min(maxResults || 10, 50)] *)
Definition top (maxResults : option number) : number :=
  Math_min (or_default maxResults (of_Z 10)) (of_Z 50).

(** [let bodyText = msg.bodyPreview || ""; if (msg.body?.content) ...] *)
Definition bodyText (msg : GraphMessage) : jstring :=
  match body msg with
  | Some b =>
      match content b with
      | [] => bodyPreview msg
      | _ :: _ =>
          if jstring_eqb (contentType b) (str "html")
          then HtmlToText.htmlToText (content b)
          else content b
      end
  | None => bodyPreview msg
  end.

(** The record built for one message. *)
Definition toRecord (msg : GraphMessage) : record :=
  [ (str "id", VStr (id msg));
    (str "subject", VStr (subject msg));
    (str "fromName",
      VStr (match from msg with Some a => name a | None => [] end));
    (str "fromEmail",
      VStr (match from msg with Some a => address a | None => [] end));
    (str "receivedDateTime", VStr (receivedDateTime msg));
    (str "body", VStr (substring0 5000 (bodyText msg)));
    (str "hasAttachments", VBool (hasAttachments msg));
    (str "importance", VStr (importance msg));
    (str "toRecipients",
      match toRecipients msg with
      | Some rs => VStr (join (str ", ") (map address rs))
      | None => VUndefined
      end) ].

(** The result envelope for the messages of the answer; [more] tells
    whether the answer carried a continuation link. *)
Definition envelope (messages : list GraphMessage) (more : bool)
    (now : jstring) : ExtractionResult :=
  let records := map (fun msg => ObjectRecord (toRecord msg)) messages in
  let warnings :=
    if more
    then [str "More emails available. Showing first "
          ++ String_of_Z (Z.of_nat (length records)) ++ str " results."]
    else [] in
  mkResult
    (mkMetadata SrcEmail now (Fmt Json) (Z.of_nat (length records))
       (match warnings with [] => None | _ :: _ => Some warnings end)
       None)
    records.

End ExtractEmail.

(** ** The enumeration order of an object

    [own_order lower ks]: the keys [ks] are in the order in which an object
    enumerates its own keys, the array indices first, strictly ascending
    and above [lower], then the other keys. *)
Definition not_index (k : jstring) : bool :=
  match array_index k with None => true | Some _ => false end.

Fixpoint own_order (lower : Z) (ks : list jstring) : bool :=
  match ks with
  | [] => true
  | k :: ks' =>
      match array_index k with
      | Some n => (lower <? n) && own_order n ks'
      | None => forallb not_index ks'
      end
  end.

(** * Properties *)

(** ** Values *)

Lemma value_induction (P : value -> Prop) :
  P VUndefined -> P VNull -> (forall b, P (VBool b)) -> (forall n, P (VNum n)) ->
  (forall s, P (VStr s)) ->
  (forall items, Forall P items -> P (VArr items)) ->
  (forall fields, Forall (fun kv => P (snd kv)) fields -> P (VObj fields)) ->
  forall v, P v.
Proof.
  intros HU HN HB HZ HS HA HO.
  fix IH 1. intros [ | | b | n | s | items | fields].
  - exact HU.
  - exact HN.
  - apply HB.
  - apply HZ.
  - apply HS.
  - apply HA. induction items as [ | x items IHitems]; constructor.
    + apply IH.
    + exact IHitems.
  - apply HO. induction fields as [ | kv fields IHfields]; constructor.
    + apply IH.
    + exact IHfields.
Qed.

Lemma jstring_eqb_eq (s t : jstring) : jstring_eqb s t = true <-> s = t.
Proof.
  revert t. induction s as [ | a s IH]; intros [ | b t]; simpl; try easy.
  rewrite andb_true_iff, IH. unfold ascii_eqb. rewrite Ascii.eqb_eq.
  split; [intros [-> ->]; reflexivity | intros [= -> ->]; auto].
Qed.

Lemma jstring_eqb_refl (s : jstring) : jstring_eqb s s = true.
Proof. apply jstring_eqb_eq. reflexivity. Qed.

Lemma jstring_eqb_neq (s t : jstring) : jstring_eqb s t = false <-> s <> t.
Proof.
  rewrite <- jstring_eqb_eq. destruct (jstring_eqb s t); split; congruence.
Qed.

(** ** Output formatter *)

Section OutputFormatterProperties.
Import OutputFormatter.

Lemma fold_left_ext_in {A B : Type} (f g : A -> B -> A) (l : list B) :
  Forall (fun x => forall a, f a x = g a x) l ->
  forall a, fold_left f l a = fold_left g l a.
Proof.
  induction 1 as [ | x l Hx _ IH]; intros a; simpl; [reflexivity | ].
  rewrite Hx. apply IH.
Qed.

Lemma fold_max_ge {B : Type} (h : B -> Z) (l : list B) (b : Z) :
  b <= fold_left (fun m x => Z.max m (h x)) l b.
Proof.
  revert b. induction l as [ | x l IH]; intros b; simpl; [lia | ].
  specialize (IH (Z.max b (h x))). lia.
Qed.

Lemma fold_max_shift {B : Type} (h : B -> Z) (d : Z) (l : list B) :
  forall acc b,
    fold_left (fun m x => Z.max m (d + 1 + h x)) l (Z.max acc (d + 1 + b))
    = Z.max acc (d + 1 + fold_left (fun m x => Z.max m (h x)) l b).
Proof.
  induction l as [ | x l IH]; intros acc b; simpl; [reflexivity | ].
  rewrite <- IH. f_equal. lia.
Qed.

Lemma nesting_depth_nonneg (v : value) : 0 <= nesting_depth v.
Proof.
  destruct v as [ | | | | | | [ | kv fields]]; try (simpl; lia).
  change (nesting_depth (VObj (kv :: fields)))
    with (1 + fold_left (fun m x => Z.max m (nesting_depth (snd x)))
                        (kv :: fields) 0).
  pose proof (fold_max_ge (fun x => nesting_depth (snd x)) (kv :: fields) 0).
  cbv beta in *. lia.
Qed.

(** The code's depth is the starting depth plus the specification's depth
    of the value. *)
Lemma getMaxDepth_nesting (v : value) :
  forall d, getMaxDepth v d = d + nesting_depth v.
Proof.
  induction v as [ | | b | n | s | items _ | fields IH] using value_induction;
    intros d; try (simpl; lia).
  destruct fields as [ | kv fields]; [simpl; lia | ].
  change (getMaxDepth (VObj (kv :: fields)) d)
    with (fold_left (fun m x => Z.max m (getMaxDepth (snd x) (d + 1)))
                    (kv :: fields) d).
  rewrite (fold_left_ext_in _ (fun m x => Z.max m (d + 1 + nesting_depth (snd x)))).
  2:{ eapply Forall_impl; [exact IH | ]. intros x Hx a. simpl in Hx.
      rewrite Hx. reflexivity. }
  change (nesting_depth (VObj (kv :: fields)))
    with (1 + fold_left (fun m x => Z.max m (nesting_depth (snd x)))
                        (kv :: fields) 0).
  simpl fold_left.
  rewrite (fold_max_shift (fun x => nesting_depth (snd x))).
  pose proof (nesting_depth_nonneg (snd kv)).
  pose proof (fold_max_ge (fun x => nesting_depth (snd x)) fields
                (nesting_depth (snd kv))).
  replace (Z.max 0 (nesting_depth (snd kv))) with (nesting_depth (snd kv)) by lia.
  cbv beta in *. lia.
Qed.

Lemma max_values_depth_fold (r : record) :
  max_values_depth r
  = fold_left (fun m kv => Z.max m (nesting_depth (snd kv))) r 0.
Proof.
  unfold max_values_depth, Object_values.
  generalize 0. induction r as [ | kv r IH]; intros z; simpl; [reflexivity | ].
  apply IH.
Qed.

Lemma max_values_depth_nonneg (r : record) : 0 <= max_values_depth r.
Proof.
  rewrite max_values_depth_fold.
  apply (fold_max_ge (fun kv => nesting_depth (snd kv))).
Qed.

(** For a record, the code's depth counts the record itself as one level. *)
Lemma getMaxDepth_record (r : record) :
  getMaxDepth (VObj r) 0
  = match r with [] => 0 | _ :: _ => 1 + max_values_depth r end.
Proof.
  rewrite getMaxDepth_nesting, max_values_depth_fold.
  destruct r; reflexivity.
Qed.

Lemma resolveFormat_heuristic (result : ExtractionResult)
    (targetTool : option jstring) :
  no_format_hint targetTool ->
  resolveFormat result None targetTool
  = Fmt (detectFormatFromData (records result)).
Proof.
  unfold resolveFormat, no_format_hint.
  destruct targetTool as [[ | a t] | ]; [reflexivity | | reflexivity].
  intros ->. reflexivity.
Qed.

Lemma forallb_Forall {A : Type} (f : A -> bool) (l : list A) :
  forallb f l = true <-> Forall (fun x => f x = true) l.
Proof.
  induction l as [ | x l IH]; simpl.
  - split; [constructor | reflexivity].
  - rewrite andb_true_iff, IH. split.
    + intros [? ?]. constructor; assumption.
    + intros H. inversion H; subst. split; assumption.
Qed.

Lemma existsb_Exists {A : Type} (f : A -> bool) (l : list A) :
  existsb f l = true <-> Exists (fun x => f x = true) l.
Proof.
  induction l as [ | x l IH]; simpl.
  - split; [discriminate | intros H; inversion H].
  - rewrite orb_true_iff, IH. split.
    + intros [? | ?]; [left | right]; assumption.
    + intros H. inversion H; subst; [left | right]; assumption.
Qed.

Lemma Exists_equiv {A : Type} (P Q : A -> Prop) (l : list A) :
  (forall x, P x <-> Q x) -> Exists P l <-> Exists Q l.
Proof.
  intros H. split; induction 1; ((left; apply H; assumption) || (right; assumption)).
Qed.

Lemma flat_value_spec (v : value) : flat_value v = negb (is_plain_object v).
Proof. destruct v; reflexivity. Qed.

Lemma long_text_spec (v : value) :
  long_text v = true <->
  exists s, v = VStr s /\ 200 < Z.of_nat (length s).
Proof.
  destruct v; simpl; try (split; [discriminate | intros (? & ? & ?); discriminate]).
  rewrite Z.ltb_lt. split.
  - intros H. eexists. split; [reflexivity | exact H].
  - intros (s' & [= <-] & H). exact H.
Qed.

Lemma all_flat_reflect (rs : list DataRecord) :
  forallb (fun r => forallb flat_value (Object_values (entries r))) rs = true
  <-> all_flat rs.
Proof.
  unfold all_flat. rewrite forallb_Forall.
  apply Forall_iff. intros r. rewrite forallb_Forall.
  apply Forall_iff. intros v. rewrite flat_value_spec.
  destruct (is_plain_object v); simpl; split; congruence.
Qed.

Lemma some_long_text_reflect (rs : list DataRecord) :
  existsb (fun r => existsb long_text (Object_values (entries r))) rs = true
  <-> some_long_text rs.
Proof.
  unfold some_long_text. rewrite existsb_Exists.
  apply Exists_equiv. intros r. rewrite existsb_Exists.
  apply Exists_equiv. intros v. apply long_text_spec.
Qed.

(** C1 (amended). For a result with exactly one record that is a plain
    object, no explicit format and no tool name that the lookup in the
    preferred-format table finds (as an entry or as a name inherited from
    [Object.prototype]): resolution yields key-value when the largest
    nesting depth among the record's values is at most 1 and json when it
    is greater than 1; the record {a:1,b:{c:2}} resolves to key-value. *)
Theorem C1_single_record_resolution
    (result : ExtractionResult) (r : record) (targetTool : option jstring) :
  records result = [ObjectRecord r] ->
  no_format_hint targetTool ->
  (max_values_depth r <= 1 ->
   resolveFormat result None targetTool = Fmt KeyValue)
  /\ (1 < max_values_depth r ->
      resolveFormat result None targetTool = Fmt Json)
  /\ (r = [(str "a", VNum 1); (str "b", VObj [(str "c", VNum 2)])] ->
      resolveFormat result None targetTool = Fmt KeyValue).
Proof.
  intros Hr Hhint. rewrite (resolveFormat_heuristic _ _ Hhint), Hr.
  unfold detectFormatFromData. cbn [record_value].
  rewrite getMaxDepth_record.
  pose proof (max_values_depth_nonneg r) as Hnn.
  repeat split.
  - intros Hle. destruct r as [ | kv r']; [reflexivity | ].
    destruct (Z.ltb_spec 2 (1 + max_values_depth (kv :: r')));
      [exfalso; lia | reflexivity].
  - intros Hlt. destruct r as [ | kv r']; [vm_compute in Hlt; discriminate | ].
    destruct (Z.ltb_spec 2 (1 + max_values_depth (kv :: r')));
      [reflexivity | exfalso; lia].
  - intros ->. reflexivity.
Qed.

Lemma C1_single_record_resolution_witness :
  let r := [(str "a", VObj [(str "b", VNum 1)])] in
  let result :=
    mkResult (mkMetadata SrcJson (str "2026-01-01T00:00:00.000Z") (Fmt Json) 1
                         None None) [ObjectRecord r] in
  resolveFormat result None (Some (str "my_tool")) = Fmt KeyValue.
Proof.
  intros r result.
  destruct (C1_single_record_resolution result r (Some (str "my_tool"))
              eq_refl eq_refl) as (H & _ & _).
  apply H. vm_compute. intros E. discriminate E.
Defined.

(** C1 as stated fails. (1) The values of {a:{b:{c:1}}} nest to depth 2,
    which is "at most 2", yet the record resolves to json. (2) The record
    [[{b:{c:{d:1}}}]], an array, holds a value that nests to depth 3, yet
    it resolves to key-value. (3) The tool name toString is not in the
    preferred-format table, the record {a:1} has depth 0, yet what the
    resolution hands back is none of the formats. *)
Lemma C1_counterexample :
  let meta :=
    mkMetadata SrcJson (str "2026-01-01T00:00:00.000Z") (Fmt Json) 1
               None None in
  let r := [(str "a", VObj [(str "b", VObj [(str "c", VNum 1)])])] in
  let items :=
    [VObj [(str "b", VObj [(str "c", VObj [(str "d", VNum 1)])])]] in
  let flat := [(str "a", VNum 1)] in
  (records (mkResult meta [ObjectRecord r]) = [ObjectRecord r]
   /\ no_format_hint None
   /\ max_values_depth r = 2
   /\ resolveFormat (mkResult meta [ObjectRecord r]) None None = Fmt Json
   /\ resolveFormat (mkResult meta [ObjectRecord r]) None None
      <> Fmt KeyValue)
  /\ (max_values_depth (entries (ArrayRecord items)) = 3
      /\ resolveFormat (mkResult meta [ArrayRecord items]) None None
         = Fmt KeyValue
      /\ resolveFormat (mkResult meta [ArrayRecord items]) None None
         <> Fmt Json)
  /\ (assoc TARGET_TOOL_FORMAT_MAP (str "toString") = None
      /\ max_values_depth flat = 0
      /\ resolveFormat (mkResult meta [ObjectRecord flat]) None
                       (Some (str "toString"))
         <> Fmt KeyValue).
Proof. vm_compute. repeat split; discriminate. Qed.

(** The resolution for more than one record, with no explicit format and
    no tool name that the lookup in the preferred-format table finds (as an
    entry or as a name inherited from [Object.prototype]): when every value
    of every record is a scalar, null or an array and there are more than 3
    records, resolution yields csv; otherwise, when some record has a
    string value longer than 200 characters, it yields markdown; otherwise
    json. *)
Lemma multi_record_resolution
    (result : ExtractionResult) (targetTool : option jstring) :
  no_format_hint targetTool ->
  (1 < length (records result))%nat ->
  let rs := records result in
  (all_flat rs /\ (3 < length rs)%nat ->
   resolveFormat result None targetTool = Fmt Csv)
  /\ (~ (all_flat rs /\ (3 < length rs)%nat) -> some_long_text rs ->
      resolveFormat result None targetTool = Fmt Markdown)
  /\ (~ (all_flat rs /\ (3 < length rs)%nat) -> ~ some_long_text rs ->
      resolveFormat result None targetTool = Fmt Json).
Proof.
  intros Hhint Hlen rs. rewrite (resolveFormat_heuristic _ _ Hhint).
  fold rs. fold rs in Hlen.
  destruct rs as [ | r1 [ | r2 rs']] eqn:Ers; simpl in Hlen; try lia.
  rewrite <- Ers. clear Hlen.
  assert (Hdet : detectFormatFromData rs =
    if forallb (fun r => forallb flat_value (Object_values (entries r))) rs
       && (3 <? Z.of_nat (length rs))
    then Csv
    else if existsb (fun r => existsb long_text (Object_values (entries r)))
                    rs
         then Markdown else Json) by (rewrite Ers; reflexivity).
  rewrite Hdet. clear Hdet.
  pose proof (all_flat_reflect rs) as Hflat.
  pose proof (some_long_text_reflect rs) as Hlong.
  assert (Hcount : (3 <? Z.of_nat (length rs)) = true <-> (3 < length rs)%nat)
    by (rewrite Z.ltb_lt; lia).
  destruct (forallb _ rs && (3 <? Z.of_nat (length rs))) eqn:Ecsv.
  - apply andb_true_iff in Ecsv as [Ef Ec].
    repeat split; try reflexivity.
    + intros Hn. exfalso. apply Hn. split; [apply Hflat, Ef | apply Hcount, Ec].
    + intros Hn. exfalso. apply Hn. split; [apply Hflat, Ef | apply Hcount, Ec].
  - assert (Hnot : ~ (all_flat rs /\ (3 < length rs)%nat)).
    { intros [Hf Hc]. apply Hflat in Hf. apply Hcount in Hc.
      rewrite Hf, Hc in Ecsv. discriminate. }
    repeat split.
    + intros H. contradiction.
    + intros _ Hl. apply Hlong in Hl. rewrite Hl. reflexivity.
    + intros _ Hl. destruct (existsb _ rs) eqn:Ee; [ | reflexivity].
      exfalso. apply Hl, Hlong. reflexivity.
Qed.

(** C2 at a failing input. The tool name toString is not in the
    preferred-format table and the four records {id:7} are flat, so the
    claim expects csv. The lookup finds the function that every object
    inherits under that name and the resolution hands it back: none of the
    formats. The call of [format] then ends in a TypeError, because the
    field table answers the same name with the same function, which cannot
    be iterated. *)
Lemma C2_inherited_tool_name :
  let r := ObjectRecord [(str "id", VNum 7)] in
  let result :=
    mkResult (mkMetadata SrcJson (str "2026-01-01T00:00:00.000Z") (Fmt Json) 4
                         None None) [r; r; r; r] in
  assoc TARGET_TOOL_FORMAT_MAP (str "toString") = None
  /\ (1 < length (records result))%nat
  /\ all_flat (records result)
  /\ (3 < length (records result))%nat
  /\ resolveFormat result None None = Fmt Csv
  /\ resolveFormat result None (Some (str "toString")) = NotAFormat
  /\ resolveFormat result None (Some (str "toString")) <> Fmt Csv
  /\ format result None (Some (str "toString")) = Throws.
Proof.
  intros r result.
  split; [reflexivity | ]. split; [simpl; lia | ].
  split; [repeat constructor | ]. split; [simpl; lia | ].
  split; [reflexivity | ]. split; [reflexivity | ].
  split; [discriminate | reflexivity].
Qed.

(** C4. A result without records resolves to json when neither a format
    nor a tool is given, and its csv rendering is one comment line followed
    by the line "(no data)": no header row. *)
Theorem C4_zero_records (result : ExtractionResult) :
  records result = [] ->
  let comment :=
    str "# source: " ++ source_name (source (metadata result))
    ++ str " | records: 0" in
  resolveFormat result None None = Fmt Json
  /\ renderCsv result = comment ++ [nl] ++ str "(no data)"
  /\ split nl (renderCsv result) = [comment; str "(no data)"]
  /\ startsWith comment (str "#") = true.
Proof.
  intros Hr comment. subst comment. unfold resolveFormat, renderCsv.
  rewrite Hr. destruct (source (metadata result)); vm_compute; auto.
Qed.

Lemma C4_zero_records_witness :
  let result :=
    mkResult (mkMetadata SrcDataverse (str "2026-01-01T00:00:00.000Z")
                         (Fmt Json) 0 None None) [] in
  resolveFormat result None None = Fmt Json
  /\ renderCsv result = str "# source: dataverse | records: 0" ++ [nl]
                        ++ str "(no data)".
Proof.
  intros result.
  destruct (C4_zero_records result eq_refl) as (H1 & H2 & _).
  split; [exact H1 | exact H2].
Defined.

Lemma flat_values_depth (vs : list value) :
  Forall (fun v => is_plain_object v = false) vs ->
  fold_left (fun m v => Z.max m (nesting_depth v)) vs 0 = 0.
Proof.
  intros Hvs. induction Hvs as [ | v vs Hv _ IH]; [reflexivity | ].
  simpl. destruct v; try discriminate; exact IH.
Qed.

(** The depth computation treats an array as a leaf, whatever it holds;
    so, with no explicit format and no tool name that the lookup in the
    preferred-format table finds (as an entry or as a name inherited from
    [Object.prototype]), a single record whose values are all scalars, null
    or arrays has computed depth at most 1 and resolves to key-value, for
    instance {a:[{b:{c:{d:1}}}]}. *)
Lemma arrays_are_leaves
    (result : ExtractionResult) (r : DataRecord)
    (targetTool : option jstring) :
  records result = [r] ->
  no_format_hint targetTool ->
  (forall items depth, getMaxDepth (VArr items) depth = depth)
  /\ (Forall (fun v => is_plain_object v = false)
             (Object_values (entries r)) ->
      getMaxDepth (record_value r) 0 <= 1
      /\ resolveFormat result None targetTool = Fmt KeyValue)
  /\ (r = ObjectRecord
            [(str "a",
              VArr [VObj [(str "b",
                           VObj [(str "c", VObj [(str "d", VNum 1)])])]])] ->
      getMaxDepth (record_value r) 0 = 1
      /\ resolveFormat result None targetTool = Fmt KeyValue).
Proof.
  intros Hr Hhint. rewrite (resolveFormat_heuristic _ _ Hhint), Hr.
  split; [reflexivity | ]. split.
  - intros Hflat.
    assert (Hd : getMaxDepth (record_value r) 0 <= 1).
    { destruct r as [fields | items]; [ | simpl; lia].
      cbn [record_value entries] in *.
      rewrite getMaxDepth_record. destruct fields as [ | kv r']; [lia | ].
      enough (max_values_depth (kv :: r') = 0) by lia.
      apply flat_values_depth, Hflat. }
    split; [exact Hd | ].
    unfold detectFormatFromData.
    destruct (Z.ltb_spec 2 (getMaxDepth (record_value r) 0));
      [exfalso; lia | reflexivity].
  - intros ->. split; reflexivity.
Qed.

(** C10 at a failing input. The tool name constructor is not in the
    preferred-format table and every nested object of {a:[{b:{c:{d:1}}}]}
    lies inside an array: the computed depth is 1 and without the tool name
    the record resolves to key-value, as the claim says. With the tool name
    the lookup finds the function that every object inherits under that
    name and the resolution hands it back: none of the formats. The call of
    [format] then ends in a TypeError. *)
Lemma C10_inherited_tool_name :
  let r := ObjectRecord
             [(str "a",
               VArr [VObj [(str "b",
                            VObj [(str "c", VObj [(str "d", VNum 1)])])]])] in
  let result :=
    mkResult (mkMetadata SrcJson (str "2026-01-01T00:00:00.000Z") (Fmt Json) 1
                         None None) [r] in
  assoc TARGET_TOOL_FORMAT_MAP (str "constructor") = None
  /\ Forall (fun v => is_plain_object v = false) (Object_values (entries r))
  /\ getMaxDepth (record_value r) 0 = 1
  /\ resolveFormat result None None = Fmt KeyValue
  /\ resolveFormat result None (Some (str "constructor")) = NotAFormat
  /\ resolveFormat result None (Some (str "constructor")) <> Fmt KeyValue
  /\ format result None (Some (str "constructor")) = Throws.
Proof.
  intros r result.
  split; [reflexivity | ]. split; [repeat constructor | ].
  split; [reflexivity | ]. split; [reflexivity | ].
  split; [reflexivity | ]. split; [discriminate | reflexivity].
Qed.

End OutputFormatterProperties.

(** ** Regular expressions and replacement *)

Lemma rx_seq_chr (a : ascii) (r : regex) (c : cfg) :
  rx (Seq (Chr a) r) c
  = match rest c with
    | x :: s' => if ascii_eqb x a then rx r (step c s') else []
    | [] => []
    end.
Proof.
  simpl. destruct (rest c) as [ | x s']; [reflexivity | ].
  destruct (ascii_eqb x a); simpl; [apply app_nil_r | reflexivity].
Qed.

(** Where the pattern matches nowhere, replacing changes nothing. *)
Lemma replace_go_no_match (r : regex) (rep : jstring -> cfg -> jstring) :
  forall s i, exec_from r i s = None -> replace_go r rep i 0 s = s.
Proof.
  induction s as [ | a s IH]; intros i; simpl;
    destruct (match_here r i _); try discriminate; [reflexivity | ].
  intros H. rewrite (IH _ H). reflexivity.
Qed.

Lemma exec_from_cons (r : regex) (i : nat) (a : ascii) (s : jstring) :
  exec_from r i (a :: s)
  = match match_here r i (a :: s) with
    | Some c => Some (i, c)
    | None => exec_from r (S i) s
    end.
Proof. reflexivity. Qed.

Lemma exec_from_nil (r : regex) (i : nat) :
  exec_from r i []
  = match match_here r i [] with
    | Some c => Some (i, c)
    | None => None
    end.
Proof. reflexivity. Qed.

Lemma match_here_first_char (a : ascii) (r : regex) (i : nat) (s : jstring) :
  match s with x :: _ => ascii_eqb x a = false | [] => True end ->
  match_here (Seq (Chr a) r) i s = None.
Proof.
  unfold match_here. rewrite rx_seq_chr. simpl.
  destruct s as [ | x s]; [reflexivity | ]. intros ->. reflexivity.
Qed.

Lemma exec_from_first_char (a : ascii) (r : regex) :
  forall s i, existsb (ascii_eqb a) s = false ->
              exec_from (Seq (Chr a) r) i s = None.
Proof.
  induction s as [ | x s IH]; intros i.
  - intros _. rewrite exec_from_nil, match_here_first_char; [reflexivity | exact I].
  - simpl existsb. rewrite orb_false_iff. intros [Hx Hs].
    rewrite exec_from_cons, match_here_first_char.
    + apply IH, Hs.
    + unfold ascii_eqb in *. rewrite Ascii.eqb_sym. exact Hx.
Qed.

(** ** The matcher on classes, literals and runs *)

Section MatcherFacts.
Local Open Scope nat_scope.

Lemma cfg_eta (c : cfg) : mkCfg (pos c) (rest c) (groups c) = c.
Proof. destruct c; reflexivity. Qed.

Lemma rx_seq_In (r1 r2 : regex) (c c2 : cfg) :
  In c2 (rx (Seq r1 r2) c) <-> exists c1, In c1 (rx r1 c) /\ In c2 (rx r2 c1).
Proof. simpl. apply in_flat_map. Qed.

Lemma rx_cls_In (p : ascii -> bool) (c c' : cfg) :
  In c' (rx (Cls p) c) <->
  exists x, rest c = x :: rest c' /\ p x = true
            /\ pos c' = S (pos c) /\ groups c' = groups c.
Proof.
  simpl. destruct (rest c) as [ | x s'] eqn:E.
  - split; [intros [] | intros (x & [=] & _)].
  - destruct (p x) eqn:Ep; simpl.
    + split.
      * intros [<- | []]. exists x. simpl. auto.
      * intros (y & [= <- ->] & _ & Hpos & Hg). left.
        destruct c'; simpl in *. unfold step. congruence.
    + split; [intros [] | ].
      intros (y & [= <- ->] & Hy & _). congruence.
Qed.

Lemma rx_chr_In (a : ascii) (c c' : cfg) :
  In c' (rx (Chr a) c) <->
  rest c = a :: rest c' /\ pos c' = S (pos c) /\ groups c' = groups c.
Proof.
  change (rx (Chr a) c) with (rx (Cls (fun x => ascii_eqb x a)) c).
  rewrite rx_cls_In. split.
  - intros (x & Hr & Hx & H). apply Ascii.eqb_eq in Hx. subst x. auto.
  - intros (Hr & H). exists a. split; [exact Hr | ].
    split; [apply Ascii.eqb_refl | exact H].
Qed.

Lemma star_unfold (m : cfg -> list cfg) (fuel : nat) (c : cfg) :
  star m (S fuel) c
  = flat_map (fun c' => if length (rest c') <? length (rest c)
                        then star m fuel c' else []) (m c) ++ [c].
Proof. reflexivity. Qed.

(** A repeated class consumes a run of characters of the class, and any
    such run can be consumed. *)
Lemma star_cls_In_elim (p : ascii -> bool) :
  forall fuel c c',
    In c' (star (rx (Cls p)) fuel c) ->
    exists body,
      rest c = body ++ rest c' /\ forallb p body = true
      /\ pos c' = pos c + length body /\ groups c' = groups c.
Proof.
  induction fuel as [ | fuel IH]; intros c c'.
  - intros [<- | []]. exists []. simpl. auto.
  - rewrite star_unfold, in_app_iff, in_flat_map.
    intros [(c1 & Hc1 & Hin) | [<- | []]]; [ | exists []; simpl; auto].
    apply rx_cls_In in Hc1 as (x & Hrest & Hx & Hpos & Hg).
    destruct (length (rest c1) <? length (rest c)); [ | destruct Hin].
    destruct (IH _ _ Hin) as (body & Hb & Hall & Hpos' & Hg').
    exists (x :: body). simpl. rewrite Hrest, Hb, Hx, Hall.
    repeat split; [lia | congruence].
Qed.

Lemma star_cls_In_intro (p : ascii -> bool) :
  forall body fuel c tail,
    rest c = body ++ tail -> forallb p body = true ->
    length (rest c) <= fuel ->
    In (mkCfg (pos c + length body) tail (groups c))
       (star (rx (Cls p)) fuel c).
Proof.
  induction body as [ | x body IH]; intros fuel c tail Hrest Hall Hfuel.
  - simpl in *. rewrite Nat.add_0_r, <- Hrest, cfg_eta.
    destruct fuel; [left; reflexivity | ].
    rewrite star_unfold, in_app_iff. right. left. reflexivity.
  - simpl in Hall. apply andb_true_iff in Hall as [Hx Hall].
    destruct fuel as [ | fuel]; [rewrite Hrest in Hfuel; simpl in Hfuel; lia | ].
    rewrite star_unfold, in_app_iff. left. apply in_flat_map.
    exists (step c (body ++ tail)). split.
    + apply rx_cls_In. exists x. simpl. auto.
    + simpl. rewrite Hrest. simpl.
      destruct (Nat.ltb_spec (length (body ++ tail)) (S (length (body ++ tail))));
        [ | lia].
      replace (pos c + S (length body)) with (pos (step c (body ++ tail)) + length body)
        by (simpl; lia).
      apply (IH fuel (step c (body ++ tail)) tail); [reflexivity | exact Hall | ].
      simpl. rewrite Hrest in Hfuel. simpl in Hfuel. lia.
Qed.

Lemma rx_star_cls_In (p : ascii -> bool) (c c' : cfg) :
  In c' (rx (Star (Cls p)) c) ->
  exists body,
    rest c = body ++ rest c' /\ forallb p body = true
    /\ pos c' = pos c + length body /\ groups c' = groups c.
Proof. apply star_cls_In_elim. Qed.

Lemma match_here_Some_In (r : regex) (i : nat) (s : jstring) :
  match_here r i s <> None <-> exists c', In c' (rx r (mkCfg i s [])).
Proof.
  unfold match_here. destruct (rx r (mkCfg i s [])) as [ | c' l]; simpl.
  - split; [congruence | intros (c' & [])].
  - split; [intros _; exists c'; left; reflexivity | congruence].
Qed.

(** If wherever [r] matches [r'] matches too, then [r] finds nothing in a
    text in which [r'] finds nothing. *)
Lemma exec_from_sub (r r' : regex) :
  (forall i s, match_here r i s <> None -> match_here r' i s <> None) ->
  forall s i, exec_from r' i s = None -> exec_from r i s = None.
Proof.
  intros Hsub. induction s as [ | a s IH]; intros i.
  - rewrite !exec_from_nil.
    destruct (match_here r' i []) eqn:E'; [discriminate | ].
    destruct (match_here r i []) eqn:E; [ | reflexivity].
    exfalso. apply (Hsub i []); congruence.
  - rewrite !exec_from_cons.
    destruct (match_here r' i (a :: s)) eqn:E'; [discriminate | ].
    destruct (match_here r i (a :: s)) eqn:E; [ | apply IH].
    exfalso. apply (Hsub i (a :: s)); congruence.
Qed.

(** Literals, case-sensitive and not. *)
Lemma rx_lit_In (w : jstring) :
  forall c c', In c' (rx (lit w) c) -> rest c = w ++ rest c'.
Proof.
  induction w as [ | a w IH]; intros c c'.
  - intros [<- | []]. reflexivity.
  - destruct w as [ | b w].
    + intros H. apply rx_chr_In in H as (H & _). exact H.
    + change (lit (a :: b :: w)) with (Seq (Chr a) (lit (b :: w))).
      intros H. apply rx_seq_In in H as (c1 & H1 & H2).
      apply rx_chr_In in H1 as (H1 & _). apply IH in H2.
      rewrite H1, H2. reflexivity.
Qed.

Lemma rx_ci_lit_In (w : jstring) :
  forall c c',
    In c' (rx (ci (lit w)) c) ->
    exists u, rest c = u ++ rest c' /\ map ascii_fold u = map ascii_fold w.
Proof.
  induction w as [ | a w IH]; intros c c'.
  - intros [<- | []]. exists []. auto.
  - destruct w as [ | b w].
    + intros H. apply rx_cls_In in H as (x & H & Hx & _).
      apply Ascii.eqb_eq in Hx. exists [x]. simpl. rewrite Hx. auto.
    + change (ci (lit (a :: b :: w)))
        with (Seq (Cls (fun x => ascii_eqb (ascii_fold x) (ascii_fold a)))
                  (ci (lit (b :: w)))).
      intros H. apply rx_seq_In in H as (c1 & H1 & H2).
      apply rx_cls_In in H1 as (x & H1 & Hx & _). apply Ascii.eqb_eq in Hx.
      apply IH in H2 as (u & H2 & Hu).
      exists (x :: u). simpl. rewrite H1, H2, Hx, Hu. auto.
Qed.

Lemma startsWith_app (w tail : jstring) : startsWith (w ++ tail) w = true.
Proof.
  induction w as [ | a w IH]; [destruct tail; reflexivity | ].
  simpl. unfold ascii_eqb. rewrite Ascii.eqb_refl. exact IH.
Qed.

Lemma exec_from_lit_absent (w : jstring) :
  forall s i, includes s w = false -> exec_from (lit w) i s = None.
Proof.
  assert (Hhere : forall i s, startsWith s w = false ->
                              match_here (lit w) i s = None).
  { intros i s Hs. destruct (match_here (lit w) i s) eqn:E; [ | reflexivity].
    exfalso. assert (Hm : match_here (lit w) i s <> None) by congruence.
    apply match_here_Some_In in Hm as (c' & Hc').
    apply rx_lit_In in Hc'. simpl in Hc'. rewrite Hc', startsWith_app in Hs.
    discriminate. }
  induction s as [ | a s IH]; intros i.
  - simpl includes. rewrite orb_false_r. intros Hs.
    rewrite exec_from_nil, Hhere; [reflexivity | exact Hs].
  - simpl includes. rewrite orb_false_iff. intros [Hs Hincl].
    rewrite exec_from_cons, Hhere; [apply IH, Hincl | exact Hs].
Qed.

(** Runs: a repeated class takes the longest run first. *)
Lemma span_drop (p : ascii -> bool) (s : jstring) :
  span p (drop (span p s) s) = 0.
Proof.
  induction s as [ | a s IH]; [reflexivity | ].
  simpl. destruct (p a) eqn:E; simpl; [exact IH | rewrite E; reflexivity].
Qed.

Lemma span_le_length (p : ascii -> bool) (s : jstring) :
  span p s <= length s.
Proof.
  induction s as [ | a s IH]; simpl; [lia | ]. destruct (p a); simpl; lia.
Qed.

Lemma head_app_nonempty {A : Type} (l l' : list A) (x : A) :
  head l = Some x -> head (l ++ l') = Some x.
Proof. destruct l; [discriminate | auto]. Qed.

Lemma rx_cls_cons (p : ascii -> bool) (i : nat) (x : ascii) (s : jstring)
    (g : list (nat * jstring)) :
  rx (Cls p) (mkCfg i (x :: s) g) = if p x then [mkCfg (S i) s g] else [].
Proof. reflexivity. Qed.

Lemma rx_cls_nil (p : ascii -> bool) (i : nat) (g : list (nat * jstring)) :
  rx (Cls p) (mkCfg i [] g) = [].
Proof. reflexivity. Qed.

Lemma head_star_cls (p : ascii -> bool) :
  forall fuel c,
    length (rest c) <= fuel ->
    head (star (rx (Cls p)) fuel c)
    = Some (mkCfg (pos c + span p (rest c))
                  (drop (span p (rest c)) (rest c)) (groups c)).
Proof.
  induction fuel as [ | fuel IH]; intros c Hfuel.
  - destruct c as [i [ | x s] g]; simpl in *; [ | lia].
    rewrite Nat.add_0_r. reflexivity.
  - rewrite star_unfold.
    destruct c as [i [ | x s] g]; simpl rest; simpl pos; simpl groups;
      simpl span.
    + simpl. rewrite Nat.add_0_r. reflexivity.
    + rewrite rx_cls_cons. destruct (p x); cbn [flat_map].
      * rewrite app_nil_r. cbn [rest].
        replace (length s <? length (x :: s)) with true
          by (symmetry; apply Nat.ltb_lt; simpl; lia).
        apply head_app_nonempty.
        rewrite IH by (simpl in *; lia). simpl.
        f_equal. f_equal. lia.
      * simpl. rewrite Nat.add_0_r. reflexivity.
Qed.

Lemma match_here_plus (p : ascii -> bool) (i : nat) (s : jstring) :
  match_here (Plus (Cls p)) i s
  = if 1 <=? span p s
    then Some (mkCfg (i + span p s) (drop (span p s) s) [])
    else None.
Proof.
  unfold match_here, Plus.
  change (rx (Seq (Cls p) (Star (Cls p))) (mkCfg i s []))
    with (flat_map (fun c => star (rx (Cls p)) (length (rest c)) c)
                   (rx (Cls p) (mkCfg i s []))).
  destruct s as [ | x s]; [reflexivity | ].
  rewrite rx_cls_cons. simpl span. destruct (p x); [ | reflexivity].
  cbn [flat_map]. rewrite app_nil_r, head_star_cls by (simpl; lia).
  simpl. f_equal. f_equal. lia.
Qed.

Lemma match_here_at_least3 (p : ascii -> bool) (i : nat) (s : jstring) :
  match_here (AtLeast3 (Cls p)) i s
  = if 3 <=? span p s
    then Some (mkCfg (i + span p s) (drop (span p s) s) [])
    else None.
Proof.
  unfold match_here, AtLeast3.
  change (rx (Seq (Cls p) (Seq (Cls p) (Seq (Cls p) (Star (Cls p)))))
             (mkCfg i s []))
    with (flat_map
            (fun c1 =>
               flat_map
                 (fun c2 =>
                    flat_map
                      (fun c => star (rx (Cls p)) (length (rest c)) c)
                      (rx (Cls p) c2))
                 (rx (Cls p) c1))
            (rx (Cls p) (mkCfg i s []))).
  destruct s as [ | x1 s]; [reflexivity | ].
  rewrite rx_cls_cons. simpl span. destruct (p x1); [ | reflexivity].
  cbn [flat_map]. rewrite app_nil_r.
  destruct s as [ | x2 s]; [reflexivity | ].
  rewrite rx_cls_cons. simpl span. destruct (p x2); [ | reflexivity].
  cbn [flat_map]. rewrite app_nil_r.
  destruct s as [ | x3 s]; [reflexivity | ].
  rewrite rx_cls_cons. simpl span. destruct (p x3); [ | reflexivity].
  cbn [flat_map]. rewrite app_nil_r, head_star_cls by (simpl; lia).
  simpl. f_equal. f_equal. lia.
Qed.

(** Skipping the rest of a match is the same as resuming after it. *)
Lemma replace_go_skip (r : regex) (rep : jstring -> cfg -> jstring) :
  forall k s i,
    k <= length s ->
    replace_go r rep i k s = replace_go r rep (i + k) 0 (drop k s).
Proof.
  induction k as [ | k IH]; intros s i Hk.
  - rewrite Nat.add_0_r. reflexivity.
  - destruct s as [ | a s]; [simpl in Hk; lia | ].
    simpl in Hk. change (replace_go r rep i (S k) (a :: s))
      with (replace_go r rep (S i) k s).
    rewrite IH by lia. simpl drop. f_equal. lia.
Qed.

Lemma replace_go_nil (r : regex) (rep : jstring -> cfg -> jstring) (i : nat) :
  match_here r i [] = None -> replace_go r rep i 0 [] = [].
Proof. simpl. intros ->. reflexivity. Qed.

Lemma replace_go_cons (r : regex) (rep : jstring -> cfg -> jstring)
    (i : nat) (a : ascii) (s : jstring) :
  replace_go r rep i 0 (a :: s)
  = match match_here r i (a :: s) with
    | Some c =>
        rep (take (pos c - i) (a :: s)) c ++
        match pos c - i with
        | O => a :: replace_go r rep (S i) 0 s
        | S n' => replace_go r rep (S i) n' s
        end
    | None => a :: replace_go r rep (S i) 0 s
    end.
Proof. reflexivity. Qed.

(** Replacing runs: a pattern that matches exactly the runs of at least
    [min] characters of a class. *)
Section RunReplace.
Variables (r : regex) (p : ascii -> bool) (min : nat) (by_ : jstring).
Hypothesis Hmin : 1 <= min.
Hypothesis Hmatch :
  forall i s,
    match_here r i s
    = if min <=? span p s
      then Some (mkCfg (i + span p s) (drop (span p s) s) [])
      else None.

Lemma run_nil (i : nat) : replace_go r (fun _ _ => by_) i 0 [] = [].
Proof.
  apply replace_go_nil. rewrite Hmatch. simpl.
  destruct (Nat.leb_spec min 0); [lia | reflexivity].
Qed.

Lemma run_match (i : nat) (a : ascii) (s : jstring) :
  min <= span p (a :: s) ->
  replace_go r (fun _ _ => by_) i 0 (a :: s)
  = by_ ++ replace_go r (fun _ _ => by_) (i + span p (a :: s)) 0
                      (drop (span p (a :: s)) (a :: s)).
Proof.
  intros Hrun. rewrite replace_go_cons, Hmatch.
  destruct (Nat.leb_spec min (span p (a :: s))); [ | lia].
  cbn [pos]. replace (i + span p (a :: s) - i) with (span p (a :: s)) by lia.
  pose proof (span_le_length p (a :: s)) as Hlen.
  destruct (span p (a :: s)) as [ | n] eqn:En; [lia | ].
  f_equal. rewrite replace_go_skip by (simpl in Hlen; lia).
  simpl drop. f_equal. lia.
Qed.

Lemma run_skip (i : nat) (a : ascii) (s : jstring) :
  span p (a :: s) < min ->
  replace_go r (fun _ _ => by_) i 0 (a :: s)
  = a :: replace_go r (fun _ _ => by_) (S i) 0 s.
Proof.
  intros Hrun. rewrite replace_go_cons, Hmatch.
  destruct (Nat.leb_spec min (span p (a :: s))); [lia | reflexivity].
Qed.

Lemma run_ind (P : jstring -> jstring -> Prop) :
  P [] [] ->
  (forall a s out,
     min <= span p (a :: s) ->
     P (drop (span p (a :: s)) (a :: s)) out -> P (a :: s) (by_ ++ out)) ->
  (forall a s out, span p (a :: s) < min -> P s out -> P (a :: s) (a :: out)) ->
  forall s i, P s (replace_go r (fun _ _ => by_) i 0 s).
Proof.
  intros Hnil Hrun Hskip s.
  remember (length s) as n eqn:Hn. revert s Hn.
  induction n as [n IH] using lt_wf_ind. intros s Hn i.
  destruct s as [ | a s]; [rewrite run_nil; exact Hnil | ].
  destruct (Nat.le_gt_cases min (span p (a :: s))) as [Hge | Hlt].
  - rewrite run_match by exact Hge. apply Hrun; [exact Hge | ].
    eapply IH; [ | reflexivity]. rewrite length_drop. subst n. simpl length. lia.
  - rewrite run_skip by exact Hlt. apply Hskip; [exact Hlt | ].
    eapply IH; [ | reflexivity]. subst n. simpl. lia.
Qed.

End RunReplace.

Lemma rx_group_In (n : nat) (r : regex) (c c' : cfg) :
  In c' (rx (Group n r) c) ->
  exists c1, In c1 (rx r c) /\ rest c' = rest c1 /\ pos c' = pos c1.
Proof.
  simpl. rewrite in_map_iff. intros (c1 & <- & H). exists c1. auto.
Qed.

Lemma rx_group_captures (n : nat) (r : regex) (c c' : cfg) :
  In c' (rx (Group n r) c) ->
  exists c1,
    In c1 (rx r c)
    /\ c' = mkCfg (pos c1) (rest c1)
                  ((n, take (pos c1 - pos c) (rest c)) :: groups c1).
Proof.
  simpl. rewrite in_map_iff. intros (c1 & <- & H). exists c1. auto.
Qed.

Lemma rx_group_intro (n : nat) (r : regex) (c c1 : cfg) :
  In c1 (rx r c) ->
  In (mkCfg (pos c1) (rest c1)
            ((n, take (pos c1 - pos c) (rest c)) :: groups c1))
     (rx (Group n r) c).
Proof.
  intros H. simpl. apply in_map_iff. exists c1. auto.
Qed.

Lemma rx_lit_intro (w : jstring) :
  forall c tail,
    rest c = w ++ tail ->
    In (mkCfg (pos c + length w) tail (groups c)) (rx (lit w) c).
Proof.
  induction w as [ | a w IH]; intros c tail Hrest.
  - simpl in *. rewrite Nat.add_0_r, <- Hrest, cfg_eta. left. reflexivity.
  - destruct w as [ | b w].
    + apply rx_chr_In. simpl. split; [exact Hrest | ]. split; [lia | reflexivity].
    + change (lit (a :: b :: w)) with (Seq (Chr a) (lit (b :: w))).
      apply rx_seq_In. exists (step c ((b :: w) ++ tail)). split.
      * apply rx_chr_In. simpl. auto.
      * replace (pos c + length (a :: b :: w))
          with (pos (step c ((b :: w) ++ tail)) + length (b :: w))
          by (simpl; lia).
        apply (IH (step c ((b :: w) ++ tail)) tail). reflexivity.
Qed.

(** Whatever the pattern, a match consumes a prefix of the input and
    advances the position by its length. *)
Lemma star_consumes (m : cfg -> list cfg) :
  (forall c c', In c' (m c) ->
                exists w, rest c = w ++ rest c' /\ pos c' = pos c + length w) ->
  forall fuel c c',
    In c' (star m fuel c) ->
    exists w, rest c = w ++ rest c' /\ pos c' = pos c + length w.
Proof.
  intros Hm. induction fuel as [ | fuel IH]; intros c c'.
  - intros [<- | []]. exists []. simpl. auto.
  - rewrite star_unfold, in_app_iff, in_flat_map.
    intros [(c1 & Hc1 & Hin) | [<- | []]]; [ | exists []; simpl; auto].
    destruct (length (rest c1) <? length (rest c)); [ | destruct Hin].
    destruct (Hm _ _ Hc1) as (w1 & Hw1 & Hp1).
    destruct (IH _ _ Hin) as (w2 & Hw2 & Hp2).
    exists (w1 ++ w2). rewrite Hw1, Hw2, Hp2, Hp1, length_app, <- app_assoc.
    split; [reflexivity | lia].
Qed.

Lemma rx_consumes (r : regex) :
  forall c c',
    In c' (rx r c) ->
    exists w, rest c = w ++ rest c' /\ pos c' = pos c + length w.
Proof.
  induction r as [ | a | p | r1 IH1 r2 IH2 | r1 IH1 r2 IH2 | r IH | n r IH | | ];
    intros c c'.
  - intros [<- | []]. exists []. simpl. auto.
  - intros H. apply rx_chr_In in H as (Hr & Hp & _).
    exists [a]. simpl. split; [exact Hr | lia].
  - intros H. apply rx_cls_In in H as (x & Hr & _ & Hp & _).
    exists [x]. simpl. split; [exact Hr | lia].
  - intros H. apply rx_seq_In in H as (c1 & H1 & H2).
    destruct (IH1 _ _ H1) as (w1 & Hw1 & Hp1).
    destruct (IH2 _ _ H2) as (w2 & Hw2 & Hp2).
    exists (w1 ++ w2). rewrite Hw1, Hw2, Hp2, Hp1, length_app, <- app_assoc.
    split; [reflexivity | lia].
  - simpl. rewrite in_app_iff. intros [H | H]; [apply IH1, H | apply IH2, H].
  - apply (star_consumes (rx r) IH).
  - intros H. apply rx_group_In in H as (c1 & H1 & Hr & Hp).
    destruct (IH _ _ H1) as (w & Hw & Hpw).
    exists w. rewrite Hr, Hp. auto.
  - simpl. destruct (pos c =? 0); [ | intros []].
    intros [<- | []]. exists []. simpl. auto.
  - simpl. destruct (rest c) eqn:E; [ | intros []].
    intros [<- | []]. exists []. simpl. rewrite E. auto.
Qed.

Lemma match_here_consumes (r : regex) (i : nat) (s : jstring) (c : cfg) :
  match_here r i s = Some c -> i <= pos c /\ pos c - i <= length s.
Proof.
  intros H.
  assert (Hin : In c (rx r (mkCfg i s []))).
  { unfold match_here in H. destruct (rx r (mkCfg i s [])); [discriminate | ].
    injection H as <-. left. reflexivity. }
  apply rx_consumes in Hin as (w & Hw & Hp). simpl in *.
  rewrite Hw, Hp, length_app. lia.
Qed.

(** A replacement that is never longer than the match does not lengthen
    the text. *)
Lemma replace_go_length (r : regex) (rep : jstring -> cfg -> jstring) :
  (forall i s c, match_here r i s = Some c ->
                 length (rep (take (pos c - i) s) c) <= pos c - i) ->
  forall s i, length (replace_go r rep i 0 s) <= length s.
Proof.
  intros Hrep s. remember (length s) as n eqn:Hn. revert s Hn.
  induction n as [n IH] using lt_wf_ind. intros s Hn i.
  destruct s as [ | a s].
  - simpl. destruct (match_here r i []) as [c | ] eqn:E; [ | simpl; lia].
    pose proof (Hrep _ _ _ E) as Hl.
    pose proof (match_here_consumes _ _ _ _ E) as [_ Hc]. simpl in Hc.
    rewrite app_nil_r. simpl in Hn. lia.
  - rewrite replace_go_cons.
    destruct (match_here r i (a :: s)) as [c | ] eqn:E.
    + pose proof (Hrep _ _ _ E) as Hl.
      pose proof (match_here_consumes _ _ _ _ E) as [_ Hc]. simpl in Hc.
      rewrite length_app.
      destruct (pos c - i) as [ | k] eqn:Ek.
      * specialize (IH (length s) ltac:(subst n; simpl; lia) s eq_refl (S i)).
        subst n. simpl in Hl |- *. lia.
      * rewrite replace_go_skip by lia.
        specialize (IH (length (drop k s))
                       ltac:(subst n; rewrite length_drop; simpl; lia)
                       (drop k s) eq_refl (S i + k)).
        rewrite length_drop in IH. subst n. simpl in Hl, IH |- *. lia.
    + simpl length.
      specialize (IH (length s) ltac:(subst n; simpl; lia) s eq_refl (S i)).
      subst n. simpl. lia.
Qed.

(** Searching finds nothing exactly when no suffix is matched. *)
Lemma exec_from_None (r : regex) :
  forall s i,
    exec_from r i s = None <->
    forall n, n <= length s -> match_here r (i + n) (drop n s) = None.
Proof.
  induction s as [ | a s IH]; intros i.
  - rewrite exec_from_nil. split.
    + intros H n Hn. simpl in Hn. assert (n = 0) by lia. subst n.
      rewrite Nat.add_0_r. simpl drop. destruct (match_here r i []); congruence.
    + intros H. specialize (H 0 (Nat.le_refl _)).
      rewrite Nat.add_0_r in H. simpl in H. rewrite H. reflexivity.
  - rewrite exec_from_cons. split.
    + intros H n Hn.
      destruct (match_here r i (a :: s)) eqn:E; [discriminate | ].
      destruct n as [ | n]; [rewrite Nat.add_0_r; exact E | ].
      simpl drop. replace (i + S n) with (S i + n) by lia.
      apply (proj1 (IH (S i)) H). simpl in Hn. lia.
    + intros H. pose proof (H 0 ltac:(lia)) as H0.
      rewrite Nat.add_0_r in H0. simpl drop in H0. rewrite H0.
      apply IH. intros n Hn. specialize (H (S n)). simpl in H.
      replace (S i + n) with (i + S n) by lia. apply H. lia.
Qed.

(** A pattern that matches exactly where the text starts with a word of
    [L], the words of [L] being non-empty and free of the separator: it
    finds nothing in a list of pieces joined by the separator when it finds
    nothing in any piece. *)
Section PrefixPattern.
Variables (r : regex) (L : jstring -> Prop) (sep : ascii).
Hypothesis Hmatch :
  forall i s,
    match_here r i s <> None <-> exists w tail, s = w ++ tail /\ L w.
Hypothesis Hword :
  forall w, L w -> w <> [] /\ existsb (ascii_eqb sep) w = false.

Lemma test_false_suffix (k : jstring) :
  test r k = false ->
  forall n, ~ exists w tail, drop n k = w ++ tail /\ L w.
Proof.
  unfold test. intros Htest n Hshape.
  destruct (exec_from r 0 k) eqn:E; [discriminate | ].
  destruct (Nat.le_gt_cases n (length k)) as [Hn | Hn].
  - pose proof (proj1 (exec_from_None r k 0) E n Hn) as Hnone.
    apply (proj2 (Hmatch (0 + n) (drop n k))) in Hshape. contradiction.
  - rewrite drop_ge in Hshape by lia.
    destruct Hshape as (w & tail & Hnil & Hw).
    apply Hword in Hw as [Hne _]. destruct w; [contradiction | discriminate].
Qed.

Lemma prefix_local (w : jstring) :
  forall tail u rest',
    w ++ tail = u ++ rest' ->
    existsb (ascii_eqb sep) w = false ->
    rest' = [] \/ (exists t, rest' = sep :: t) ->
    exists tail', u = w ++ tail'.
Proof.
  induction w as [ | a w IH]; intros tail u rest' Heq Hw Hrest.
  - exists u. reflexivity.
  - simpl in Hw. apply orb_false_iff in Hw as [Ha Hw].
    destruct u as [ | b u].
    + simpl in Heq. destruct Hrest as [-> | (t & ->)]; [discriminate | ].
      injection Heq as -> _. unfold ascii_eqb in Ha.
      rewrite Ascii.eqb_refl in Ha. discriminate.
    + simpl in Heq. injection Heq as -> Heq.
      destruct (IH _ _ _ Heq Hw Hrest) as (tail' & ->).
      exists tail'. reflexivity.
Qed.

Lemma join_no_shape (p : list jstring) :
  Forall (fun k => test r k = false) p ->
  forall n, ~ exists w tail, drop n (join [sep] p) = w ++ tail /\ L w.
Proof.
  induction 1 as [ | k p Hk Hp IH]; intros n.
  - simpl. rewrite drop_nil. intros (w & tail & Hnil & Hw).
    apply Hword in Hw as [Hne _]. destruct w; [contradiction | discriminate].
  - destruct p as [ | k' p']; [apply (test_false_suffix k Hk) | ].
    change (join [sep] (k :: k' :: p'))
      with (k ++ [sep] ++ join [sep] (k' :: p')).
    destruct (Nat.le_gt_cases n (length k)) as [Hn | Hn].
    + rewrite drop_app_le by exact Hn. intros (w & tail & Heq & Hw).
      destruct (Hword w Hw) as [_ Hsep].
      destruct (prefix_local w tail (drop n k) _ (eq_sym Heq) Hsep)
        as (tail' & Hk').
      { right. eexists. reflexivity. }
      apply (test_false_suffix k Hk n). exists w, tail'. auto.
    + rewrite drop_app_ge by lia.
      destruct (n - length k) as [ | m] eqn:Em; [lia | ].
      simpl drop. apply IH.
Qed.

Lemma exec_from_join (p : list jstring) (i : nat) :
  Forall (fun k => test r k = false) p ->
  exec_from r i (join [sep] p) = None.
Proof.
  intros Hp. apply exec_from_None. intros n _.
  destruct (match_here r (i + n) (drop n (join [sep] p))) eqn:E;
    [ | reflexivity].
  exfalso. apply (join_no_shape p Hp n).
  apply (proj1 (Hmatch (i + n) (drop n (join [sep] p)))). congruence.
Qed.

End PrefixPattern.

End MatcherFacts.

(** ** Objects *)

Lemma get_own_In (o : record) (k : jstring) (v : value) :
  get_own o k = Some v -> In (k, v) o.
Proof.
  induction o as [ | [k' v'] o IH]; simpl; [discriminate | ].
  destruct (jstring_eqb k' k) eqn:E.
  - apply jstring_eqb_eq in E. intros [= ->]. left. congruence.
  - intros H. right. apply IH, H.
Qed.

Lemma existsb_eqb_In (k : jstring) (ks : list jstring) :
  existsb (jstring_eqb k) ks = true <-> In k ks.
Proof.
  rewrite existsb_exists. split.
  - intros (x & Hx & E). apply jstring_eqb_eq in E. congruence.
  - intros H. exists k. split; [exact H | apply jstring_eqb_refl].
Qed.

Lemma In_get_own (o : record) (k : jstring) (v : value) :
  nodup_keys (map fst o) = true -> In (k, v) o -> get_own o k = Some v.
Proof.
  induction o as [ | [k' v'] o IH]; simpl; [contradiction | ].
  rewrite andb_true_iff, negb_true_iff. intros [Hfresh Hnodup] [[= -> ->] | Hin].
  - rewrite jstring_eqb_refl. reflexivity.
  - destruct (jstring_eqb k' k) eqn:E.
    + apply jstring_eqb_eq in E. subst k'. exfalso.
      assert (Hk : existsb (jstring_eqb k) (map fst o) = true).
      { apply existsb_eqb_In. apply (in_map fst) in Hin. exact Hin. }
      congruence.
    + apply IH; assumption.
Qed.

Lemma In_update (o : record) (k : jstring) (v : value) (kv : jstring * value) :
  In kv (update o k v) -> kv = (k, v) \/ In kv o.
Proof.
  induction o as [ | [k' v'] o IH]; simpl; [contradiction | ].
  destruct (jstring_eqb k' k) eqn:E; simpl.
  - apply jstring_eqb_eq in E. subst k'. intros [<- | H]; auto.
  - intros [<- | H]; auto. destruct (IH H); auto.
Qed.

Lemma In_insert_index (o : record) (n : Z) (k : jstring) (v : value)
    (kv : jstring * value) :
  In kv (insert_index o n k v) -> kv = (k, v) \/ In kv o.
Proof.
  induction o as [ | [k' v'] o IH]; simpl.
  - intros [<- | []]. auto.
  - destruct (array_index k') as [n' | ].
    + destruct (n' <? n); simpl.
      * intros [<- | H]; auto. destruct (IH H); auto.
      * intros [<- | H]; auto.
    + simpl. intros [<- | H]; auto.
Qed.

(** An assignment adds one binding and invents none. *)
Lemma In_set (o : record) (k : jstring) (v : value) (kv : jstring * value) :
  In kv (set o k v) -> kv = (k, v) \/ In kv o.
Proof.
  unfold set. destruct (get_own o k).
  - apply In_update.
  - destruct (array_index k).
    + apply In_insert_index.
    + rewrite in_app_iff. simpl. intuition.
Qed.

Lemma In_Object_assign (source target : record) (kv : jstring * value) :
  In kv (Object_assign target source) -> In kv source \/ In kv target.
Proof.
  unfold Object_assign. revert target.
  induction source as [ | [k v] source IH]; intros target; simpl; [auto | ].
  intros H. destruct (IH _ H) as [Hs | Ht]; [auto | ].
  destruct (In_set _ _ _ _ Ht) as [-> | Ht']; auto.
Qed.

(** ** Path resolver and object flattener *)

Section JsonPathProperties.
Import JsonPath.

Lemma flatten_step_In (fields : record) (prefix : jstring)
    (Q : jstring * value -> Prop) :
  (forall k v, In (k, v) fields -> is_plain_object v = false ->
               Q (fullKey prefix k, v)) ->
  (forall k sub kx, In (k, VObj sub) fields ->
                    In kx (flatten (VObj sub) (fullKey prefix k)) -> Q kx) ->
  forall rest, incl rest fields ->
  forall result, (forall kx, In kx result -> Q kx) ->
  forall kx,
    In kx (fold_left
             (fun result kv =>
                match snd kv with
                | VObj _ =>
                    Object_assign result
                      (flatten (snd kv) (fullKey prefix (fst kv)))
                | other => set result (fullKey prefix (fst kv)) other
                end) rest result) ->
    Q kx.
Proof.
  intros Hleaf Hsub rest. induction rest as [ | [k v] rest IH];
    intros Hincl result Hres kx; simpl; [apply Hres | ].
  assert (Hin : In (k, v) fields) by (apply Hincl; left; reflexivity).
  assert (Hincl' : incl rest fields)
    by (intros x Hx; apply Hincl; right; exact Hx).
  apply (IH Hincl'). intros kx' Hkx'.
  destruct v as [ | | b | n | s | items | sub];
    try (apply In_set in Hkx' as [-> | Hold];
         [apply Hleaf; [exact Hin | reflexivity] | apply Hres, Hold]).
  apply In_Object_assign in Hkx' as [Hnew | Hold].
  - eapply Hsub; [exact Hin | exact Hnew].
  - apply Hres, Hold.
Qed.

(** Every binding of a flattened object comes from a path of the object
    that ends at a value which is not an object. *)
Lemma flatten_In (v : value) :
  forall prefix kx,
    In kx (flatten v prefix) ->
    exists fields p,
      v = VObj fields /\ leads fields p (snd kx)
      /\ fst kx = path_key prefix p.
Proof.
  induction v as [ | | b | n | s | items _ | fields IH] using value_induction;
    intros prefix kx; try (simpl; contradiction).
  intros Hin. exists fields.
  enough (exists p, leads fields p (snd kx) /\ fst kx = path_key prefix p)
    as (p & Hp & Hk) by (exists p; auto).
  revert Hin.
  change (flatten (VObj fields) prefix)
    with (fold_left
            (fun result kv =>
               match snd kv with
               | VObj _ =>
                   Object_assign result
                     (flatten (snd kv) (fullKey prefix (fst kv)))
               | other => set result (fullKey prefix (fst kv)) other
               end) fields []).
  apply (flatten_step_In fields prefix
           (fun kx => exists p, leads fields p (snd kx)
                                /\ fst kx = path_key prefix p)).
  - intros k v Hin Hleaf. exists [k]. split; [ | reflexivity].
    apply leads_leaf; assumption.
  - intros k sub kx' Hin Hflat.
    rewrite Forall_forall in IH. specialize (IH (k, VObj sub)).
    destruct (IH ltac:(apply list_elem_of_In; exact Hin) _ _ Hflat)
      as (fields' & p & Heq & Hleads & Hkey).
    simpl in Heq. injection Heq as <-.
    exists (k :: p). split; [ | exact Hkey].
    eapply leads_step; eassumption.
  - apply incl_refl.
  - intros kx' [].
Qed.

Lemma all_object_keys_In (fields : record) (k : jstring) (v : value) :
  In (k, v) fields ->
  In k (all_object_keys (VObj fields))
  /\ incl (all_object_keys v) (all_object_keys (VObj fields)).
Proof.
  intros Hin. simpl. split.
  - apply in_flat_map. exists (k, v). split; [exact Hin | left; reflexivity].
  - intros x Hx. apply in_flat_map. exists (k, v).
    split; [exact Hin | right; exact Hx].
Qed.

Lemma leads_keys (fields : record) (p : list jstring) (v : value) :
  leads fields p v -> incl p (all_object_keys (VObj fields)).
Proof.
  induction 1 as [fields k v Hin _ | fields sub k p v Hin _ IH].
  - destruct (all_object_keys_In fields k v Hin) as [Hk _].
    intros x [<- | []]. exact Hk.
  - destruct (all_object_keys_In fields k (VObj sub) Hin) as [Hk Hsub].
    intros x [<- | Hx]; [exact Hk | apply Hsub, IH, Hx].
Qed.

Lemma leads_nonempty (fields : record) (p : list jstring) (v : value) :
  leads fields p v -> p <> [].
Proof. destruct 1; discriminate. Qed.

Lemma distinct_keys_sub (fields sub : record) (k : jstring) :
  distinct_keys (VObj fields) = true -> In (k, VObj sub) fields ->
  distinct_keys (VObj sub) = true.
Proof.
  simpl. rewrite andb_true_iff, forallb_forall. intros [_ H] Hin.
  apply (H (k, VObj sub) Hin).
Qed.

(** Along such a path the resolver's loop reaches the same value. *)
Lemma walk_leads (again : value -> jstring -> option value)
    (fields : record) (p : list jstring) (v : value) :
  leads fields p v -> distinct_keys (VObj fields) = true ->
  walk again p (VObj fields) = Some v.
Proof.
  induction 1 as [fields k v Hin _ | fields sub k p v Hin _ IH]; intros Hd.
  - simpl. unfold get.
    rewrite (In_get_own fields k v); [reflexivity | | exact Hin].
    simpl in Hd. apply andb_true_iff in Hd. tauto.
  - simpl. unfold get.
    rewrite (In_get_own fields k (VObj sub)); [ | | exact Hin].
    + apply IH. eapply distinct_keys_sub; eassumption.
    + simpl in Hd. apply andb_true_iff in Hd. tauto.
Qed.

(** Where the two bracket patterns match. *)
Lemma bracket_index_match (i : nat) (s : jstring) :
  match_here bracket_index i s <> None <->
  exists w tail, s = w ++ tail /\ index_word w.
Proof.
  change bracket_index
    with (Seq (Chr "[")
              (Seq (Group 1 (Seq (Cls is_digit) (Star (Cls is_digit))))
                   (Chr "]"))).
  rewrite match_here_Some_In. split.
  - intros (c' & Hc').
    apply rx_seq_In in Hc' as (c1 & H1 & Hc').
    apply rx_seq_In in Hc' as (c2 & H2 & H3).
    apply rx_chr_In in H1 as (H1 & _). simpl in H1.
    apply rx_group_In in H2 as (c3 & H2 & Hrest & _).
    apply rx_seq_In in H2 as (c4 & H4 & H5).
    apply rx_cls_In in H4 as (x & H4 & Hx & _).
    apply rx_star_cls_In in H5 as (body & H5 & Hbody & _).
    apply rx_chr_In in H3 as (H3 & _).
    exists ("["%char :: (x :: body) ++ ["]"%char]), (rest c'). split.
    + rewrite H1, H4, H5, <- Hrest, H3. simpl. rewrite <- app_assoc. reflexivity.
    + exists (x :: body). split; [reflexivity | ]. split; [discriminate | ].
      simpl. rewrite Hx, Hbody. reflexivity.
  - intros (w & tail & -> & ds & -> & Hne & Hds).
    destruct ds as [ | x body]; [contradiction | ].
    simpl in Hds. apply andb_true_iff in Hds as [Hx Hbody].
    pose (c1 := mkCfg (S i) ((x :: body) ++ "]"%char :: tail) []).
    pose (c3 := mkCfg (S (S i) + length body)%nat ("]"%char :: tail) []).
    pose (c2 := mkCfg (pos c3) (rest c3)
                      ((1%nat, take (pos c3 - pos c1)%nat (rest c1))
                       :: groups c3)).
    exists (step c2 tail). apply rx_seq_In.
    exists c1. split.
    { apply rx_chr_In. simpl. rewrite <- app_assoc. auto. }
    apply rx_seq_In. exists c2. split.
    + apply (rx_group_intro 1%nat _ c1 c3).
      apply rx_seq_In.
      exists (mkCfg (S (S i)) (body ++ "]"%char :: tail) []). split.
      * apply rx_cls_In. exists x. simpl. auto.
      * apply (star_cls_In_intro is_digit body _
                 (mkCfg (S (S i)) (body ++ "]"%char :: tail) [])
                 ("]"%char :: tail)); [reflexivity | exact Hbody | simpl; lia].
    + apply rx_chr_In. simpl. auto.
Qed.

Lemma bracket_star_match (i : nat) (s : jstring) :
  match_here bracket_star i s <> None <->
  exists w tail, s = w ++ tail /\ star_word w.
Proof.
  unfold bracket_star, star_word. rewrite match_here_Some_In. split.
  - intros (c' & Hc'). apply rx_lit_In in Hc'. simpl in Hc'.
    exists (str "[*]"), (rest c'). auto.
  - intros (w & tail & -> & ->). eexists.
    apply (rx_lit_intro (str "[*]") (mkCfg i (str "[*]" ++ tail) []) tail).
    reflexivity.
Qed.

Lemma digit_not_dot (x : ascii) : is_digit x = true -> ascii_eqb "." x = false.
Proof.
  intros Hx. unfold ascii_eqb. apply Ascii.eqb_neq. intros <-. discriminate.
Qed.

Lemma existsb_dot_digits (ds : jstring) :
  forallb is_digit ds = true -> existsb (ascii_eqb ".") ds = false.
Proof.
  induction ds as [ | x ds IH]; [reflexivity | ].
  change (forallb is_digit (x :: ds)) with (is_digit x && forallb is_digit ds).
  change (existsb (ascii_eqb ".") (x :: ds))
    with (ascii_eqb "." x || existsb (ascii_eqb ".") ds).
  rewrite andb_true_iff. intros [Hx Hds].
  rewrite (digit_not_dot x Hx), (IH Hds). reflexivity.
Qed.

Lemma index_word_plain (w : jstring) :
  index_word w -> w <> [] /\ existsb (ascii_eqb ".") w = false.
Proof.
  intros (ds & -> & _ & Hds). split; [discriminate | ].
  change (existsb (ascii_eqb ".") ("["%char :: ds ++ ["]"%char]))
    with (false || existsb (ascii_eqb ".") (ds ++ ["]"%char])).
  rewrite existsb_app, (existsb_dot_digits ds Hds). reflexivity.
Qed.

Lemma star_word_plain (w : jstring) :
  star_word w -> w <> [] /\ existsb (ascii_eqb ".") w = false.
Proof. intros ->. split; [discriminate | reflexivity]. Qed.

Lemma resolve_S (fuel : nat) (obj : value) (path : jstring) :
  resolve (S fuel) obj path = walk (resolve fuel) (segments_of path) obj.
Proof. reflexivity. Qed.

(** A path made of plain keys is cut at its dots and nowhere else. *)
Lemma segments_of_plain (p : list jstring) :
  Forall (fun k => plain_key k = true) p ->
  segments_of (join (str ".") p) = split "." (join (str ".") p).
Proof.
  intros Hp. unfold segments_of, replaceAll.
  rewrite (replace_go_no_match bracket_index).
  2:{ apply (exec_from_join bracket_index index_word "."
               bracket_index_match index_word_plain).
      eapply Forall_impl; [exact Hp | ]. intros k Hk. unfold plain_key in Hk.
      rewrite !andb_true_iff, !negb_true_iff in Hk. tauto. }
  rewrite (replace_go_no_match bracket_star).
  2:{ apply (exec_from_join bracket_star star_word "."
               bracket_star_match star_word_plain).
      eapply Forall_impl; [exact Hp | ]. intros k Hk. unfold plain_key in Hk.
      rewrite !andb_true_iff, !negb_true_iff in Hk. tauto. }
  reflexivity.
Qed.

Lemma ascii_eqb_sym (a b : ascii) : ascii_eqb a b = ascii_eqb b a.
Proof. apply Ascii.eqb_sym. Qed.

Lemma has_char_cons (a x : ascii) (s : jstring) :
  has_char a (x :: s) = ascii_eqb a x || has_char a s.
Proof. reflexivity. Qed.

Lemma split_cons (sep a : ascii) (s : jstring) :
  split sep (a :: s)
  = if ascii_eqb a sep then [] :: split sep s
    else match split sep s with
         | piece :: pieces => (a :: piece) :: pieces
         | [] => [[a]]
         end.
Proof. reflexivity. Qed.

Lemma split_dot_free (k : jstring) :
  has_char "." k = false -> split "." k = [k].
Proof.
  induction k as [ | a k IH]; [reflexivity | ].
  rewrite has_char_cons, orb_false_iff, ascii_eqb_sym. intros [Ha Hk].
  rewrite split_cons, Ha, (IH Hk). reflexivity.
Qed.

Lemma split_app_dot (k rest : jstring) :
  has_char "." k = false ->
  split "." (k ++ str "." ++ rest) = k :: split "." rest.
Proof.
  induction k as [ | a k IH]; [reflexivity | ].
  rewrite has_char_cons, orb_false_iff, ascii_eqb_sym. intros [Ha Hk].
  rewrite <- app_comm_cons, split_cons, Ha, (IH Hk). reflexivity.
Qed.

Lemma split_join (p : list jstring) :
  p <> [] -> Forall (fun k => has_char "." k = false) p ->
  split "." (join (str ".") p) = p.
Proof.
  intros Hne Hp. induction Hp as [ | k p Hk Hp IH]; [contradiction | ].
  destruct p as [ | k' p'].
  - simpl. apply split_dot_free, Hk.
  - change (join (str ".") (k :: k' :: p'))
      with (k ++ str "." ++ join (str ".") (k' :: p')).
    rewrite (split_app_dot _ _ Hk), IH; [reflexivity | discriminate].
Qed.

Lemma has_char_app (a : ascii) (s t : jstring) :
  has_char a (s ++ t) = has_char a s || has_char a t.
Proof. unfold has_char. apply existsb_app. Qed.

Lemma has_char_join (a : ascii) (p : list jstring) :
  ascii_eqb a "." = false ->
  Forall (fun k => has_char a k = false) p ->
  has_char a (join (str ".") p) = false.
Proof.
  intros Ha Hp. induction Hp as [ | k p Hk Hp IH]; [reflexivity | ].
  destruct p as [ | k' p'].
  - exact Hk.
  - change (join (str ".") (k :: k' :: p'))
      with (k ++ str "." ++ join (str ".") (k' :: p')).
    rewrite !has_char_app, Hk, IH.
    change (has_char a (str ".")) with (ascii_eqb a "." || false).
    rewrite Ha. reflexivity.
Qed.

Lemma path_key_join (p : list jstring) (prefix : jstring) :
  prefix <> [] -> Forall (fun k => k <> []) p ->
  path_key prefix p = join (str ".") (prefix :: p).
Proof.
  intros Hne Hp. revert prefix Hne.
  induction Hp as [ | k p Hk Hp IH]; intros prefix Hne; [reflexivity | ].
  unfold path_key. simpl fold_left. fold (path_key (fullKey prefix k) p).
  assert (Hfull : fullKey prefix k = prefix ++ str "." ++ k)
    by (destruct prefix; [contradiction | reflexivity]).
  rewrite IH by (rewrite Hfull; destruct prefix; [contradiction | discriminate]).
  rewrite Hfull. destruct p as [ | k' p'].
  - simpl. reflexivity.
  - change (join (str ".") ((prefix ++ str "." ++ k) :: k' :: p'))
      with ((prefix ++ str "." ++ k) ++ str "." ++ join (str ".") (k' :: p')).
    change (join (str ".") (prefix :: k :: k' :: p'))
      with (prefix ++ str "." ++ k ++ str "." ++ join (str ".") (k' :: p')).
    rewrite <- !app_assoc. reflexivity.
Qed.

Lemma path_key_top (p : list jstring) :
  p <> [] -> Forall (fun k => k <> []) p ->
  path_key [] p = join (str ".") p.
Proof.
  intros Hne Hp. destruct Hp as [ | k p Hk Hp]; [contradiction | ].
  unfold path_key. simpl fold_left. fold (path_key k p).
  apply path_key_join; assumption.
Qed.

Lemma plain_key_spec (k : jstring) :
  plain_key k = true -> k <> [] /\ has_char "." k = false.
Proof.
  unfold plain_key. rewrite !andb_true_iff, !negb_true_iff.
  intros [[[Hlen Hdot] _] _]. split; [ | exact Hdot].
  intros ->. discriminate.
Qed.

(** *** The resolver returns *)

Lemma bracket_index_shrinks (i : nat) (s : jstring) (c : cfg) :
  match_here bracket_index i s = Some c ->
  (length (str "." ++ default [] (capture c 1)) <= pos c - i)%nat.
Proof.
  intros H.
  assert (Hin : In c (rx bracket_index (mkCfg i s []))).
  { unfold match_here in H.
    destruct (rx bracket_index (mkCfg i s [])); [discriminate | ].
    injection H as <-. left. reflexivity. }
  change bracket_index
    with (Seq (Chr "[")
              (Seq (Group 1 (Seq (Cls is_digit) (Star (Cls is_digit))))
                   (Chr "]"))) in Hin.
  apply rx_seq_In in Hin as (c1 & H1 & Hin).
  apply rx_seq_In in Hin as (c2 & H2 & H3).
  apply rx_chr_In in H1 as (_ & Hp1 & _). simpl in Hp1.
  apply rx_group_captures in H2 as (c3 & H2 & ->).
  apply rx_consumes in H2 as (w & _ & Hp3).
  apply rx_chr_In in H3 as (_ & Hp & Hg). simpl in Hp, Hg.
  unfold capture. rewrite Hg. simpl.
  rewrite length_take. lia.
Qed.

Lemma bracket_star_shrinks (i : nat) (s : jstring) (c : cfg) :
  match_here bracket_star i s = Some c ->
  (length (str ".*") <= pos c - i)%nat.
Proof.
  intros H.
  assert (Hin : In c (rx bracket_star (mkCfg i s []))).
  { unfold match_here in H.
    destruct (rx bracket_star (mkCfg i s [])); [discriminate | ].
    injection H as <-. left. reflexivity. }
  pose proof (rx_lit_In _ _ _ Hin) as Hlit.
  apply rx_consumes in Hin as (w & Hw & Hp). simpl in *.
  rewrite Hw in Hlit.
  change (w ++ rest c = str "[*]" ++ rest c) in Hlit.
  apply app_inv_tail in Hlit. subst w. simpl in Hp. lia.
Qed.

Lemma join_split (sep : ascii) (s : jstring) : join [sep] (split sep s) = s.
Proof.
  induction s as [ | a s IH]; [reflexivity | ].
  rewrite split_cons.
  destruct (split sep s) as [ | piece pieces] eqn:E.
  - simpl in IH. subst s. simpl in E.
    destruct (ascii_eqb a sep); discriminate.
  - destruct (ascii_eqb a sep) eqn:Ea.
    + apply Ascii.eqb_eq in Ea. subst a.
      change (join [sep] ([] :: piece :: pieces))
        with (sep :: join [sep] (piece :: pieces)).
      rewrite IH. reflexivity.
    + destruct pieces; simpl in *; rewrite <- IH; reflexivity.
Qed.

Lemma segments_of_length (path : jstring) :
  (length (join (str ".") (segments_of path)) <= length path)%nat.
Proof.
  unfold segments_of. rewrite (join_split "."). unfold replaceAll.
  etransitivity.
  - apply replace_go_length. intros i s c. apply bracket_star_shrinks.
  - apply replace_go_length. intros i s c. apply bracket_index_shrinks.
Qed.

Lemma join_cons_length (seg : jstring) (more : list jstring) :
  (length (join (str ".") more) <= length (join (str ".") (seg :: more)))%nat
  /\ (more <> [] ->
      length (join (str ".") more) < length (join (str ".") (seg :: more)))%nat.
Proof.
  destruct more as [ | seg' more'].
  - split; [simpl; lia | contradiction].
  - change (join (str ".") (seg :: seg' :: more'))
      with (seg ++ str "." ++ join (str ".") (seg' :: more')).
    rewrite !length_app. simpl length. split; [lia | intros _; lia].
Qed.

Lemma sequence_map_Some {A B : Type} (g : A -> option B) (l : list A) :
  (forall x, exists v, g x = Some v) ->
  exists vs, sequence (map g l) = Some vs.
Proof.
  intros Hg. induction l as [ | x l (vs & IH)]; simpl.
  - eexists. reflexivity.
  - destruct (Hg x) as (v & ->). rewrite IH. eexists. reflexivity.
Qed.

Lemma walk_returns (again : value -> jstring -> option value) (f : nat) :
  (forall item path, (length path < f)%nat ->
                     exists v, again item path = Some v) ->
  forall segments current,
    (length (join (str ".") segments) <= f)%nat ->
    exists v, walk again segments current = Some v.
Proof.
  intros Hagain. induction segments as [ | segment more IH];
    intros current Hlen; [eexists; reflexivity | ].
  destruct (join_cons_length segment more) as [Hle Hlt].
  destruct current as [ | | b | n | s | items | fields];
    try (eexists; reflexivity).
  - simpl.
    destruct (jstring_eqb segment _).
    + assert (Hrem : forall remaining,
                 join (str ".") more = remaining -> remaining <> [] ->
                 (length remaining < f)%nat).
      { intros remaining E Hne.
        assert (more <> []) by (intros ->; apply Hne; rewrite <- E; reflexivity).
        rewrite <- E. specialize (Hlt H). lia. }
      change (join ["."%char] more) with (join (str ".") more).
      destruct (join (str ".") more) as [ | a remaining];
        [eexists; reflexivity | ].
      destruct (sequence_map_Some (fun item => again item (a :: remaining)) items)
        as (vs & ->).
      { intros item. apply Hagain. apply Hrem; [reflexivity | discriminate]. }
      eexists. reflexivity.
    + destruct (parseInt segment); [ | eexists; reflexivity].
      apply IH. lia.
  - simpl. apply IH. lia.
Qed.

Lemma resolve_returns :
  forall fuel obj path,
    (length path < fuel)%nat -> exists v, resolve fuel obj path = Some v.
Proof.
  induction fuel as [ | fuel IH]; intros obj path Hlen; [lia | ].
  rewrite resolve_S. apply (walk_returns (resolve fuel) fuel).
  - intros item path' Hpath'. apply IH, Hpath'.
  - pose proof (segments_of_length path). lia.
Qed.

(** The fuel given to the resolver is enough: it returns, for every value
    and every path. *)
Lemma resolveJsonPath_returns (obj : value) (path : jstring) :
  exists v, resolveJsonPath obj path = Some v.
Proof. apply resolve_returns. lia. Qed.

(** C9 (amended). For every object whose keys (at every object level) are
    pairwise distinct, non-empty and hold neither a dot nor a bracketed
    index or wildcard ([0], [12], [*]), every key k of the flattened object
    resolves, as a path on the original object, to the value the flattened
    object holds at k. In particular
    flattening {a:{b:1,c:{d:2}}} yields {"a.b":1,"a.c.d":2} and the path
    "a.c.d" resolves to 2 on the original object. *)
Theorem C9_flatten_resolve_roundtrip (obj : record) :
  distinct_keys (VObj obj) = true ->
  plain_keys (VObj obj) ->
  (forall k v,
     get_own (flattenObject obj []) k = Some v ->
     resolveJsonPath (VObj obj) k = Some v)
  /\ (obj = [(str "a", VObj [(str "b", VNum 1);
                             (str "c", VObj [(str "d", VNum 2)])])] ->
      flattenObject obj [] = [(str "a.b", VNum 1); (str "a.c.d", VNum 2)]
      /\ resolveJsonPath (VObj obj) (str "a.c.d") = Some (VNum 2)).
Proof.
  intros Hdistinct Hplain. split; [ | intros ->; split; reflexivity].
  intros k v Hget. apply get_own_In in Hget.
  destruct (flatten_In _ _ _ Hget) as (fields & p & [= <-] & Hleads & Hkey).
  simpl in Hleads, Hkey. subst k.
  assert (Hkeys : Forall (fun k => plain_key k = true) p).
  { apply Forall_forall. intros k Hk. apply list_elem_of_In in Hk.
    apply (leads_keys _ _ _ Hleads) in Hk.
    unfold plain_keys in Hplain. rewrite Forall_forall in Hplain.
    apply Hplain, list_elem_of_In, Hk. }
  assert (Hne : p <> []) by (eapply leads_nonempty; eassumption).
  rewrite path_key_top; [ | exact Hne | ].
  2:{ eapply Forall_impl; [exact Hkeys | ]. intros k Hk.
      apply plain_key_spec in Hk. tauto. }
  unfold resolveJsonPath. rewrite resolve_S, (segments_of_plain p Hkeys).
  rewrite split_join; [ | exact Hne | ].
  2:{ eapply Forall_impl; [exact Hkeys | ]. intros k Hk.
      apply plain_key_spec in Hk. tauto. }
  apply walk_leads; assumption.
Qed.

Lemma C9_flatten_resolve_roundtrip_witness :
  let obj := [(str "a", VObj [(str "b", VNum 1);
                              (str "c", VObj [(str "d", VArr [VNum 2])])]);
              (str "e", VNull)] in
  resolveJsonPath (VObj obj) (str "a.c.d") = Some (VArr [VNum 2]).
Proof.
  intros obj.
  destruct (C9_flatten_resolve_roundtrip obj) as [H _].
  - reflexivity.
  - unfold plain_keys. simpl. repeat constructor.
  - apply H. reflexivity.
Defined.

(** C9 as stated fails. The key "a[0]" has no dot, yet as a path it is
    read as the segments "a" and "0"; and below an empty key the flattened
    key loses its prefix. Both objects have dot-free keys and no empty
    nested object. *)
Lemma C9_counterexample :
  let bracket := [(str "a[0]", VNum 1)] in
  let empty_key := [([], VObj [(str "b", VNum 1)])] in
  (dot_free (VObj bracket)
   /\ objects_nonempty (VObj bracket) = true
   /\ get_own (flattenObject bracket []) (str "a[0]") = Some (VNum 1)
   /\ resolveJsonPath (VObj bracket) (str "a[0]") = Some VUndefined)
  /\ (dot_free (VObj empty_key)
      /\ objects_nonempty (VObj empty_key) = true
      /\ get_own (flattenObject empty_key []) (str "b") = Some (VNum 1)
      /\ resolveJsonPath (VObj empty_key) (str "b") = Some VUndefined).
Proof.
  intros bracket empty_key. unfold dot_free.
  repeat split; try reflexivity; simpl; repeat constructor.
Qed.

End JsonPathProperties.

(** ** Token cache *)

Section AuthProviderProperties.
Import AuthProvider.

Lemma getToken_served (tokenCache : gmap jstring CachedToken) (now : Z)
    (k : jstring) (response : TokenResponse) (cached : CachedToken) :
  tokenCache !! k = Some cached ->
  now + 300000 < expiresAt cached ->
  getToken tokenCache now k response
  = mkCall (Returns (accessToken cached)) false tokenCache.
Proof.
  intros Hk Hvalid. unfold getToken. rewrite Hk.
  destruct (Z.ltb_spec (now + 5 * 60 * 1000) (expiresAt cached));
    [reflexivity | exfalso; lia].
Qed.

Lemma getToken_expired (tokenCache : gmap jstring CachedToken) (now : Z)
    (k : jstring) (response : TokenResponse) (cached : CachedToken) :
  tokenCache !! k = Some cached ->
  expiresAt cached <= now + 300000 ->
  fetched (getToken tokenCache now k response) = true.
Proof.
  intros Hk Hexpired. unfold getToken. rewrite Hk.
  destruct (Z.ltb_spec (now + 5 * 60 * 1000) (expiresAt cached));
    [exfalso; lia | destruct response; reflexivity].
Qed.

(** A call leaves the entries of the other keys alone, and the entry of its
    own key too unless it fetched. *)
Lemma getToken_other (tokenCache : gmap jstring CachedToken) (now : Z)
    (k k' : jstring) (response : TokenResponse) :
  k <> k' ->
  cache_after (getToken tokenCache now k' response) !! k = tokenCache !! k.
Proof.
  intros Hne. unfold getToken.
  destruct (tokenCache !! k') as [cached | ].
  - destruct (now + 5 * 60 * 1000 <? expiresAt cached); [reflexivity | ].
    destruct response; simpl; [ | reflexivity].
    apply lookup_insert_ne. congruence.
  - destruct response; simpl; [ | reflexivity].
    apply lookup_insert_ne. congruence.
Qed.

Lemma getToken_caches (tokenCache : gmap jstring CachedToken) (T : Z)
    (k tok : jstring) (expires_in : Z) :
  fetched (getToken tokenCache T k (TokenOk tok expires_in)) = true ->
  cache_after (getToken tokenCache T k (TokenOk tok expires_in)) !! k
  = Some (mkCachedToken tok (T + expires_in * 1000)).
Proof.
  unfold getToken. destruct (tokenCache !! k) as [cached | ].
  - destruct (T + 5 * 60 * 1000 <? expiresAt cached); [discriminate | ].
    intros _. simpl. apply lookup_insert_eq.
  - intros _. simpl. apply lookup_insert_eq.
Qed.

Lemma run_serves (entry : CachedToken) (k : jstring) (reqs : list Request) :
  forall tokenCache,
    tokenCache !! k = Some entry ->
    (forall r, In r reqs -> key r = k -> at_time r + 300000 < expiresAt entry) ->
    snd (run tokenCache reqs) !! k = Some entry
    /\ forall r c, In (r, c) (fst (run tokenCache reqs)) -> key r = k ->
                   returned c = Returns (accessToken entry)
                   /\ fetched c = false.
Proof.
  induction reqs as [ | r reqs IH]; intros tokenCache Hk Hearly; simpl.
  - split; [exact Hk | intros r c []].
  - destruct (run (cache_after (getToken tokenCache (at_time r) (key r) (answer r)))
                  reqs) as [calls final] eqn:Erun.
    assert (Hnext : cache_after (getToken tokenCache (at_time r) (key r) (answer r))
                    !! k = Some entry).
    { destruct (decide (k = key r)) as [-> | Hne].
      - rewrite (getToken_served _ _ _ _ entry); [exact Hk | exact Hk | ].
        apply Hearly; [left | ]; reflexivity.
      - rewrite getToken_other; [exact Hk | exact Hne]. }
    destruct (IH _ Hnext) as [Hfinal Hcalls].
    { intros r' Hr'. apply Hearly. right. exact Hr'. }
    rewrite Erun in Hfinal, Hcalls. simpl in *.
    split; [exact Hfinal | ].
    intros r' c [[= <- <-] | Hin] Hkey.
    + rewrite (getToken_served _ _ _ _ entry); [split; reflexivity | | ].
      * rewrite Hkey. exact Hk.
      * apply Hearly; [left; reflexivity | exact Hkey].
    + apply (Hcalls r' c Hin Hkey).
Qed.

(** C7. When a call of getToken at time T (milliseconds) fetches a token
    with expires_in = 3600 and caches it under a key, every later call with
    that key made strictly before T + 3300 s returns the cached token
    without a request to the endpoint, whatever calls with other keys come
    in between; and a call with that key at or after T + 3300 s fetches
    afresh. *)
Theorem C7_token_cache_window
    (tokenCache : gmap jstring CachedToken) (T : Z) (k tok : jstring)
    (reqs : list Request) :
  let first := getToken tokenCache T k (TokenOk tok 3600) in
  fetched first = true ->
  (forall r, In r reqs -> key r = k -> at_time r < T + 3300 * 1000) ->
  let later := run (cache_after first) reqs in
  (forall r c, In (r, c) (fst later) -> key r = k ->
               returned c = Returns tok /\ fetched c = false)
  /\ (forall now response,
        T + 3300 * 1000 <= now ->
        fetched (getToken (snd later) now k response) = true).
Proof.
  intros first Hfetched Hearly later.
  pose proof (getToken_caches tokenCache T k tok 3600 Hfetched) as Hcached.
  fold first in Hcached.
  destruct (run_serves (mkCachedToken tok (T + 3600 * 1000)) k reqs
              (cache_after first) Hcached) as [Hfinal Hcalls].
  { intros r Hr Hkey. specialize (Hearly r Hr Hkey). simpl. lia. }
  fold later in Hfinal, Hcalls. split.
  - exact Hcalls.
  - intros now response Hlate.
    apply (getToken_expired _ _ _ _ _ Hfinal). simpl. lia.
Qed.

Lemma C7_token_cache_window_witness :
  let T := 1000000 in
  let first := getToken ∅ T (str "graph") (TokenOk (str "tok-1") 3600) in
  let reqs :=
    [ mkRequest (T + 10) (str "dataverse") (TokenOk (str "tok-2") 3600);
      mkRequest (T + 3299999) (str "graph") (TokenOk (str "tok-3") 3600) ] in
  let later := run (cache_after first) reqs in
  (forall r c, In (r, c) (fst later) -> key r = str "graph" ->
               returned c = Returns (str "tok-1") /\ fetched c = false)
  /\ (forall now response,
        T + 3300 * 1000 <= now ->
        fetched (getToken (snd later) now (str "graph") response) = true).
Proof.
  intros T first reqs later.
  apply (C7_token_cache_window ∅ T (str "graph") (str "tok-1") reqs).
  - reflexivity.
  - intros r [<- | [<- | []]] Hkey; simpl in *; [discriminate | lia].
Defined.

End AuthProviderProperties.

(** ** Dataverse pagination *)

Section ExtractDataverseProperties.
Import OutputFormatter ExtractDataverse.

(** Comparisons of whole numbers are those of the integers. *)
Lemma number_ltb_of_Z (a b : Z) : number_ltb (of_Z a) (of_Z b) = (a <? b).
Proof.
  unfold number_ltb, of_Z.
  destruct (Z.ltb_spec a b) as [Hlt | Hge].
  - apply negb_true_iff. destruct (Qle_bool (inject_Z b) (inject_Z a)) eqn:E;
      [ | reflexivity].
    apply Qle_bool_iff in E. rewrite <- Zle_Qle in E. lia.
  - apply negb_false_iff, Qle_bool_iff. rewrite <- Zle_Qle. exact Hge.
Qed.

Lemma number_leb_of_Z (a b : Z) : number_leb (of_Z a) (of_Z b) = (a <=? b).
Proof.
  unfold number_leb. rewrite number_ltb_of_Z.
  destruct (Z.ltb_spec b a), (Z.leb_spec a b); simpl; try reflexivity; lia.
Qed.

Lemma truncate_of_Z (n : Z) : truncate (inject_Z n) = n.
Proof.
  unfold truncate. destruct (Qle_bool 0 (inject_Z n));
    [apply Qfloor_Z | apply Qceiling_Z].
Qed.

Lemma truncate_le (q : Q) : (0 <= q)%Q -> 0 <= truncate q /\ (inject_Z (truncate q) <= q)%Q.
Proof.
  intros Hq. unfold truncate.
  assert (E : Qle_bool 0 q = true) by (apply Qle_bool_iff, Hq).
  rewrite E. split; [ | apply Qfloor_le].
  change 0 with (Qfloor (inject_Z 0)). apply Qfloor_resp_le, Hq.
Qed.

Lemma length_slice0 {A : Type} (n : Z) (l : list A) :
  Z.of_nat (length (slice0 n l))
  = if n <? 0 then Z.max 0 (Z.of_nat (length l) + n)
    else Z.min n (Z.of_nat (length l)).
Proof.
  unfold slice0. destruct (Z.ltb_spec n 0); rewrite length_take; lia.
Qed.

(** The limit: the requested top when it is positive, 500 at most. *)
Lemma maxTop_positive (t : number) :
  number_ltb (of_Z 0) t = true ->
  maxTop (Some t) = Math_min t (of_Z 500).
Proof.
  unfold maxTop, or_default. destruct t as [q | | ]; try reflexivity.
  intros Hpos. destruct (Qeq_bool q 0) eqn:E; [ | reflexivity].
  exfalso. apply Qeq_bool_iff in E.
  unfold number_ltb, of_Z in Hpos. apply negb_true_iff in Hpos.
  assert (Hle : (q <= inject_Z 0)%Q) by (rewrite E; apply Qle_refl).
  apply Qle_bool_iff in Hle. congruence.
Qed.

Lemma paginate_S (fuel : nat) (server : Server) (limit : number)
    (s : LoopState) :
  paginate (S fuel) server limit s
  = if truthy (link s)
       && number_ltb (of_Z (Z.of_nat (length (allRecords s)))) limit
       && (pageCount s <? maxPages)
    then
      match server (length (sent s)) (default [] (link s)) with
      | NotOk status errorText =>
          Some (Failed (mkLoop (allRecords s) (link s) (pageCount s)
                               (sent s ++ [default [] (link s)]))
                       status errorText)
      | Ok data =>
          paginate fuel server limit
            (mkLoop (allRecords s
                     ++ map stripODataAnnotations (default [] (value data)))
                    (nextLink data) (pageCount s + 1)
                    (sent s ++ [default [] (link s)]))
      end
    else Some (Finished s).
Proof. reflexivity. Qed.

Lemma paginate_O (server : Server) (limit : number) (s : LoopState) :
  paginate O server limit s
  = if truthy (link s)
       && number_ltb (of_Z (Z.of_nat (length (allRecords s)))) limit
       && (pageCount s <? maxPages)
    then None else Some (Finished s).
Proof. reflexivity. Qed.

(** The loop returns, sends one request per page and never more than
    [maxPages] in all; when it finishes, its condition is false. *)
Lemma paginate_returns (server : Server) (limit : number) :
  forall fuel s,
    0 <= pageCount s <= maxPages ->
    length (sent s) = Z.to_nat (pageCount s) ->
    (Z.to_nat (maxPages - pageCount s) <= fuel)%nat ->
    exists res,
      paginate fuel server limit s = Some res
      /\ match res with
         | Finished s' =>
             (length (sent s') <= Z.to_nat maxPages)%nat
             /\ truthy (link s')
                && number_ltb (of_Z (Z.of_nat (length (allRecords s')))) limit
                && (pageCount s' <? maxPages) = false
         | Failed s' _ _ => (length (sent s') <= Z.to_nat maxPages)%nat
         end.
Proof.
  induction fuel as [ | fuel IH]; intros s Hpages Hsent Hfuel.
  - assert (Hfull : pageCount s = maxPages) by (unfold maxPages in *; lia).
    rewrite paginate_O, Hfull, Z.ltb_irrefl, andb_false_r.
    eexists. split; [reflexivity | ]. cbv beta iota.
    rewrite Hfull, Z.ltb_irrefl, andb_false_r. split; [lia | reflexivity].
  - rewrite paginate_S.
    destruct (truthy (link s)
              && number_ltb (of_Z (Z.of_nat (length (allRecords s)))) limit
              && (pageCount s <? maxPages)) eqn:Econd.
    + apply andb_true_iff in Econd as [_ Hlt]. apply Z.ltb_lt in Hlt.
      destruct (server (length (sent s)) (default [] (link s)))
        as [data | status errorText].
      * apply IH; simpl.
        -- lia.
        -- rewrite length_app. simpl. lia.
        -- unfold maxPages in *. lia.
      * eexists. split; [reflexivity | ]. simpl.
        rewrite length_app. simpl. lia.
    + eexists. split; [reflexivity | ]. split; [lia | exact Econd].
Qed.

Lemma fetch_all_returns (server : Server) (limit : number) (first : jstring) :
  exists res,
    fetch_all server limit first = Some res
    /\ match res with
       | Finished s' =>
           (length (sent s') <= 5)%nat
           /\ truthy (link s')
              && number_ltb (of_Z (Z.of_nat (length (allRecords s')))) limit
              && (pageCount s' <? maxPages) = false
       | Failed s' _ _ => (length (sent s') <= 5)%nat
       end.
Proof.
  unfold fetch_all.
  apply (paginate_returns server limit (Z.to_nat maxPages)
           (mkLoop [] (Some first) 0 [])); simpl; unfold maxPages; lia.
Qed.

(** Never more records than a limit that is not negative, whole or not. *)
Lemma envelope_records (limit : number) (now : jstring) (s : LoopState) :
  number_leb (of_Z 0) limit = true ->
  number_leb (of_Z (Z.of_nat (length (records (envelope limit now s)))))
             limit = true.
Proof.
  intros Hlimit. unfold envelope. cbn [records]. rewrite length_map.
  destruct (number_ltb limit (of_Z (Z.of_nat (length (allRecords s)))))
    eqn:Etrim.
  - destruct limit as [q | | ]; [ | discriminate Etrim | discriminate Hlimit].
    cbn [slice_to].
    assert (Hq : (0 <= q)%Q).
    { unfold number_leb, number_ltb, of_Z in Hlimit.
      rewrite negb_involutive in Hlimit. apply Qle_bool_iff in Hlimit.
      exact Hlimit. }
    destruct (truncate_le q Hq) as [Hnn Hle].
    unfold number_leb, number_ltb, of_Z. rewrite negb_involutive.
    apply Qle_bool_iff. eapply Qle_trans; [ | exact Hle].
    rewrite <- Zle_Qle. rewrite length_slice0.
    destruct (Z.ltb_spec (truncate q) 0); lia.
  - unfold number_leb. rewrite Etrim. reflexivity.
Qed.

(** With a continuation link left and a whole limit reached, the warning
    is recorded. *)
Lemma envelope_warning (limit : number) (now : jstring) (s : LoopState) :
  truthy (link s) = true ->
  number_leb limit (of_Z (Z.of_nat (length (allRecords s)))) = true ->
  integral limit ->
  warnings (metadata (envelope limit now s))
  = Some [more_available (length (records (envelope limit now s)))].
Proof.
  intros Hlink Hreached [n ->]. unfold envelope.
  cbn [metadata warnings records]. rewrite Hlink, length_map. cbn [andb].
  fold (of_Z n) in *. rewrite number_leb_of_Z in Hreached.
  apply Z.leb_le in Hreached.
  match goal with
  | |- context [number_leb (of_Z n) (of_Z (Z.of_nat (length ?t)))] =>
      assert (Hle : number_leb (of_Z n) (of_Z (Z.of_nat (length t))) = true)
  end.
  { rewrite number_leb_of_Z. apply Z.leb_le. rewrite number_ltb_of_Z.
    destruct (Z.ltb_spec n (Z.of_nat (length (allRecords s)))); [ | lia].
    unfold of_Z. cbn [slice_to]. rewrite truncate_of_Z, length_slice0.
    destruct (Z.ltb_spec n 0); lia. }
  rewrite Hle. reflexivity.
Qed.

(** C6 (amended). Every invocation returns after at most 5 page requests;
    it returns at most min(top, 500) records for a requested top greater
    than 0, whole or not (in general at most the limit
    min(top || 50, 500) when that is not negative); and whenever fetching
    stops with a continuation link still present because the records
    fetched have reached the limit, a whole number, the warning that more
    records are available is recorded in the metadata. The link left over
    is not requested. What is recorded when the page ceiling stops the
    fetching, or when the limit is not a whole number, is left open. *)
Theorem C6_pagination_bounds
    (server : Server) (envUrl table params : jstring) (top : option number)
    (now : jstring) :
  exists e,
    extract server envUrl table params top now = Some e
    /\ (length (requests e) <= 5)%nat
    /\ (number_leb (of_Z 0) (maxTop top) = true ->
        number_leb (of_Z (Z.of_nat (length (returned_records (output e)))))
                   (maxTop top) = true)
    /\ (forall t, top = Some t -> number_ltb (of_Z 0) t = true ->
        number_leb (of_Z (Z.of_nat (length (returned_records (output e)))))
                   (Math_min t (of_Z 500)) = true)
    /\ (forall s,
          fetch_all server (maxTop top) (firstLink envUrl table params)
          = Some (Finished s) ->
          requests e = sent s
          /\ (truthy (link s) = true ->
              number_leb (maxTop top)
                         (of_Z (Z.of_nat (length (allRecords s)))) = true ->
              integral (maxTop top) ->
              warned (output e)
              = [more_available (length (returned_records (output e)))])).
Proof.
  assert (Hpos : forall t, number_ltb (of_Z 0) t = true ->
                 number_leb (of_Z 0) (Math_min t (of_Z 500)) = true).
  { intros t Ht. unfold Math_min.
    destruct (number_ltb (of_Z 500) t); [reflexivity | ].
    unfold number_leb. destruct t as [q | | ]; try reflexivity.
    - unfold number_ltb, of_Z in *. rewrite negb_involutive.
      apply negb_true_iff in Ht. apply Qle_bool_iff.
      apply Qlt_le_weak, Qnot_le_lt. intros C.
      apply Qle_bool_iff in C. congruence.
    - discriminate Ht. }
  unfold extract.
  destruct (fetch_all_returns server (maxTop top)
              (firstLink envUrl table params)) as (res & Hres & Hspec).
  rewrite Hres. destruct res as [s | s status errorText].
  - destruct Hspec as [Hsent _].
    eexists. split; [reflexivity | ].
    unfold returned_records, warned. cbn [requests output].
    split; [exact Hsent | ].
    split; [intros Hlimit; apply envelope_records, Hlimit | ]. split.
    + intros t -> Ht. rewrite (maxTop_positive t Ht).
      apply envelope_records, Hpos, Ht.
    + intros s' [= <-]. split; [reflexivity | ].
      intros Hlink Hreached Hwhole.
      rewrite (envelope_warning _ _ _ Hlink Hreached Hwhole). reflexivity.
  - eexists. split; [reflexivity | ]. cbn [requests output returned_records].
    split; [exact Hspec | ]. split; [intros H; exact H | ]. split.
    + intros t _ Ht. apply Hpos, Ht.
    + intros s' [=].
Qed.

Lemma C6_pagination_bounds_witness :
  let page := [[(str "name", VStr (str "Contoso"))];
               [(str "name", VStr (str "Fabrikam"))]] in
  let server : Server :=
    fun _ _ => Ok (mkOData (Some page) (Some (str "https://org/next"))) in
  exists e,
    extract server (str "https://org.crm.dynamics.com/") (str "accounts")
            (str "%24top=3") (Some (of_Z 3)) (str "2026-01-01T00:00:00.000Z")
    = Some e
    /\ (length (requests e) <= 5)%nat
    /\ number_leb (of_Z (Z.of_nat (length (returned_records (output e)))))
                  (of_Z 3) = true
    /\ warned (output e)
       = [more_available (length (returned_records (output e)))].
Proof.
  intros page server.
  destruct (C6_pagination_bounds server (str "https://org.crm.dynamics.com/")
              (str "accounts") (str "%24top=3") (Some (of_Z 3))
              (str "2026-01-01T00:00:00.000Z"))
    as (e & He & Hreq & _ & Ht & Hw).
  exists e. split; [exact He | ]. split; [exact Hreq | ].
  split; [apply (Ht (of_Z 3) eq_refl); reflexivity | ].
  destruct (fetch_all server (maxTop (Some (of_Z 3)))
              (firstLink (str "https://org.crm.dynamics.com/")
                         (str "accounts") (str "%24top=3")))
    as [[s | s status errorText] | ] eqn:E;
    vm_compute in E; try discriminate E.
  destruct (Hw s eq_refl) as [_ H]. injection E as <-.
  apply H; [reflexivity | reflexivity | exists 3; reflexivity].
Defined.

(** C6 as stated fails, three times. (1) Asked for a top of 0, the handler
    uses its default of 50 and returns the two records the server has, more
    than min(0, 500). (2) A server that returns five records per page, each
    page with a continuation link, is asked for 50 records: fetching stops
    at the page ceiling with 25 records and a link still present, and no
    warning is recorded. (3) Asked for a top of 1.5, with a page of two
    records and a continuation link: fetching stops with the link present,
    one record is returned and no warning is recorded. *)
Lemma C6_counterexample :
  let r := [(str "name", VStr (str "Contoso"))] in
  let paging : Server :=
    fun _ _ => Ok (mkOData (Some [r; r; r; r; r])
                           (Some (str "https://org/next"))) in
  let small : Server := fun _ _ => Ok (mkOData (Some [r; r]) None) in
  let linked : Server :=
    fun _ _ => Ok (mkOData (Some [r; r]) (Some (str "https://org/next"))) in
  let first := firstLink (str "https://org.crm.dynamics.com")
                         (str "accounts") (str "%24top=50") in
  (exists e,
     extract small (str "https://org.crm.dynamics.com") (str "accounts")
             (str "%24top=50") (Some (of_Z 0))
             (str "2026-01-01T00:00:00.000Z")
     = Some e
     /\ length (returned_records (output e)) = 2%nat
     /\ Math_min (of_Z 0) (of_Z 500) = of_Z 0)
  /\ (exists e s,
        extract paging (str "https://org.crm.dynamics.com") (str "accounts")
                (str "%24top=50") (Some (of_Z 50))
                (str "2026-01-01T00:00:00.000Z")
        = Some e
        /\ fetch_all paging (maxTop (Some (of_Z 50))) first
           = Some (Finished s)
        /\ length (requests e) = 5%nat
        /\ length (returned_records (output e)) = 25%nat
        /\ link s = Some (str "https://org/next")
        /\ warned (output e) = [])
  /\ (exists e s,
        extract linked (str "https://org.crm.dynamics.com") (str "accounts")
                (str "%24top=50") (Some (Finite (3 # 2)))
                (str "2026-01-01T00:00:00.000Z")
        = Some e
        /\ fetch_all linked (maxTop (Some (Finite (3 # 2)))) first
           = Some (Finished s)
        /\ length (requests e) = 1%nat
        /\ length (allRecords s) = 2%nat
        /\ length (returned_records (output e)) = 1%nat
        /\ link s = Some (str "https://org/next")
        /\ warned (output e) = []).
Proof.
  intros r paging small linked first. split; [ | split].
  - eexists. split; [vm_compute; reflexivity | ]. split; reflexivity.
  - eexists. eexists.
    split; [vm_compute; reflexivity | ].
    split; [vm_compute; reflexivity | ].
    repeat split.
  - eexists. eexists.
    split; [vm_compute; reflexivity | ].
    split; [vm_compute; reflexivity | ].
    repeat split.
Qed.

End ExtractDataverseProperties.

(** ** Code structure extractor *)

Section ExtractCodeProperties.
Import ExtractCode.

(** Only the tag "type" depends on the language being TypeScript. *)
Lemma inferType_unknown (signature : jstring) :
  inferType signature (str "unknown") = inferType signature (str "typescript")
  \/ inferType signature (str "typescript") = str "type".
Proof.
  unfold inferType.
  change (jstring_eqb (str "unknown") (str "typescript")) with false.
  change (jstring_eqb (str "typescript") (str "typescript")) with true.
  change (jstring_eqb (str "unknown") (str "xpp")) with false.
  change (jstring_eqb (str "typescript") (str "xpp")) with false.
  destruct (includes (toLowerCase signature) (str "class")); [left; reflexivity | ].
  destruct (includes (toLowerCase signature) (str "interface"));
    [left; reflexivity | ].
  destruct (includes (toLowerCase signature) (str "enum")); [left; reflexivity | ].
  destruct (includes (toLowerCase signature) (str "struct"));
    [left; reflexivity | ].
  destruct (includes (toLowerCase signature) (str "type "));
    [right; reflexivity | left; reflexivity].
Qed.

Lemma scan_same_but_type (patterns : list regex) (lines : list jstring) :
  forall i,
    Forall2 same_but_type
      (scan (structure_record patterns (str "unknown")) i lines)
      (scan (structure_record patterns (str "typescript")) i lines).
Proof.
  induction lines as [ | l lines IH]; intros i; simpl; [constructor | ].
  apply Forall2_app; [ | apply IH].
  unfold structure_record. destruct (first_match patterns l).
  - constructor; [ | constructor].
    unfold same_but_type. simpl. repeat split. apply inferType_unknown.
  - constructor.
Qed.

Lemma scan_nil {A : Type} (f : Z -> jstring -> list A) (lines : list jstring) :
  (forall i l, f i l = []) -> forall i, scan f i lines = [].
Proof.
  intros Hf. induction lines as [ | l lines IH]; intros i; simpl;
    [reflexivity | ].
  rewrite Hf, IH. reflexivity.
Qed.

(** Export lines are only recognised for the five languages the function
    names; any other language, "unknown" included, yields no record. *)
Lemma extractExports_unknown (content : jstring) :
  extractExports content (str "unknown") = [].
Proof.
  unfold extractExports. apply scan_nil. intros i l. reflexivity.
Qed.

(** C5 (amended). For a file whose extension is not in the
    extension-to-language table the language resolves to "unknown"; with
    it the modes imports, comments and full produce exactly the records
    that "typescript" produces, and the mode structure produces the same
    records except that a record tagged "type" under "typescript" may carry
    another tag. *)
Theorem C5_unknown_language (filePath content : jstring) :
  assoc LANGUAGE_MAP (toLowerCase (extname filePath)) = None ->
  let lang := resolve_language None filePath in
  let ts := str "typescript" in
  lang = str "unknown"
  /\ codeRecords Imports lang content = codeRecords Imports ts content
  /\ codeRecords Comments lang content = codeRecords Comments ts content
  /\ codeRecords Full lang content = codeRecords Full ts content
  /\ (exists u t,
        codeRecords Structure lang content = Returns u
        /\ codeRecords Structure ts content = Returns t
        /\ Forall2 same_but_type u t).
Proof.
  intros Hext lang ts.
  assert (Hlang : lang = str "unknown").
  { unfold lang, resolve_language, detectLanguage. rewrite Hext. reflexivity. }
  rewrite Hlang. split; [reflexivity | ].
  split; [reflexivity | ]. split; [reflexivity | ]. split; [reflexivity | ].
  eexists. eexists. split; [reflexivity | ]. split; [reflexivity | ].
  apply scan_same_but_type.
Qed.

Lemma C5_unknown_language_witness :
  let content := str "import fs from 'fs';" in
  codeRecords Imports (resolve_language None (str "notes.txt")) content
  = codeRecords Imports (str "typescript") content.
Proof.
  intros content.
  destruct (C5_unknown_language (str "notes.txt") content eq_refl)
    as (_ & H & _).
  exact H.
Defined.

(** C5 as stated fails in the modes exports and structure: for the file
    notes.txt the line "export type Id = string;" is an export record and
    a record of type "type" under "typescript", but no export record and a
    record of type "method" under the resolved language. *)
Lemma C5_counterexample :
  let content := str "export type Id = string;" in
  let lang := resolve_language None (str "notes.txt") in
  assoc LANGUAGE_MAP (toLowerCase (extname (str "notes.txt"))) = None
  /\ codeRecords Exports lang content = Returns []
  /\ codeRecords Exports (str "typescript") content
     = Returns [mkCodeRecord (str "export") content 1 content]
  /\ codeRecords Structure lang content
     = Returns [mkCodeRecord (str "method") (str "Id") 1 content]
  /\ codeRecords Structure (str "typescript") content
     = Returns [mkCodeRecord (str "type") (str "Id") 1 content].
Proof. vm_compute. repeat split. Qed.

End ExtractCodeProperties.

(** ** Field mapping and the json rendering *)

Section FieldMappingProperties.
Import OutputFormatter.

Lemma find_none {A : Type} (p : A -> bool) (l : list A) :
  existsb p l = false -> List.find p l = None.
Proof.
  induction l as [ | x l IH]; simpl; [reflexivity | ].
  destruct (p x); simpl; [discriminate | exact IH].
Qed.

(** An expected field without a match is set to [undefined] in the mapped
    object. *)
Lemma map_field_unmatched (sourceRecord mapped : record) (expected : jstring) :
  has_match sourceRecord expected = false ->
  map_field sourceRecord mapped expected = set mapped expected VUndefined.
Proof.
  unfold has_match, map_field, find_key. intros H.
  rewrite (find_none (fun k => jstring_eqb (toLowerCase k) (toLowerCase expected))).
  2:{ apply not_true_is_false. intros E. apply existsb_exists in E as (k & Hk & E).
      assert (existsb
                (fun k => jstring_eqb (toLowerCase k) (toLowerCase expected)
                          || includes (toLowerCase k) (toLowerCase expected)
                          || includes (toLowerCase expected) (toLowerCase k))
                (Object_keys sourceRecord) = true); [ | congruence].
      apply existsb_exists. exists k. rewrite E. auto. }
  rewrite (find_none (fun k => includes (toLowerCase k) (toLowerCase expected)
                               || includes (toLowerCase expected) (toLowerCase k))).
  2:{ apply not_true_is_false. intros E. apply existsb_exists in E as (k & Hk & E).
      assert (existsb
                (fun k => jstring_eqb (toLowerCase k) (toLowerCase expected)
                          || includes (toLowerCase k) (toLowerCase expected)
                          || includes (toLowerCase expected) (toLowerCase k))
                (Object_keys sourceRecord) = true); [ | congruence].
      apply existsb_exists. exists k. rewrite <- orb_assoc, E, orb_true_r. auto. }
  reflexivity.
Qed.

(** A property whose value is [undefined] leaves no trace in the text
    [JSON.stringify] produces for an object. *)
Lemma stringify_drops_undefined (gap indent : jstring) (k : jstring)
    (before after : record) :
  stringify gap indent (VObj (before ++ (k, VUndefined) :: after))
  = stringify gap indent (VObj (before ++ after)).
Proof.
  simpl. rewrite !flat_map_app. reflexivity.
Qed.

(** C3 at the input of the specification's own example: target tool
    add_customer and the record {Name:"Acme", industry:"Retail"}. The field
    goLiveDate has no match and is set to [undefined] in the mapped object,
    but the rendered JSON does not mention it. *)
Lemma C3_unset_marker_dropped :
  let r := [(str "Name", VStr (str "Acme"));
            (str "industry", VStr (str "Retail"))] in
  let result :=
    mkResult (mkMetadata SrcJson (str "2026-01-01T00:00:00.000Z") (Fmt Json) 1
                         None None) [ObjectRecord r] in
  has_match r (str "goLiveDate") = false
  /\ (exists mapped,
        mapFieldsToTarget [ObjectRecord r] (str "add_customer")
        = Returns (Some mapped)
        /\ get_own mapped (str "goLiveDate") = Some VUndefined)
  /\ resolveFormat result None (Some (str "add_customer")) = Fmt Json
  /\ (exists text,
        format result None (Some (str "add_customer")) = Returns text
        /\ includes text (str "mappedFields") = true
        /\ includes text (str "industry") = true
        /\ includes text (str "goLiveDate") = false).
Proof.
  intros r result. split; [reflexivity | ].
  split; [eexists; split; vm_compute; reflexivity | ].
  split; [reflexivity | ].
  eexists. split; [vm_compute; reflexivity | ].
  repeat split; vm_compute; reflexivity.
Qed.

End FieldMappingProperties.


(** ** Plain-text converter *)

Section HtmlToTextProperties.
Import HtmlToText.
Local Open Scope nat_scope.

Lemma code_ascii_of_nat (n : nat) : n < 256 -> code (ascii_of_nat n) = n.
Proof. apply nat_ascii_embedding. Qed.

Lemma code_bound (a : ascii) : code a < 256.
Proof. apply nat_ascii_bounded. Qed.

(** Folding maps nothing new onto a character that is not a lower-case
    letter. *)
Lemma ascii_fold_fixed (x a : ascii) :
  is_lower a = false -> ascii_fold x = a -> x = a.
Proof.
  unfold ascii_fold. intros Ha. destruct (is_upper x) eqn:Eu; [ | auto].
  intros <-. exfalso.
  unfold is_upper, is_lower, in_range in *.
  apply andb_true_iff in Eu as [H1 H2].
  apply Nat.leb_le in H1, H2.
  rewrite code_ascii_of_nat in Ha by lia.
  apply andb_false_iff in Ha as [Ha | Ha]; apply Nat.leb_gt in Ha; lia.
Qed.

Lemma not_gt_spec (x : ascii) : not_gt x = true <-> x <> ">"%char.
Proof.
  unfold not_gt. simpl. rewrite orb_false_r, negb_true_iff.
  unfold ascii_eqb. rewrite Ascii.eqb_neq. reflexivity.
Qed.

Lemma not_gt_fold (x a : ascii) :
  ascii_fold x = ascii_fold a -> ascii_fold a <> ">"%char -> not_gt x = true.
Proof.
  intros Hx Ha. apply not_gt_spec. intros ->. apply Ha. rewrite <- Hx.
  reflexivity.
Qed.

(** The general tag pattern matches every tag-shaped prefix. *)
Lemma any_tag_matches (i : nat) (s : jstring) :
  tag_prefix s -> match_here any_tag i s <> None.
Proof.
  intros (body & tail & -> & Hne & Hall).
  destruct body as [ | b body]; [contradiction | ].
  simpl in Hall. apply andb_true_iff in Hall as [Hb Hall].
  apply match_here_Some_In.
  change any_tag
    with (Seq (Chr "<") (Seq (Seq (Cls not_gt) (Star (Cls not_gt))) (Chr ">"))).
  exists (mkCfg (S (S (S i)) + length body) tail []).
  apply rx_seq_In.
  exists (mkCfg (S i) ((b :: body) ++ ">"%char :: tail) []).
  split; [apply rx_chr_In; simpl; auto | ].
  apply rx_seq_In.
  exists (mkCfg (S (S i) + length body) (">"%char :: tail) []).
  split; [ | apply rx_chr_In; simpl; auto].
  apply rx_seq_In.
  exists (mkCfg (S (S i)) (body ++ ">"%char :: tail) []).
  split; [apply rx_cls_In; exists b; simpl; auto | ].
  apply (star_cls_In_intro not_gt body _
           (mkCfg (S (S i)) (body ++ ">"%char :: tail) []) (">"%char :: tail));
    [reflexivity | exact Hall | simpl; lia].
Qed.

(** A literal tag, matched without regard to case, is tag-shaped. *)
Lemma ci_lit_tag (mid : jstring) (i : nat) (s : jstring) :
  mid <> [] ->
  Forall (fun a => ascii_fold a <> ">"%char) mid ->
  match_here (ci (lit ("<"%char :: mid ++ [">"%char]))) i s <> None ->
  tag_prefix s.
Proof.
  intros Hne Hmid Hm. apply match_here_Some_In in Hm as (c' & Hc').
  apply rx_ci_lit_In in Hc' as (u & Hrest & Hu). simpl in Hrest.
  destruct u as [ | x0 u]; [discriminate | ].
  simpl in Hu. injection Hu as Hx0 Hu.
  apply ascii_fold_fixed in Hx0; [ | reflexivity]. subst x0.
  rewrite map_app in Hu.
  assert (Hsplit : exists body xn,
             u = body ++ [xn] /\ map ascii_fold body = map ascii_fold mid
             /\ ascii_fold xn = ">"%char).
  { clear Hrest Hne Hmid. revert u Hu.
    induction mid as [ | a mid IH]; intros u Hu; simpl in Hu.
    - destruct u as [ | xn [ | ? ?]]; try discriminate.
      injection Hu as Hxn. exists [], xn. auto.
    - destruct u as [ | x u]; [discriminate | ].
      injection Hu as Hx Hu. specialize (IH u Hu).
      destruct IH as (bd & xl & Eu & Hb & Hxn).
      exists (x :: bd), xl. simpl. rewrite Hx, Hb, Eu. auto. }
  destruct Hsplit as (body & xn & -> & Hbody & Hxn).
  apply ascii_fold_fixed in Hxn; [ | reflexivity]. subst xn.
  exists body, (rest c'). split; [ | split].
  - rewrite Hrest. simpl. rewrite <- app_assoc. reflexivity.
  - intros ->. destruct mid; [contradiction | discriminate].
  - clear Hrest Hne Hu. revert body Hbody.
    induction Hmid as [ | a mid Ha _ IH]; intros body Hbody.
    + destruct body; [reflexivity | discriminate].
    + destruct body as [ | x body]; [discriminate | ].
      injection Hbody as Hx Hbody. simpl.
      rewrite (not_gt_fold x a Hx Ha). apply IH, Hbody.
Qed.

Lemma is_space_not_gt (x : ascii) : is_space x = true -> not_gt x = true.
Proof.
  intros Hx. apply not_gt_spec. intros ->. discriminate.
Qed.

Lemma forallb_impl {A : Type} (p q : A -> bool) (l : list A) :
  (forall x, p x = true -> q x = true) ->
  forallb p l = true -> forallb q l = true.
Proof.
  intros Hpq. induction l as [ | x l IH]; simpl; [reflexivity | ].
  rewrite !andb_true_iff. intros [Hx Hl]. auto.
Qed.

(** The line-break pattern [<br\s*\/?>] is tag-shaped. *)
Lemma br_tag (i : nat) (s : jstring) :
  match_here (ci (cat [lit (str "<br"); Star space; Opt (Chr "/"); Chr ">"]))
             i s <> None ->
  tag_prefix s.
Proof.
  intros Hm. apply match_here_Some_In in Hm as (c' & Hc').
  change (ci (cat [lit (str "<br"); Star space; Opt (Chr "/"); Chr ">"]))
    with (Seq (ci (lit (str "<br")))
              (Seq (Star (Cls is_space))
                   (Seq (Alt (Cls (fun x => ascii_eqb (ascii_fold x)
                                                       (ascii_fold "/")))
                             Eps)
                        (Cls (fun x => ascii_eqb (ascii_fold x)
                                                 (ascii_fold ">"))))))
    in Hc'.
  apply rx_seq_In in Hc' as (c1 & H1 & Hc').
  apply rx_seq_In in Hc' as (c2 & H2 & Hc').
  apply rx_seq_In in Hc' as (c3 & H3 & H4).
  apply rx_ci_lit_In in H1 as (u & Hu & Hfold). simpl in Hu.
  apply rx_star_cls_In in H2 as (ws & Hws & Hspace & _).
  apply rx_cls_In in H4 as (xn & Hxn & Hgt & _).
  apply Ascii.eqb_eq in Hgt. apply ascii_fold_fixed in Hgt; [ | reflexivity].
  subst xn.
  destruct u as [ | x0 [ | x1 [ | x2 [ | ? ?]]]]; try discriminate.
  injection Hfold as Hx0 Hx1 Hx2.
  apply ascii_fold_fixed in Hx0; [ | reflexivity]. subst x0.
  assert (Hslash : exists sl, rest c2 = sl ++ rest c3
                              /\ forallb not_gt sl = true).
  { simpl in H3. apply in_app_iff in H3 as [H3 | [<- | []]].
    - apply (rx_cls_In _ c2 c3) in H3 as (x & Hx & Hfx & _).
      apply Ascii.eqb_eq in Hfx. exists [x]. split; [exact Hx | ].
      simpl. rewrite (not_gt_fold x "/" Hfx); [reflexivity | discriminate].
    - exists []. auto. }
  destruct Hslash as (sl & Hsl & Hslgt).
  exists ([x1; x2] ++ ws ++ sl), (rest c'). split; [ | split].
  - rewrite Hu, Hws, Hsl, Hxn. simpl. rewrite <- !app_assoc. reflexivity.
  - discriminate.
  - rewrite !forallb_app, Hslgt, (forallb_impl _ _ _ is_space_not_gt Hspace).
    simpl. rewrite (not_gt_fold x1 "b" Hx1), (not_gt_fold x2 "r" Hx2);
      [reflexivity | discriminate | discriminate].
Qed.

(** The list-item pattern [<li[^>]*>] is tag-shaped. *)
Lemma li_tag (i : nat) (s : jstring) :
  match_here (ci (cat [lit (str "<li"); Star (none_of (str ">")); Chr ">"]))
             i s <> None ->
  tag_prefix s.
Proof.
  intros Hm. apply match_here_Some_In in Hm as (c' & Hc').
  change (ci (cat [lit (str "<li"); Star (none_of (str ">")); Chr ">"]))
    with (Seq (ci (lit (str "<li")))
              (Seq (Star (Cls not_gt))
                   (Cls (fun x => ascii_eqb (ascii_fold x)
                                            (ascii_fold ">")))))
    in Hc'.
  apply rx_seq_In in Hc' as (c1 & H1 & Hc').
  apply rx_seq_In in Hc' as (c2 & H2 & H3).
  apply rx_ci_lit_In in H1 as (u & Hu & Hfold). simpl in Hu.
  apply rx_star_cls_In in H2 as (attrs & Hattrs & Hall & _).
  apply rx_cls_In in H3 as (xn & Hxn & Hgt & _).
  apply Ascii.eqb_eq in Hgt. apply ascii_fold_fixed in Hgt; [ | reflexivity].
  subst xn.
  destruct u as [ | x0 [ | x1 [ | x2 [ | ? ?]]]]; try discriminate.
  injection Hfold as Hx0 Hx1 Hx2.
  apply ascii_fold_fixed in Hx0; [ | reflexivity]. subst x0.
  exists ([x1; x2] ++ attrs), (rest c'). split; [ | split].
  - rewrite Hu, Hattrs, Hxn. simpl. rewrite <- ?app_assoc. reflexivity.
  - discriminate.
  - rewrite forallb_app, Hall. simpl.
    rewrite (not_gt_fold x1 "l" Hx1), (not_gt_fold x2 "i" Hx2);
      [reflexivity | discriminate | discriminate].
Qed.

(** *** White space *)

Lemma match_here_blanks (i : nat) (s : jstring) :
  match_here (Plus (any_of [" "%char; tab])) i s
  = if 1 <=? span blank_unit s
    then Some (mkCfg (i + span blank_unit s) (drop (span blank_unit s) s) [])
    else None.
Proof. exact (match_here_plus blank_unit i s). Qed.

Lemma match_here_newlines (i : nat) (s : jstring) :
  match_here (AtLeast3 (Chr nl)) i s
  = if 3 <=? span newline_unit s
    then Some (mkCfg (i + span newline_unit s)
                     (drop (span newline_unit s) s) [])
    else None.
Proof. exact (match_here_at_least3 newline_unit i s). Qed.

Lemma single_spaced_cons (a : ascii) (s : jstring) :
  single_spaced (a :: s)
  = (if blank_unit a
     then ascii_eqb a " " && (span blank_unit s =? 0)
     else true) && single_spaced s.
Proof. reflexivity. Qed.

Lemma no_triple_newline_cons (a : ascii) (s : jstring) :
  no_triple_newline (a :: s)
  = (span newline_unit (a :: s) <? 3) && no_triple_newline s.
Proof. reflexivity. Qed.

Lemma span_cons (p : ascii -> bool) (a : ascii) (s : jstring) :
  span p (a :: s) = if p a then S (span p s) else 0.
Proof. reflexivity. Qed.

(** After the first white-space step blanks are single spaces. *)
Lemma collapse_single_spaced (s : jstring) (i : nat) :
  single_spaced
    (replace_go (Plus (any_of [" "%char; tab])) (fun _ _ => str " ") i 0 s)
  = true.
Proof.
  revert s i.
  enough (H : forall s i,
             single_spaced
               (replace_go (Plus (any_of [" "%char; tab]))
                           (fun _ _ => str " ") i 0 s) = true
             /\ (span blank_unit s = 0 ->
                 span blank_unit
                   (replace_go (Plus (any_of [" "%char; tab]))
                               (fun _ _ => str " ") i 0 s) = 0))
    by (intros s i; apply (H s i)).
  apply (run_ind _ blank_unit 1 (str " ") (le_n 1) match_here_blanks
           (fun s out => single_spaced out = true
                         /\ (span blank_unit s = 0 ->
                             span blank_unit out = 0))).
  - split; reflexivity.
  - intros a s out Hrun [Hout Hhead]. split; [ | lia].
    change (str " " ++ out) with (" "%char :: out).
    rewrite single_spaced_cons, Hout. simpl.
    rewrite (Hhead (span_drop _ _)). reflexivity.
  - intros a s out Hrun [Hout Hhead].
    rewrite span_cons in Hrun. destruct (blank_unit a) eqn:Ea; [lia | ].
    split.
    + rewrite single_spaced_cons, Ea, Hout. reflexivity.
    + intros _. rewrite span_cons, Ea. reflexivity.
Qed.

(** On such a text the first white-space step changes nothing. *)
Lemma collapse_id (s : jstring) (i : nat) :
  single_spaced s = true ->
  replace_go (Plus (any_of [" "%char; tab])) (fun _ _ => str " ") i 0 s = s.
Proof.
  revert s i.
  apply (run_ind _ blank_unit 1 (str " ") (le_n 1) match_here_blanks
           (fun s out => single_spaced s = true -> out = s)).
  - reflexivity.
  - intros a s out Hrun IH Hs.
    rewrite single_spaced_cons in Hs. rewrite span_cons in Hrun, IH.
    destruct (blank_unit a); [ | lia].
    apply andb_true_iff in Hs as [Ha Hs]. apply andb_true_iff in Ha as [Ha Hz].
    apply Ascii.eqb_eq in Ha. apply Nat.eqb_eq in Hz. subst a.
    rewrite Hz in IH. simpl in IH. rewrite (IH Hs). reflexivity.
  - intros a s out Hrun IH Hs.
    rewrite single_spaced_cons in Hs. apply andb_true_iff in Hs as [_ Hs].
    rewrite (IH Hs). reflexivity.
Qed.

Lemma single_spaced_drop (k : nat) :
  forall s, single_spaced s = true -> single_spaced (drop k s) = true.
Proof.
  induction k as [ | k IH]; intros [ | a s]; simpl drop; auto.
  rewrite single_spaced_cons, andb_true_iff. intros [_ Hs]. apply IH, Hs.
Qed.

Lemma span_take_zero (p : ascii -> bool) (k : nat) (s : jstring) :
  span p s = 0 -> span p (take k s) = 0.
Proof.
  destruct s as [ | a s], k as [ | k]; simpl; auto.
  destruct (p a); [discriminate | reflexivity].
Qed.

Lemma single_spaced_take (s : jstring) :
  forall k, single_spaced s = true -> single_spaced (take k s) = true.
Proof.
  induction s as [ | a s IH]; intros [ | k]; simpl take; auto.
  rewrite !single_spaced_cons, !andb_true_iff. intros [Ha Hs].
  split; [ | apply IH, Hs].
  destruct (blank_unit a); [ | reflexivity].
  apply andb_true_iff in Ha as [Ha Hz]. apply Nat.eqb_eq in Hz.
  rewrite Ha, (span_take_zero _ _ _ Hz). reflexivity.
Qed.

(** The second white-space step keeps blanks single and leaves no three
    newlines in a row. *)
Lemma squeeze_single_spaced (s : jstring) (i : nat) :
  single_spaced s = true ->
  single_spaced (replace_go (AtLeast3 (Chr nl)) (fun _ _ => [nl; nl]) i 0 s)
  = true.
Proof.
  revert s i.
  enough (H : forall s i,
             single_spaced s = true ->
             single_spaced
               (replace_go (AtLeast3 (Chr nl)) (fun _ _ => [nl; nl]) i 0 s)
             = true
             /\ (span blank_unit s = 0 ->
                 span blank_unit
                   (replace_go (AtLeast3 (Chr nl)) (fun _ _ => [nl; nl]) i 0 s)
                 = 0))
    by (intros s i Hs; apply (H s i Hs)).
  apply (run_ind _ newline_unit 3 [nl; nl] ltac:(lia) match_here_newlines
           (fun s out => single_spaced s = true ->
                         single_spaced out = true
                         /\ (span blank_unit s = 0 ->
                             span blank_unit out = 0))).
  - intros _. split; reflexivity.
  - intros a s out Hrun IH Hs.
    destruct (IH (single_spaced_drop _ _ Hs)) as [Hout _].
    split; [ | intros _; reflexivity].
    change ([nl; nl] ++ out) with (nl :: nl :: out).
    rewrite !single_spaced_cons, Hout. reflexivity.
  - intros a s out Hrun IH Hs.
    rewrite single_spaced_cons in Hs. apply andb_true_iff in Hs as [Ha Hs].
    destruct (IH Hs) as [Hout Hhead]. split.
    + rewrite single_spaced_cons, Hout.
      destruct (blank_unit a); [ | reflexivity].
      apply andb_true_iff in Ha as [Ha Hz]. apply Nat.eqb_eq in Hz.
      rewrite Ha, (Hhead Hz). reflexivity.
    + rewrite !span_cons. destruct (blank_unit a); [discriminate | reflexivity].
Qed.

Lemma squeeze_no_triple (s : jstring) (i : nat) :
  no_triple_newline
    (replace_go (AtLeast3 (Chr nl)) (fun _ _ => [nl; nl]) i 0 s) = true.
Proof.
  revert s i.
  enough (H : forall s i,
             no_triple_newline
               (replace_go (AtLeast3 (Chr nl)) (fun _ _ => [nl; nl]) i 0 s)
             = true
             /\ span newline_unit
                  (replace_go (AtLeast3 (Chr nl)) (fun _ _ => [nl; nl]) i 0 s)
                = Nat.min (span newline_unit s) 2)
    by (intros s i; apply (H s i)).
  apply (run_ind _ newline_unit 3 [nl; nl] ltac:(lia) match_here_newlines
           (fun s out => no_triple_newline out = true
                         /\ span newline_unit out
                            = Nat.min (span newline_unit s) 2)).
  - split; reflexivity.
  - intros a s out Hrun [Hout Hspan].
    rewrite span_drop in Hspan. simpl in Hspan.
    change ([nl; nl] ++ out) with (nl :: nl :: out).
    assert (Hnl : newline_unit nl = true) by reflexivity.
    split.
    + rewrite !no_triple_newline_cons, !span_cons, Hnl, Hspan, Hout.
      reflexivity.
    + rewrite !(span_cons newline_unit nl), Hnl, Hspan. lia.
  - intros a s out Hrun [Hout Hspan].
    rewrite span_cons in Hrun.
    rewrite no_triple_newline_cons, !span_cons, Hout, Hspan.
    destruct (newline_unit a).
    + split; [ | lia].
      rewrite andb_true_r. apply Nat.ltb_lt. lia.
    + split; reflexivity.
Qed.

Lemma squeeze_id (s : jstring) (i : nat) :
  no_triple_newline s = true ->
  replace_go (AtLeast3 (Chr nl)) (fun _ _ => [nl; nl]) i 0 s = s.
Proof.
  revert s i.
  apply (run_ind _ newline_unit 3 [nl; nl] ltac:(lia) match_here_newlines
           (fun s out => no_triple_newline s = true -> out = s)).
  - reflexivity.
  - intros a s out Hrun _ Hs.
    rewrite no_triple_newline_cons in Hs.
    apply andb_true_iff in Hs as [Hs _]. apply Nat.ltb_lt in Hs. lia.
  - intros a s out _ IH Hs.
    rewrite no_triple_newline_cons in Hs.
    apply andb_true_iff in Hs as [_ Hs]. rewrite (IH Hs). reflexivity.
Qed.

Lemma no_triple_newline_drop (k : nat) :
  forall s, no_triple_newline s = true -> no_triple_newline (drop k s) = true.
Proof.
  induction k as [ | k IH]; intros [ | a s]; simpl drop; auto.
  rewrite no_triple_newline_cons, andb_true_iff. intros [_ Hs]. apply IH, Hs.
Qed.

Lemma span_take_le (p : ascii -> bool) (s : jstring) :
  forall k, span p (take k s) <= span p s.
Proof.
  induction s as [ | a s IH]; intros [ | k]; simpl; try lia.
  destruct (p a); [specialize (IH k); lia | lia].
Qed.

Lemma no_triple_newline_take (s : jstring) :
  forall k, no_triple_newline s = true -> no_triple_newline (take k s) = true.
Proof.
  induction s as [ | a s IH]; intros [ | k]; simpl take; auto.
  rewrite !no_triple_newline_cons, !andb_true_iff, !Nat.ltb_lt.
  intros [Ha Hs]. split; [ | apply IH, Hs].
  pose proof (span_take_le newline_unit (a :: s) (S k)). simpl take in H. lia.
Qed.

(** *** Trimming *)

Lemma trimStart_drop (s : jstring) : trimStart s = drop (span is_space s) s.
Proof.
  induction s as [ | a s IH]; [reflexivity | ].
  simpl. destruct (is_space a); [exact IH | reflexivity].
Qed.

Lemma rev_drop_rev (k : nat) (u : jstring) :
  rev (drop k (rev u)) = take (length u - k) u.
Proof. rewrite skipn_rev. apply rev_involutive. Qed.

Lemma trim_take_drop (s : jstring) :
  exists j k, trim s = take k (drop j s).
Proof.
  unfold trim. rewrite (trimStart_drop s), (trimStart_drop (rev _)), rev_drop_rev.
  eexists. eexists. reflexivity.
Qed.

Lemma trim_trimmed (s : jstring) :
  span is_space (trim s) = 0 /\ span is_space (rev (trim s)) = 0.
Proof.
  unfold trim. split.
  - rewrite (trimStart_drop (rev _)), rev_drop_rev.
    apply span_take_zero. rewrite trimStart_drop. apply span_drop.
  - rewrite rev_involutive, trimStart_drop. apply span_drop.
Qed.

Lemma trim_id (t : jstring) :
  span is_space t = 0 -> span is_space (rev t) = 0 -> trim t = t.
Proof.
  intros H1 H2. unfold trim.
  rewrite (trimStart_drop t), H1. change (drop 0 t) with t.
  rewrite (trimStart_drop (rev t)), H2. apply rev_involutive.
Qed.

Lemma trim_idempotent (s : jstring) : trim (trim s) = trim s.
Proof. destruct (trim_trimmed s). apply trim_id; assumption. Qed.

(** *** The pipeline on its own output *)

Lemma run_steps_app (l1 l2 : list (regex * jstring)) (s : jstring) :
  run_steps (l1 ++ l2) s = run_steps l2 (run_steps l1 s).
Proof. apply fold_left_app. Qed.

Lemma run_steps_id (l : list (regex * jstring)) (s : jstring) :
  Forall (fun step => exec_from (fst step) 0 s = None) l ->
  run_steps l s = s.
Proof.
  induction 1 as [ | step l Hstep _ IH]; [reflexivity | ].
  unfold run_steps in *. simpl fold_left. unfold replaceAll at 2.
  rewrite (replace_go_no_match _ _ _ _ Hstep). exact IH.
Qed.

Lemma htmlToText_unfold (x : jstring) :
  htmlToText x
  = trim (replace_go (AtLeast3 (Chr nl)) (fun _ _ => [nl; nl]) 0 0
            (replace_go (Plus (any_of [" "%char; tab])) (fun _ _ => str " ")
                        0 0 (run_steps markup_steps x))).
Proof. unfold htmlToText, steps. rewrite run_steps_app. reflexivity. Qed.

(** A text without markup passes the markup steps unchanged. *)
Lemma markup_steps_id (y : jstring) :
  no_markup y -> run_steps markup_steps y = y.
Proof.
  intros [Htag Hent].
  assert (Hnone : exec_from any_tag 0 y = None).
  { unfold test in Htag. destruct (exec_from any_tag 0 y); [discriminate | ].
    reflexivity. }
  assert (He : forall e, In e entities -> exec_from (lit e) 0 y = None).
  { intros e Hin. apply exec_from_lit_absent.
    rewrite Forall_forall in Hent. apply Hent, list_elem_of_In, Hin. }
  assert (Hlit : forall mid,
             mid <> [] -> Forall (fun a => ascii_fold a <> ">"%char) mid ->
             exec_from (ci (lit ("<"%char :: mid ++ [">"%char]))) 0 y = None).
  { intros mid Hne Hmid. apply (exec_from_sub _ any_tag); [ | exact Hnone].
    intros i s Hm. apply any_tag_matches. apply (ci_lit_tag mid i s); assumption. }
  apply run_steps_id. unfold markup_steps.
  repeat apply List.Forall_cons; try apply List.Forall_nil; cbn [fst].
  - apply (exec_from_sub _ any_tag); [ | exact Hnone].
    intros i s Hm. apply any_tag_matches, (br_tag i s), Hm.
  - apply (Hlit (str "/p")); [discriminate | repeat constructor; discriminate].
  - apply (Hlit (str "/div")); [discriminate | repeat constructor; discriminate].
  - apply (Hlit (str "/li")); [discriminate | repeat constructor; discriminate].
  - apply (exec_from_sub _ any_tag); [ | exact Hnone].
    intros i s Hm. apply any_tag_matches, (li_tag i s), Hm.
  - apply (Hlit (str "/tr")); [discriminate | repeat constructor; discriminate].
  - apply (Hlit (str "/td")); [discriminate | repeat constructor; discriminate].
  - exact Hnone.
  - apply He. simpl. tauto.
  - apply He. simpl. tauto.
  - apply He. simpl. tauto.
  - apply He. simpl. tauto.
  - apply He. simpl. tauto.
  - apply He. simpl. tauto.
Qed.

(** C8. If the plain text produced from x holds no tag-shaped substring
    and none of the six named character references, converting it again
    gives the same text. *)
Theorem C8_htmlToText_idempotent (x : jstring) :
  no_markup (htmlToText x) ->
  htmlToText (htmlToText x) = htmlToText x.
Proof.
  intros Hmarkup.
  rewrite (htmlToText_unfold (htmlToText x)), (markup_steps_id _ Hmarkup).
  assert (Hsingle : single_spaced (htmlToText x) = true).
  { rewrite htmlToText_unfold.
    destruct (trim_take_drop
                (replace_go (AtLeast3 (Chr nl)) (fun _ _ => [nl; nl]) 0 0
                   (replace_go (Plus (any_of [" "%char; tab]))
                      (fun _ _ => str " ") 0 0 (run_steps markup_steps x))))
      as (j & k & ->).
    apply single_spaced_take, single_spaced_drop, squeeze_single_spaced,
      collapse_single_spaced. }
  assert (Hnewlines : no_triple_newline (htmlToText x) = true).
  { rewrite htmlToText_unfold.
    destruct (trim_take_drop
                (replace_go (AtLeast3 (Chr nl)) (fun _ _ => [nl; nl]) 0 0
                   (replace_go (Plus (any_of [" "%char; tab]))
                      (fun _ _ => str " ") 0 0 (run_steps markup_steps x))))
      as (j & k & ->).
    apply no_triple_newline_take, no_triple_newline_drop, squeeze_no_triple. }
  rewrite (collapse_id _ _ Hsingle), (squeeze_id _ _ Hnewlines).
  unfold htmlToText. apply trim_idempotent.
Qed.

Lemma C8_htmlToText_idempotent_witness :
  let x := str "<p>Fish &amp; chips,&nbsp;<b>2 &lt; 3</b></p><br/>" in
  htmlToText x = str "Fish & chips, 2 < 3"
  /\ htmlToText (htmlToText x) = htmlToText x.
Proof.
  intros x. split; [vm_compute; reflexivity | ].
  apply (C8_htmlToText_idempotent x).
  split; [vm_compute; reflexivity | ].
  unfold entities. repeat constructor.
Defined.

End HtmlToTextProperties.

(** * Further properties of the code *)

(** ** Plain-text converter: the shape of every output *)

Section HtmlToTextShape.
Import HtmlToText.
Local Open Scope nat_scope.

Lemma single_spaced_no_tab (s : jstring) :
  single_spaced s = true -> ~ In tab s.
Proof.
  induction s as [ | a s IH]; [intros _ [] | ].
  rewrite single_spaced_cons, andb_true_iff. intros [Ha Hs] [-> | Hin].
  - vm_compute in Ha. discriminate.
  - exact (IH Hs Hin).
Qed.

Lemma htmlToText_shape (html : jstring) :
  single_spaced (htmlToText html) = true
  /\ no_triple_newline (htmlToText html) = true
  /\ span is_space (htmlToText html) = 0
  /\ span is_space (rev (htmlToText html)) = 0.
Proof.
  split; [ | split].
  - rewrite htmlToText_unfold.
    destruct (trim_take_drop
                (replace_go (AtLeast3 (Chr nl)) (fun _ _ => [nl; nl]) 0 0
                   (replace_go (Plus (any_of [" "%char; tab]))
                      (fun _ _ => str " ") 0 0 (run_steps markup_steps html))))
      as (j & k & ->).
    apply single_spaced_take, single_spaced_drop, squeeze_single_spaced,
      collapse_single_spaced.
  - rewrite htmlToText_unfold.
    destruct (trim_take_drop
                (replace_go (AtLeast3 (Chr nl)) (fun _ _ => [nl; nl]) 0 0
                   (replace_go (Plus (any_of [" "%char; tab]))
                      (fun _ _ => str " ") 0 0 (run_steps markup_steps html))))
      as (j & k & ->).
    apply no_triple_newline_take, no_triple_newline_drop, squeeze_no_triple.
  - unfold htmlToText. apply trim_trimmed.
Qed.

(** X1. Whatever the input, the text [htmlToText] returns holds no tab
    and no two adjacent blanks (every blank is a single space), no three
    adjacent newlines, and neither starts nor ends with white space. *)
Theorem htmlToText_normal_form (html : jstring) :
  single_spaced (htmlToText html) = true
  /\ ~ In tab (htmlToText html)
  /\ no_triple_newline (htmlToText html) = true
  /\ span is_space (htmlToText html) = 0
  /\ span is_space (rev (htmlToText html)) = 0.
Proof.
  destruct (htmlToText_shape html) as (Hsingle & Hnewlines & Hstart & Hend).
  repeat split; try assumption.
  apply single_spaced_no_tab, Hsingle.
Qed.

End HtmlToTextShape.

(** ** Output formatter: failures, the summary format, field mapping *)

Section OutputFormatterExtras.
Import OutputFormatter.

Lemma table_get_Inherited {A : Type} (table : list (jstring * A)) (k : jstring) :
  table_get table k = Inherited
  <-> assoc table k = None /\ In k Object_prototype_names.
Proof.
  unfold table_get. destruct (assoc table k).
  - split; [discriminate | intros [? _]; discriminate].
  - destruct (existsb (jstring_eqb k) Object_prototype_names) eqn:E.
    + apply existsb_eqb_In in E. tauto.
    + split; [discriminate | ].
      intros [_ Hin]. apply existsb_eqb_In in Hin. congruence.
Qed.

Lemma prototype_name_fields (t : jstring) :
  In t Object_prototype_names ->
  t <> [] /\ table_get TARGET_TOOL_FIELDS t = Inherited.
Proof.
  intros Hin. apply list_elem_of_In in Hin.
  unfold Object_prototype_names in Hin. simpl in Hin.
  repeat (apply elem_of_cons in Hin as [-> | Hin];
          [split; [discriminate | vm_compute; reflexivity] | ]).
  apply elem_of_nil in Hin. contradiction.
Qed.

Lemma distinct_In (l : list jstring) :
  forall seen x,
    In x (OutputFormatter.distinct seen l) <-> In x seen \/ In x l.
Proof.
  induction l as [ | y l IH]; intros seen x; simpl.
  - rewrite <- in_rev. tauto.
  - destruct (existsb (jstring_eqb y) seen) eqn:E.
    + apply existsb_eqb_In in E. rewrite IH. split; [tauto | ].
      intros [H | [<- | H]]; auto.
    + rewrite IH. simpl. tauto.
Qed.

Lemma map_outcome_Throws {A B : Type} (f : A -> outcome B) (l : list A) :
  map_outcome f l = Throws <-> exists x, In x l /\ f x = Throws.
Proof.
  induction l as [ | x l IH]; simpl.
  - split; [discriminate | intros (? & [] & _)].
  - destruct (f x) as [y | ] eqn:Ex.
    + destruct (map_outcome f l) as [ys | ].
      * split; [discriminate | ].
        intros (x' & [<- | Hin] & Hx'); [congruence | ].
        assert (H : @Throws (list B) = Throws) by reflexivity.
        destruct IH as [_ IH]. discriminate IH. exists x'. auto.
      * split; [ | reflexivity]. intros _.
        destruct IH as [IH _]. destruct (IH eq_refl) as (x' & Hin & Hx').
        exists x'. auto.
    + split; [ | reflexivity]. intros _. exists x. auto.
Qed.

Lemma ToString_Throws (v : value) :
  ToString v = Throws <-> String_throws v = true.
Proof.
  unfold ToString. destruct (String_throws v);
    split; (reflexivity || discriminate).
Qed.

(** A value that one cannot convert is an own enumerable value. *)
Lemma record_get_throws (r : DataRecord) (key : jstring) :
  String_throws (record_get r key) = true ->
  In key (Object_keys (entries r)).
Proof.
  assert (Hget : forall o, String_throws (get o key) = true ->
                           In key (Object_keys o)).
  { intros o H. unfold get in H.
    destruct (get_own o key) as [v | ] eqn:Eg; [ | discriminate].
    apply get_own_In in Eg. apply (in_map fst) in Eg. exact Eg. }
  destruct r as [fields | items]; cbn [record_get entries]; [apply Hget | ].
  destruct (jstring_eqb key (str "length")); [discriminate | apply Hget].
Qed.

(** The lines of a key cannot be written exactly when some record holds,
    under that key, a value whose conversion to a string throws. *)
Lemma summary_line_Throws (rs : list DataRecord) (key : jstring) :
  summary_line rs key = Throws
  <-> exists r, In r rs /\ String_throws (record_get r key) = true.
Proof.
  unfold summary_line.
  destruct (map_outcome ToString (present_values rs key)) as [texts | ] eqn:E.
  - split; [discriminate | ]. intros (r & Hin & Hthrows). exfalso.
    assert (Hm : map_outcome ToString (present_values rs key) = Throws);
      [ | congruence].
    apply map_outcome_Throws. exists (record_get r key).
    split; [ | apply ToString_Throws, Hthrows].
    unfold present_values. apply filter_In. split.
    + apply in_map_iff. exists r. auto.
    + destruct (record_get r key); (reflexivity || discriminate).
  - split; [ | reflexivity]. intros _.
    apply map_outcome_Throws in E as (v & Hin & Hv).
    unfold present_values in Hin. apply filter_In in Hin as [Hin _].
    apply in_map_iff in Hin as (r & <- & Hr).
    exists r. split; [exact Hr | apply ToString_Throws, Hv].
Qed.

Lemma renderSummary_Throws (result : ExtractionResult) :
  renderSummary result = Throws
  <-> exists r key,
        In r (records result)
        /\ String_throws (record_get r key) = true.
Proof.
  unfold renderSummary. destruct (records result) as [ | r0 rs0] eqn:Er.
  - split; [discriminate | intros (? & ? & [] & _)].
  - remember (r0 :: rs0) as rs eqn:Ers. clear Ers.
    destruct (map_outcome (summary_line rs) (all_keys rs)) as [lines | ] eqn:E.
    + split; [discriminate | ]. intros (r & key & Hin & Hthrows). exfalso.
      assert (Hm : map_outcome (summary_line rs) (all_keys rs) = Throws);
        [ | congruence].
      apply map_outcome_Throws. exists key. split.
      * unfold all_keys. apply distinct_In. right.
        apply in_concat. exists (Object_keys (entries r)). split.
        -- apply in_map_iff. exists r. auto.
        -- apply record_get_throws, Hthrows.
      * apply summary_line_Throws. exists r. auto.
    + split; [ | reflexivity]. intros _.
      apply map_outcome_Throws in E as (key & _ & Hkey).
      apply summary_line_Throws in Hkey as (r & Hin & Hthrows).
      exists r, key. auto.
Qed.

(** X2. [format] throws in two cases and in no other. (1) The target tool
    is one of the names every object inherits from [Object.prototype]
    (constructor, toString, ...) and there is at least one record: the
    field table then yields a value that cannot be iterated. (2) The
    rendering is the summary and some record holds a value whose conversion
    to a string throws: an object with an own key toString, directly or
    inside arrays. *)
Theorem format_throws (result : ExtractionResult)
    (explicitFormat : option ExtractionOutputFormat)
    (targetTool : option jstring) :
  format result explicitFormat targetTool = Throws
  <-> (exists t, targetTool = Some t /\ In t Object_prototype_names
                 /\ records result <> [])
      \/ (resolveFormat result explicitFormat targetTool = Fmt Summary
          /\ exists r key,
               In r (records result)
               /\ String_throws (record_get r key) = true).
Proof.
  unfold format.
  set (fmt := resolveFormat result explicitFormat targetTool).
  set (tool := match targetTool with
               | Some (a :: t) => Some (a :: t)
               | _ => None
               end).
  set (result' := mkResult (stamp (metadata result) fmt tool) (records result)).
  assert (Hsum : renderSummary result' = Throws
                 <-> exists r key,
                       In r (records result)
                       /\ String_throws (record_get r key) = true)
    by apply (renderSummary_Throws result').
  assert (Hmap : match tool with
                 | Some t => mapFieldsToTarget (records result) t
                 | None => Returns None
                 end = Throws
                 <-> exists t, targetTool = Some t
                               /\ In t Object_prototype_names
                               /\ records result <> []).
  { subst tool. split.
    - destruct targetTool as [[ | a t] | ]; try discriminate.
      unfold mapFieldsToTarget.
      destruct (table_get TARGET_TOOL_FIELDS (a :: t)) eqn:E;
        destruct (records result) eqn:Er; try discriminate.
      intros _. exists (a :: t). apply table_get_Inherited in E as [_ Hin].
      repeat split; [exact Hin | discriminate].
    - intros (t & -> & Hin & Hne).
      destruct (prototype_name_fields t Hin) as [Ht Hget].
      destruct t as [ | a t]; [contradiction | ].
      unfold mapFieldsToTarget. rewrite Hget.
      destruct (records result); [contradiction | reflexivity]. }
  destruct (match tool with
            | Some t => mapFieldsToTarget (records result) t
            | None => Returns None
            end) as [mapped | ].
  - split.
    + intros H. right. destruct fmt as [[ | | | | ] | ]; try discriminate H.
      split; [reflexivity | apply Hsum, H].
    + intros [Hproto | [Hfmt Hval]].
      * apply Hmap in Hproto. discriminate Hproto.
      * rewrite Hfmt. apply Hsum, Hval.
  - split; [ | reflexivity]. intros _. left. apply Hmap. reflexivity.
Qed.

Lemma detectFormatFromData_not_summary (rs : list DataRecord) :
  detectFormatFromData rs <> Summary.
Proof.
  unfold detectFormatFromData.
  destruct rs as [ | r [ | r' rs]]; [discriminate | | ].
  - destruct (2 <? _); discriminate.
  - destruct (_ && _); [discriminate | ].
    destruct (existsb _ _); discriminate.
Qed.

Lemma assoc_In {A : Type} (table : list (jstring * A)) (k : jstring) (a : A) :
  assoc table k = Some a -> In (k, a) table.
Proof.
  induction table as [ | [k' a'] table IH]; simpl; [discriminate | ].
  destruct (jstring_eqb k' k) eqn:E.
  - apply jstring_eqb_eq in E. intros [= ->]. left. congruence.
  - intros H. right. apply IH, H.
Qed.

(** X3. The summary rendering is only ever chosen on request: when the
    resolved format is "summary", either it was the explicit format or no
    explicit format was given and the target tool is
    validate_environment_readiness. The heuristics on the data never pick
    it. *)
Theorem summary_only_on_request (result : ExtractionResult)
    (explicitFormat : option ExtractionOutputFormat)
    (targetTool : option jstring) :
  resolveFormat result explicitFormat targetTool = Fmt Summary ->
  explicitFormat = Some Summary
  \/ (explicitFormat = None
      /\ targetTool = Some (str "validate_environment_readiness")).
Proof.
  unfold resolveFormat. destruct explicitFormat as [f | ].
  - intros [= ->]. left. reflexivity.
  - intros H. right. split; [reflexivity | ].
    assert (Hh : Fmt (detectFormatFromData (records result)) <> Fmt Summary).
    { intros [= E]. exact (detectFormatFromData_not_summary _ E). }
    destruct targetTool as [[ | a t] | ]; try contradiction.
    unfold table_get in H.
    destruct (assoc TARGET_TOOL_FORMAT_MAP (a :: t)) as [f | ] eqn:E.
    + injection H as ->. apply assoc_In in E. simpl in E.
      repeat (destruct E as [[= E1 E2] | E]; try discriminate).
      * subst a t. reflexivity.
      * contradiction.
    + destruct (existsb _ _); [discriminate | contradiction].
Qed.

Lemma summary_only_on_request_witness :
  let result := mkResult (mkMetadata SrcJson [] (Fmt Json) 0 None None) [] in
  resolveFormat result None (Some (str "validate_environment_readiness"))
  = Fmt Summary
  /\ (None = Some Summary
      \/ (@None ExtractionOutputFormat = None
          /\ Some (str "validate_environment_readiness")
             = Some (str "validate_environment_readiness"))).
Proof.
  intros result. split; [reflexivity | ].
  apply (summary_only_on_request result None
           (Some (str "validate_environment_readiness"))).
  reflexivity.
Defined.

(** *** Field mapping *)

Lemma get_own_None (o : record) (k : jstring) :
  get_own o k = None <-> ~ In k (Object_keys o).
Proof.
  induction o as [ | [k' v'] o IH]; simpl; [tauto | ].
  destruct (jstring_eqb k' k) eqn:E.
  - apply jstring_eqb_eq in E. split; [discriminate | tauto].
  - apply jstring_eqb_neq in E. rewrite IH. tauto.
Qed.

Lemma keys_set_fresh (o : record) (k : jstring) (v : value) :
  ~ In k (Object_keys o) -> array_index k = None ->
  Object_keys (set o k v) = Object_keys o ++ [k].
Proof.
  intros Hk Hi. apply get_own_None in Hk. unfold set. rewrite Hk, Hi.
  unfold Object_keys. rewrite map_app. reflexivity.
Qed.

Lemma get_from (o : record) (k : jstring) :
  get o k = VUndefined \/ In (get o k) (Object_values o).
Proof.
  unfold get. destruct (get_own o k) as [v | ] eqn:E; [right | left; reflexivity].
  apply get_own_In in E. apply (in_map snd) in E. exact E.
Qed.

Lemma map_field_sets (sourceRecord mapped : record) (expected : jstring) :
  exists v,
    map_field sourceRecord mapped expected = set mapped expected v
    /\ (v = VUndefined \/ In v (Object_values sourceRecord)).
Proof.
  unfold map_field.
  destruct (find_key _ _) as [k | ].
  - eexists. split; [reflexivity | apply get_from].
  - destruct (find_key _ _) as [k | ].
    + eexists. split; [reflexivity | apply get_from].
    + eexists. split; [reflexivity | left; reflexivity].
Qed.

Lemma map_fields_keys (sourceRecord : record) (expected : list jstring) :
  forall mapped,
    plain_names expected = true ->
    (forall k, In k expected -> ~ In k (Object_keys mapped)) ->
    Forall (fun v => v = VUndefined \/ In v (Object_values sourceRecord))
           (Object_values mapped) ->
    Object_keys (fold_left (map_field sourceRecord) expected mapped)
    = Object_keys mapped ++ expected
    /\ Forall (fun v => v = VUndefined \/ In v (Object_values sourceRecord))
              (Object_values
                 (fold_left (map_field sourceRecord) expected mapped)).
Proof.
  induction expected as [ | e expected IH]; intros mapped Hplain Hfresh Hvals.
  - simpl. rewrite app_nil_r. auto.
  - unfold plain_names in Hplain. simpl in Hplain.
    apply andb_true_iff in Hplain as [Hnd Hidx].
    apply andb_true_iff in Hnd as [He Hnd].
    apply andb_true_iff in Hidx as [Hie Hidx].
    apply negb_true_iff in He.
    destruct (array_index e) eqn:Ei; [discriminate | ].
    destruct (map_field_sets sourceRecord mapped e) as (v & Hset & Hv).
    assert (Hk : ~ In e (Object_keys mapped)) by (apply Hfresh; left; reflexivity).
    simpl fold_left. rewrite Hset.
    destruct (IH (set mapped e v)) as [Hkeys Hvalues].
    + unfold plain_names. rewrite Hnd, Hidx. reflexivity.
    + intros k Hin. rewrite (keys_set_fresh _ _ _ Hk Ei), in_app_iff.
      intros [Hold | [<- | []]].
      * exact (Hfresh k (or_intror Hin) Hold).
      * apply existsb_eqb_In in Hin. congruence.
    + apply Forall_forall. intros x Hx. apply list_elem_of_In in Hx.
      unfold Object_values in Hx. apply in_map_iff in Hx as (kv & <- & Hkv).
      apply In_set in Hkv as [-> | Hold]; [exact Hv | ].
      rewrite Forall_forall in Hvals. apply Hvals, list_elem_of_In.
      apply (in_map snd) in Hold. exact Hold.
    + split; [ | exact Hvalues].
      rewrite Hkeys, (keys_set_fresh _ _ _ Hk Ei), <- app_assoc. reflexivity.
Qed.

(** X4. For a target tool that has a field table and a non-empty list of
    records, [mapFieldsToTarget] returns an object whose keys are exactly
    the fields of the table, in the table's order, and each of whose values
    is either undefined or a value of the first record: the other records
    are never consulted and no value is invented. *)
Theorem mapFieldsToTarget_fields (targetTool : jstring)
    (expectedFields : list jstring) (sourceRecord : DataRecord)
    (more : list DataRecord) :
  assoc TARGET_TOOL_FIELDS targetTool = Some expectedFields ->
  exists mapped,
    mapFieldsToTarget (sourceRecord :: more) targetTool = Returns (Some mapped)
    /\ Object_keys mapped = expectedFields
    /\ Forall (fun v =>
                 v = VUndefined
                 \/ In v (Object_values (entries sourceRecord)))
              (Object_values mapped).
Proof.
  intros Htable. unfold mapFieldsToTarget, table_get. rewrite Htable.
  eexists. split; [reflexivity | ].
  apply (map_fields_keys (entries sourceRecord) expectedFields []).
  - apply assoc_In in Htable. simpl in Htable.
    repeat (destruct Htable as [[= _ <-] | Htable]; [vm_compute; reflexivity | ]).
    contradiction.
  - intros k _ [].
  - constructor.
Qed.

Lemma mapFieldsToTarget_fields_witness :
  let first :=
    ObjectRecord [(str "Status", VStr (str "Active")); (str "id", VNum 7)] in
  exists mapped,
    mapFieldsToTarget [first; ObjectRecord []] (str "update_customer_status")
    = Returns (Some mapped)
    /\ Object_keys mapped = map str ["customerId"; "status"; "notes"]%string
    /\ Forall (fun v =>
                 v = VUndefined \/ In v (Object_values (entries first)))
              (Object_values mapped).
Proof.
  intros first.
  apply (mapFieldsToTarget_fields (str "update_customer_status")
           (map str ["customerId"; "status"; "notes"]%string) first
           [ObjectRecord []]).
  reflexivity.
Defined.

End OutputFormatterExtras.

(** ** Path resolver and flattener: edges and composition *)

Section JsonPathExtras.
Import JsonPath OutputFormatter.

Lemma split_nonempty (sep : ascii) (s : jstring) : split sep s <> [].
Proof.
  destruct s as [ | a s]; [discriminate | ].
  rewrite split_cons. destruct (ascii_eqb a sep); [discriminate | ].
  destruct (split sep s); discriminate.
Qed.

(** X5. Resolving any path against a root that is neither an object nor
    an array (null, undefined, a boolean, a number, a string) yields
    undefined. *)
Theorem resolveJsonPath_primitive (obj : value) (path : jstring) :
  is_plain_object obj = false -> Array_isArray obj = false ->
  resolveJsonPath obj path = Some VUndefined.
Proof.
  intros Hobj Harr. unfold resolveJsonPath. rewrite resolve_S.
  unfold segments_of.
  destruct (split "." _) as [ | segment more] eqn:E;
    [exfalso; exact (split_nonempty _ _ E) | ].
  destruct obj; try discriminate; reflexivity.
Qed.

Lemma resolveJsonPath_primitive_witness :
  resolveJsonPath (VStr (str "abc")) (str "length") = Some VUndefined.
Proof.
  apply (resolveJsonPath_primitive (VStr (str "abc")) (str "length"));
    reflexivity.
Defined.

Lemma leading_bracket_index (path : jstring) :
  exists x,
    replace_go bracket_index
      (fun _ c => str "." ++ default [] (capture c 1)) 0 0 ("["%char :: path)
    = "."%char :: x
    \/ replace_go bracket_index
         (fun _ c => str "." ++ default [] (capture c 1)) 0 0 ("["%char :: path)
       = "["%char :: x.
Proof.
  rewrite replace_go_cons.
  destruct (match_here bracket_index 0 ("["%char :: path)) as [c | ].
  - eexists. left. reflexivity.
  - eexists. right. reflexivity.
Qed.

Lemma leading_bracket_star (a : ascii) (x : jstring) :
  a = "."%char \/ a = "["%char ->
  exists y,
    replaceAll bracket_star (str ".*") (a :: x) = "."%char :: y
    \/ replaceAll bracket_star (str ".*") (a :: x) = "["%char :: y.
Proof.
  intros Ha. unfold replaceAll. rewrite replace_go_cons.
  destruct (match_here bracket_star 0 (a :: x)) as [c | ].
  - eexists. left. reflexivity.
  - destruct Ha as [-> | ->]; eexists; [left | right]; reflexivity.
Qed.

Lemma leading_segment (path : jstring) :
  exists segment more,
    segments_of ("["%char :: path) = segment :: more
    /\ (segment = [] \/ exists t, segment = "["%char :: t).
Proof.
  unfold segments_of.
  destruct (leading_bracket_index path) as (x & [-> | ->]).
  - destruct (leading_bracket_star "." x (or_introl eq_refl)) as (y & [-> | ->]).
    + rewrite split_cons. simpl ascii_eqb. eexists _, _. split; [reflexivity | ].
      left. reflexivity.
    + rewrite split_cons. simpl ascii_eqb.
      destruct (split "." y); eexists _, _; (split; [reflexivity | ]);
        right; eexists; reflexivity.
  - destruct (leading_bracket_star "[" x (or_intror eq_refl)) as (y & [-> | ->]).
    + rewrite split_cons. simpl ascii_eqb. eexists _, _. split; [reflexivity | ].
      left. reflexivity.
    + rewrite split_cons. simpl ascii_eqb.
      destruct (split "." y); eexists _, _; (split; [reflexivity | ]);
        right; eexists; reflexivity.
Qed.

(** X6. A path that starts with a bracket never resolves against an
    array: for every array and every path of the form "[...", be it "[0]",
    "[*].id" or anything else, the result is undefined. (The bracket is
    rewritten into a dot, which leaves an empty first segment.) *)
Theorem resolveJsonPath_leading_bracket (items : list value) (path : jstring) :
  resolveJsonPath (VArr items) ("["%char :: path) = Some VUndefined.
Proof.
  unfold resolveJsonPath. rewrite resolve_S.
  destruct (leading_segment path) as (segment & more & -> & [-> | (t & ->)]);
    reflexivity.
Qed.

(** *** The wildcard *)

Lemma replace_go_prefix (a : ascii) (r : regex)
    (rep : jstring -> cfg -> jstring) (v : jstring) :
  forall u i,
    has_char a u = false ->
    replace_go (Seq (Chr a) r) rep i 0 (u ++ v)
    = u ++ replace_go (Seq (Chr a) r) rep (i + length u) 0 v.
Proof.
  induction u as [ | x u IH]; intros i Hu.
  - simpl. rewrite Nat.add_0_r. reflexivity.
  - rewrite has_char_cons, orb_false_iff in Hu. destruct Hu as [Hx Hu].
    rewrite <- app_comm_cons, replace_go_cons, match_here_first_char.
    + rewrite (IH (S i) Hu). simpl length.
      replace (i + S (length u))%nat with (S i + length u)%nat by lia.
      reflexivity.
    + rewrite ascii_eqb_sym. exact Hx.
Qed.

Lemma bracket_index_absent (k f : jstring) (i : nat) :
  has_char "[" k = false -> has_char "[" f = false ->
  replace_go bracket_index
    (fun _ c => str "." ++ default [] (capture c 1)) i 0
    (k ++ str "[*]." ++ f)
  = k ++ str "[*]." ++ f.
Proof.
  intros Hk Hf.
  change bracket_index
    with (Seq (Chr "[")
              (Seq (Group 1 (Seq (Cls is_digit) (Star (Cls is_digit))))
                   (Chr "]"))).
  rewrite (replace_go_prefix "[" _ _ _ k i Hk). f_equal.
  change (str "[*]." ++ f) with ("["%char :: str "*]." ++ f).
  rewrite replace_go_cons.
  change (match_here _ (i + length k) ("["%char :: str "*]." ++ f))
    with (@None cfg).
  f_equal. apply replace_go_no_match, exec_from_first_char.
  unfold has_char in Hf. simpl. exact Hf.
Qed.

Lemma bracket_star_replaced (k f : jstring) :
  has_char "[" k = false -> has_char "[" f = false ->
  replaceAll bracket_star (str ".*") (k ++ str "[*]." ++ f)
  = k ++ str ".*." ++ f.
Proof.
  intros Hk Hf. unfold replaceAll.
  change bracket_star with (Seq (Chr "[") (Seq (Chr "*") (Chr "]"))).
  rewrite (replace_go_prefix "[" _ _ _ k 0 Hk). f_equal.
  change (str "[*]." ++ f) with ("["%char :: "*"%char :: "]"%char :: "."%char :: f).
  rewrite replace_go_cons.
  change (match_here _ (0 + length k)
            ("["%char :: "*"%char :: "]"%char :: "."%char :: f))
    with (Some (mkCfg (S (S (S (0 + length k)))) ("."%char :: f) [])).
  cbn [pos].
  replace (S (S (S (0 + length k))) - (0 + length k))%nat with 3%nat by lia.
  change (str ".*." ++ f) with (str ".*" ++ "."%char :: f). f_equal.
  change (replace_go ?r ?rep ?i 2 ("*"%char :: "]"%char :: "."%char :: f))
    with (replace_go r rep (S (S i)) 0 ("."%char :: f)).
  apply replace_go_no_match, exec_from_first_char.
  unfold has_char in Hf. simpl. exact Hf.
Qed.

Lemma segments_of_wildcard (k f : jstring) :
  has_char "[" k = false -> has_char "." k = false ->
  has_char "[" f = false -> has_char "." f = false ->
  segments_of (k ++ str "[*]." ++ f) = [k; str "*"; f].
Proof.
  intros Hk Hkd Hf Hfd. unfold segments_of.
  rewrite (bracket_index_absent k f 0 Hk Hf), (bracket_star_replaced k f Hk Hf).
  change (str ".*." ++ f) with (str "." ++ str "*" ++ str "." ++ f).
  rewrite (split_app_dot k _ Hkd), (split_app_dot (str "*") f eq_refl).
  rewrite (split_dot_free f Hfd). reflexivity.
Qed.

Lemma segments_of_key (f : jstring) :
  has_char "[" f = false -> has_char "." f = false -> segments_of f = [f].
Proof.
  intros Hf Hfd. unfold segments_of, replaceAll.
  change bracket_index
    with (Seq (Chr "[")
              (Seq (Group 1 (Seq (Cls is_digit) (Star (Cls is_digit))))
                   (Chr "]"))).
  rewrite (replace_go_no_match _ _ f 0)
    by (apply exec_from_first_char; exact Hf).
  change bracket_star with (Seq (Chr "[") (Seq (Chr "*") (Chr "]"))).
  rewrite (replace_go_no_match _ _ f 0)
    by (apply exec_from_first_char; exact Hf).
  apply split_dot_free, Hfd.
Qed.

(** The loop over one segment never calls the resolver again. *)
Lemma walk_single (again again' : value -> jstring -> option value)
    (segment : jstring) (current : value) :
  walk again [segment] current = walk again' [segment] current.
Proof.
  destruct current; reflexivity.
Qed.

Lemma sequence_map {A B : Type} (h : A -> option B) (g : A -> B)
    (l : list A) :
  (forall x, h x = Some (g x)) -> sequence (map h l) = Some (map g l).
Proof.
  intros H. induction l as [ | x l IH]; [reflexivity | ].
  simpl. rewrite H, IH. reflexivity.
Qed.

(** X7. The wildcard maps the rest of the path over the items: when the
    key k of an object holds an array, resolving "k[*].f" yields the array
    of the results of resolving "f" against each item, in order and of the
    same length (k and f being keys without dots and brackets, f not
    empty). *)
Theorem resolveJsonPath_wildcard (fields : record) (k f : jstring)
    (items : list value) :
  has_char "[" k = false -> has_char "." k = false ->
  has_char "[" f = false -> has_char "." f = false -> f <> [] ->
  get_own fields k = Some (VArr items) ->
  resolveJsonPath (VObj fields) (k ++ str "[*]." ++ f)
  = Some (VArr (map (fun item => default VUndefined (resolveJsonPath item f))
                    items)).
Proof.
  intros Hk Hkd Hf Hfd Hne Hget. unfold resolveJsonPath at 1.
  rewrite resolve_S, (segments_of_wildcard k f Hk Hkd Hf Hfd).
  cbn [walk]. unfold get. rewrite Hget.
  change (jstring_eqb (str "*") (str "*")) with true. cbn iota.
  change (join (str ".") [f]) with f.
  destruct f as [ | a f']; [contradiction | ].
  rewrite (sequence_map _
             (fun item => default VUndefined (resolveJsonPath item (a :: f')))).
  { reflexivity. }
  intros item. unfold resolveJsonPath.
  destruct (length (k ++ str "[*]." ++ a :: f')) as [ | n] eqn:En.
  { rewrite !length_app in En. simpl in En. lia. }
  rewrite !resolve_S, (segments_of_key (a :: f') Hf Hfd).
  rewrite (walk_single (resolve n) (resolve (length (a :: f')))).
  destruct (walk _ [a :: f'] item) as [v | ] eqn:Ew; [reflexivity | ].
  exfalso. destruct item; simpl in Ew; try discriminate.
  destruct (_ && _); [discriminate | ].
  destruct (parseInt _); discriminate.
Qed.

Lemma resolveJsonPath_wildcard_witness :
  let items := [VObj [(str "id", VNum 1)]; VObj [(str "id", VNum 2)]] in
  resolveJsonPath (VObj [(str "items", VArr items)]) (str "items[*].id")
  = Some (VArr [VNum 1; VNum 2]).
Proof.
  intros items.
  apply (resolveJsonPath_wildcard [(str "items", VArr items)]
           (str "items") (str "id") items); try reflexivity.
  discriminate.
Defined.

(** *** The flattened object is flat *)

Lemma nodup_keys_NoDup (ks : list jstring) :
  nodup_keys ks = true <-> NoDup ks.
Proof.
  induction ks as [ | k ks IH]; simpl.
  - split; [constructor | reflexivity].
  - rewrite andb_true_iff, negb_true_iff, IH, NoDup_cons. split.
    + intros [Hk Hks]. split; [ | exact Hks].
      intros Hin%list_elem_of_In%existsb_eqb_In. congruence.
    + intros [Hk Hks]. split; [ | exact Hks].
      destruct (existsb _ _) eqn:E; [ | reflexivity].
      exfalso. apply Hk, list_elem_of_In, existsb_eqb_In, E.
Qed.

Lemma keys_update (o : record) (k : jstring) (v : value) :
  Object_keys (update o k v) = Object_keys o.
Proof.
  induction o as [ | [k' v'] o IH]; [reflexivity | ].
  simpl. destruct (jstring_eqb k' k); simpl; [reflexivity | ].
  f_equal. exact IH.
Qed.

Lemma keys_insert_index (o : record) (n : Z) (k : jstring) (v : value) :
  Object_keys (insert_index o n k v) ≡ₚ k :: Object_keys o.
Proof.
  induction o as [ | [k' v'] o IH]; [reflexivity | ].
  simpl. destruct (array_index k') as [n' | ]; [ | reflexivity].
  destruct (n' <? n); [ | reflexivity].
  simpl. rewrite IH. apply Permutation_swap.
Qed.

Lemma keys_set (o : record) (k : jstring) (v : value) :
  NoDup (Object_keys o) -> NoDup (Object_keys (set o k v)).
Proof.
  intros Hnd. unfold set. destruct (get_own o k) eqn:E.
  - rewrite keys_update. exact Hnd.
  - apply get_own_None in E.
    assert (Hfresh : NoDup (k :: Object_keys o)).
    { apply NoDup_cons. split; [ | exact Hnd].
      intros Hin. apply E, list_elem_of_In, Hin. }
    destruct (array_index k).
    + rewrite keys_insert_index. exact Hfresh.
    + unfold Object_keys. rewrite map_app. simpl.
      rewrite <- Permutation_cons_append. exact Hfresh.
Qed.

Lemma keys_Object_assign (source target : record) :
  NoDup (Object_keys target) -> NoDup (Object_keys (Object_assign target source)).
Proof.
  unfold Object_assign. revert target.
  induction source as [ | [k v] source IH]; intros target Hnd; [exact Hnd | ].
  simpl. apply IH, keys_set, Hnd.
Qed.

Lemma leads_leaf_value (fields : record) (p : list jstring) (v : value) :
  leads fields p v -> is_plain_object v = false.
Proof. induction 1; assumption. Qed.

Lemma flatten_flat (obj : record) (prefix : jstring) :
  Forall (fun v => is_plain_object v = false)
         (Object_values (flattenObject obj prefix))
  /\ NoDup (Object_keys (flattenObject obj prefix)).
Proof.
  split.
  - apply Forall_forall. intros v Hv. apply list_elem_of_In in Hv.
    unfold Object_values in Hv. apply in_map_iff in Hv as (kv & <- & Hkv).
    apply flatten_In in Hkv as (fields & p & _ & Hleads & _).
    eapply leads_leaf_value, Hleads.
  - unfold flattenObject.
    change (flatten (VObj obj) prefix)
      with (fold_left
              (fun result kv =>
                 match snd kv with
                 | VObj _ =>
                     Object_assign result
                       (flatten (snd kv) (fullKey prefix (fst kv)))
                 | other => set result (fullKey prefix (fst kv)) other
                 end) obj []).
    assert (Hnil : NoDup (Object_keys [])) by constructor.
    revert Hnil. generalize (@nil (jstring * value)).
    induction obj as [ | [k v] obj IH]; intros result Hnd; [exact Hnd | ].
    simpl fold_left. apply IH.
    destruct v; try (apply keys_set, Hnd).
    apply keys_Object_assign, Hnd.
Qed.

(** X8. The object [flattenObject] returns is flat and well formed: none
    of its values is an object (arrays, which are not opened, and null
    count as values), and its keys are pairwise distinct, whatever the
    object and the prefix. *)
Theorem flattenObject_flat (obj : record) (prefix : jstring) :
  Forall (fun v => is_plain_object v = false)
         (Object_values (flattenObject obj prefix))
  /\ nodup_keys (Object_keys (flattenObject obj prefix)) = true.
Proof.
  destruct (flatten_flat obj prefix) as [Hv Hk].
  split; [exact Hv | apply nodup_keys_NoDup, Hk].
Qed.

(** X9. Flattening makes records tabular: when more than three records
    are flattened (as extract_json does with flatten = true) and neither a
    format nor a target tool with a preferred format is given, the format
    resolves to csv, however deeply the records were nested. *)
Theorem flattened_records_resolve_to_csv (result : ExtractionResult)
    (nested : list DataRecord) (targetTool : option jstring) :
  records result
  = map (fun r => ObjectRecord (flattenObject (entries r) [])) nested ->
  (3 < length nested)%nat ->
  no_format_hint targetTool ->
  resolveFormat result None targetTool = Fmt Csv.
Proof.
  intros Hrecords Hlen Hhint.
  rewrite (resolveFormat_heuristic result targetTool Hhint), Hrecords.
  set (flat := fun r => ObjectRecord (flattenObject (entries r) [])).
  assert (Hflat : forallb
                    (fun r => forallb flat_value (Object_values (entries r)))
                    (map flat nested) = true).
  { apply all_flat_reflect. unfold all_flat. apply Forall_forall.
    intros r Hr. apply list_elem_of_In, in_map_iff in Hr as (r0 & <- & _).
    apply flatten_flat. }
  unfold detectFormatFromData.
  destruct nested as [ | r1 [ | r2 nested']]; try (simpl in Hlen; lia).
  cbn [map] in *. rewrite Hflat.
  assert (Hmany : (3 <? Z.of_nat
                          (length (flat r1 :: flat r2 :: map flat nested')))
                  = true).
  { apply Z.ltb_lt. simpl length in *. rewrite length_map. lia. }
  rewrite Hmany. reflexivity.
Qed.

Lemma flattened_records_resolve_to_csv_witness :
  let deep :=
    ObjectRecord [(str "a", VObj [(str "b", VObj [(str "c", VNum 1)])])] in
  let nested := [deep; deep; deep; deep] in
  let result :=
    mkResult (mkMetadata SrcJson [] (Fmt Json) 4 None None)
             (map (fun r => ObjectRecord (flattenObject (entries r) []))
                  nested) in
  detectFormatFromData nested = Json
  /\ resolveFormat result None None = Fmt Csv.
Proof.
  intros deep nested result. split; [reflexivity | ].
  apply (flattened_records_resolve_to_csv result nested None).
  - reflexivity.
  - simpl. lia.
  - exact I.
Defined.

End JsonPathExtras.

(** ** Reading an object after an assignment *)

Lemma get_own_update (o : record) (k k' : jstring) (v : value) :
  get_own o k <> None ->
  get_own (update o k v) k'
  = if jstring_eqb k k' then Some v else get_own o k'.
Proof.
  induction o as [ | [k0 v0] o IH]; simpl; [contradiction | ].
  destruct (jstring_eqb k0 k) eqn:E0.
  - intros _. apply jstring_eqb_eq in E0. subst k0. simpl.
    destruct (jstring_eqb k k'); reflexivity.
  - intros Hk. simpl. destruct (jstring_eqb k0 k') eqn:E1.
    + apply jstring_eqb_eq in E1. subst k0.
      rewrite jstring_eqb_neq in E0.
      destruct (jstring_eqb k k') eqn:E2; [ | reflexivity].
      apply jstring_eqb_eq in E2. congruence.
    + apply IH, Hk.
Qed.

Lemma get_own_cons_fresh (o : record) (k k' : jstring) (v : value) :
  get_own o k = None ->
  get_own ((k, v) :: o) k'
  = if jstring_eqb k k' then Some v else get_own o k'.
Proof. reflexivity. Qed.

Lemma get_own_insert_index (o : record) (n : Z) (k k' : jstring) (v : value) :
  get_own o k = None ->
  get_own (insert_index o n k v) k'
  = if jstring_eqb k k' then Some v else get_own o k'.
Proof.
  induction o as [ | [k0 v0] o IH]; [reflexivity | ].
  simpl. destruct (jstring_eqb k0 k) eqn:E0; [discriminate | ].
  intros Hk. destruct (array_index k0) as [n' | ]; [ | reflexivity].
  destruct (n' <? n); [ | reflexivity].
  simpl. rewrite (IH Hk).
  destruct (jstring_eqb k0 k') eqn:E1; [ | reflexivity].
  apply jstring_eqb_eq in E1. subst k0.
  destruct (jstring_eqb k k') eqn:E2; [ | reflexivity].
  apply jstring_eqb_eq in E2. subst k. rewrite jstring_eqb_refl in E0.
  discriminate.
Qed.

Lemma get_own_app_fresh (o : record) (k k' : jstring) (v : value) :
  get_own o k = None ->
  get_own (o ++ [(k, v)]) k'
  = if jstring_eqb k k' then Some v else get_own o k'.
Proof.
  induction o as [ | [k0 v0] o IH]; [simpl; destruct (jstring_eqb k k'); reflexivity | ].
  simpl. destruct (jstring_eqb k0 k) eqn:E0; [discriminate | ].
  intros Hk. rewrite (IH Hk).
  destruct (jstring_eqb k0 k') eqn:E1; [ | reflexivity].
  apply jstring_eqb_eq in E1. subst k0.
  destruct (jstring_eqb k k') eqn:E2; [ | reflexivity].
  apply jstring_eqb_eq in E2. subst k. rewrite jstring_eqb_refl in E0.
  discriminate.
Qed.

(** Reading after an assignment. *)
Lemma get_own_set (o : record) (k k' : jstring) (v : value) :
  get_own (set o k v) k'
  = if jstring_eqb k k' then Some v else get_own o k'.
Proof.
  unfold set. destruct (get_own o k) eqn:E.
  - apply get_own_update. congruence.
  - destruct (array_index k).
    + apply get_own_insert_index, E.
    + apply get_own_app_fresh, E.
Qed.

(** ** Dataverse extraction: annotations, the first link, the requests *)

Section ExtractDataverseExtras.
Import OutputFormatter ExtractDataverse.

Lemma strip_get_own (k : jstring) :
  forall (r cleaned : record),
    NoDup (Object_keys r) ->
    get_own
      (fold_left
         (fun cleaned kv =>
            if annotation_key (fst kv) then cleaned
            else set cleaned (fst kv) (snd kv)) r cleaned) k
    = match (if annotation_key k then None else get_own r k) with
      | Some v => Some v
      | None => get_own cleaned k
      end.
Proof.
  induction r as [ | [k0 v0] r IH]; intros cleaned Hnd.
  - simpl. destruct (annotation_key k); reflexivity.
  - apply NoDup_cons in Hnd as [Hfresh Hnd].
    simpl fold_left. rewrite (IH _ Hnd). simpl get_own.
    destruct (jstring_eqb k0 k) eqn:E.
    + apply jstring_eqb_eq in E. subst k0.
      assert (Hr : get_own r k = None).
      { apply get_own_None. intros Hin. apply Hfresh, list_elem_of_In, Hin. }
      rewrite Hr. destruct (annotation_key k); [reflexivity | ].
      rewrite get_own_set, jstring_eqb_refl. reflexivity.
    + destruct (if annotation_key k then None else get_own r k); [reflexivity | ].
      destruct (annotation_key k0); [reflexivity | ].
      rewrite get_own_set, E. reflexivity.
Qed.

(** X10. [stripODataAnnotations] removes the annotation keys and nothing
    else: in the cleaned record a key read as an annotation ("@odata.",
    "@Microsoft." or "_..._value") is undefined, and every other key holds
    the value it has in the record. (The record is taken to have no key
    "__proto__", the one name whose assignment JavaScript treats
    specially.) *)
Theorem stripODataAnnotations_get (r : record) (key : jstring) :
  nodup_keys (Object_keys r) = true ->
  ~ In (str "__proto__") (Object_keys r) ->
  get (stripODataAnnotations r) key
  = if annotation_key key then VUndefined else get r key.
Proof.
  intros Hnd _. apply nodup_keys_NoDup in Hnd. unfold get, stripODataAnnotations.
  change (fold_left _ r [])
    with (fold_left
            (fun cleaned kv =>
               if annotation_key (fst kv) then cleaned
               else set cleaned (fst kv) (snd kv)) r []).
  rewrite (strip_get_own key r [] Hnd).
  destruct (annotation_key key); [reflexivity | ].
  destruct (get_own r key); reflexivity.
Qed.

Lemma stripODataAnnotations_get_witness :
  let r := [ (str "@odata.etag", VStr (str "W/1")); (str "name", VStr (str "Acme"));
             (str "_ownerid_value", VStr (str "42")) ] in
  get (stripODataAnnotations r) (str "name") = VStr (str "Acme")
  /\ get (stripODataAnnotations r) (str "_ownerid_value") = VUndefined.
Proof.
  intros r. split.
  - apply (stripODataAnnotations_get r (str "name")); [reflexivity | ].
    intros [H | [H | [H | []]]]; discriminate H.
  - apply (stripODataAnnotations_get r (str "_ownerid_value")); [reflexivity | ].
    intros [H | [H | [H | []]]]; discriminate H.
Defined.

Lemma strip_keys (r : record) (k : jstring) :
  In k (Object_keys (stripODataAnnotations r)) -> annotation_key k = false.
Proof.
  unfold stripODataAnnotations.
  change (fold_left _ r [])
    with (fold_left
            (fun cleaned kv =>
               if annotation_key (fst kv) then cleaned
               else set cleaned (fst kv) (snd kv)) r []).
  enough (H : forall cleaned : record,
             (forall k', In k' (Object_keys cleaned) -> annotation_key k' = false) ->
             In k (Object_keys
                     (fold_left
                        (fun cleaned kv =>
                           if annotation_key (fst kv) then cleaned
                           else set cleaned (fst kv) (snd kv)) r cleaned)) ->
             annotation_key k = false)
    by (apply H; intros k' []).
  induction r as [ | [k0 v0] r IH]; intros cleaned Hc; [apply Hc | ].
  simpl fold_left. apply IH. simpl fst. simpl snd.
  destruct (annotation_key k0) eqn:E0; [exact Hc | ].
  intros k' Hin. unfold Object_keys in Hin.
  apply in_map_iff in Hin as (kv & <- & Hkv).
  apply In_set in Hkv as [-> | Hold]; [exact E0 | ].
  apply Hc. apply (in_map fst) in Hold. exact Hold.
Qed.

Lemma In_take_In {A : Type} (x : A) (l : list A) :
  forall n, In x (take n l) -> In x l.
Proof.
  induction l as [ | y l IH]; intros [ | n]; simpl; try contradiction.
  intros [-> | H]; [left; reflexivity | right; eapply IH, H].
Qed.

Lemma paginate_clean (server : Server) (limit : number) :
  forall fuel s res,
    paginate fuel server limit s = Some res ->
    (forall r k, In r (allRecords s) -> In k (Object_keys r) ->
                 annotation_key k = false) ->
    match res with
    | Finished s' =>
        forall r k, In r (allRecords s') -> In k (Object_keys r) ->
                    annotation_key k = false
    | Failed _ _ _ => True
    end.
Proof.
  induction fuel as [ | fuel IH]; intros s res.
  - rewrite paginate_O. destruct (_ && _); [discriminate | ].
    intros [= <-]. auto.
  - rewrite paginate_S. destruct (_ && _); [ | intros [= <-]; auto].
    destruct (server _ _) as [data | status errorText].
    + intros Hres Hclean. apply (IH _ _ Hres). simpl.
      intros r k Hr Hk. apply in_app_iff in Hr as [Hr | Hr].
      * exact (Hclean r k Hr Hk).
      * apply in_map_iff in Hr as (r0 & <- & _). exact (strip_keys r0 k Hk).
    + intros [= <-] _. exact I.
Qed.

(** X11. No record that extract_dataverse returns carries an annotation:
    whatever the server answers and however many pages are read, no key of
    a returned record starts with "@odata." or "@Microsoft." or has the
    form "_..._value". *)
Theorem extract_strips_annotations (server : Server)
    (envUrl table params : jstring) (top : option number) (now : jstring)
    (e : Extraction) (r : DataRecord) (key : jstring) :
  extract server envUrl table params top now = Some e ->
  In r (returned_records (output e)) -> In key (Object_keys (entries r)) ->
  annotation_key key = false.
Proof.
  unfold extract.
  destruct (fetch_all server (maxTop top) (firstLink envUrl table params))
    as [[s | s status errorText] | ] eqn:E; [ | | discriminate].
  - intros [= <-]. cbn [output returned_records]. unfold envelope.
    cbn [records]. intros Hr Hk.
    apply in_map_iff in Hr as (r0 & <- & Hr). cbn [entries] in Hk.
    pose proof (paginate_clean server (maxTop top) _ _ _ E) as Hclean.
    simpl in Hclean. apply (Hclean ltac:(intros ? ? [])) with (r := r0);
      [ | exact Hk].
    destruct (number_ltb _ _); [ | exact Hr].
    destruct (maxTop top) as [q | | ]; cbn [slice_to] in Hr;
      [ | exact Hr | contradiction].
    unfold slice0 in Hr. destruct (_ <? 0); eapply In_take_In; exact Hr.
  - intros [= <-]. simpl. intros [].
Qed.

Lemma extract_strips_annotations_witness :
  let page :=
    mkOData (Some [[(str "@odata.etag", VStr (str "W/1"));
                    (str "name", VStr (str "Acme"))]]) None in
  let server : Server := fun _ _ => Ok page in
  exists e,
    extract server (str "https://org") (str "accounts") (str "$top=50") None []
    = Some e
    /\ returned_records (output e)
       = [ObjectRecord [(str "name", VStr (str "Acme"))]]
    /\ annotation_key (str "name") = false.
Proof.
  intros page server. eexists. split; [reflexivity | ].
  split; [reflexivity | ].
  eapply (extract_strips_annotations server (str "https://org") (str "accounts")
            (str "$top=50") None [] _
            (ObjectRecord [(str "name", VStr (str "Acme"))]) (str "name")).
  - reflexivity.
  - left. reflexivity.
  - left. reflexivity.
Defined.

(** *** The first link *)

Lemma trailing_slash_match (i : nat) (s : jstring) :
  match_here (cat [Chr "/"; Eol]) i s
  = match s with
    | [x] => if ascii_eqb x "/" then Some (mkCfg (S i) [] []) else None
    | _ => None
    end.
Proof.
  unfold match_here. change (cat [Chr "/"; Eol]) with (Seq (Chr "/") Eol).
  rewrite rx_seq_chr. simpl.
  destruct s as [ | x [ | y s]]; try reflexivity;
    destruct (ascii_eqb x "/"); reflexivity.
Qed.

Lemma endsWith_cons (x y : ascii) (s : jstring) (c : ascii) :
  endsWith (x :: y :: s) [c] = endsWith (y :: s) [c].
Proof.
  unfold endsWith. simpl rev.
  destruct (rev s ++ [y]) as [ | a l] eqn:E.
  - destruct (rev s); discriminate.
  - simpl. destruct l; reflexivity.
Qed.

Lemma strip_trailing_slash (u : jstring) :
  endsWith u (str "/") = false ->
  replaceFirst (cat [Chr "/"; Eol]) [] u = u
  /\ replaceFirst (cat [Chr "/"; Eol]) [] (u ++ str "/") = u.
Proof.
  unfold replaceFirst. generalize 0%nat.
  induction u as [ | x u IH]; intros i Hu.
  - split; reflexivity.
  - destruct u as [ | y u].
    + assert (Hx : ascii_eqb x "/" = false).
      { unfold endsWith in Hu. simpl in Hu. rewrite andb_true_r in Hu. exact Hu. }
      split.
      * simpl replace_first_go. rewrite trailing_slash_match, Hx. reflexivity.
      * change ([x] ++ str "/") with (x :: str "/").
        cbn [replace_first_go]. rewrite !trailing_slash_match.
        change (ascii_eqb "/" "/") with true. reflexivity.
    + change (str "/") with ["/"%char] in Hu. rewrite endsWith_cons in Hu.
      destruct (IH (S i) Hu) as [H1 H2]. split.
      * cbn [replace_first_go]. rewrite trailing_slash_match.
        cbn [replace_first_go] in H1. rewrite H1. reflexivity.
      * rewrite <- !app_comm_cons. cbn [replace_first_go].
        rewrite trailing_slash_match.
        destruct (u ++ str "/") as [ | z w] eqn:E;
          [destruct u; discriminate | ].
        rewrite <- E. rewrite <- !app_comm_cons in H2.
        cbn [replace_first_go] in H2. rewrite H2. reflexivity.
Qed.

(** X12. One trailing slash of the environment URL makes no difference:
    for a URL that does not end with a slash, the first link built from the
    URL and from the URL followed by a slash are the same, namely the URL
    followed by /api/data/v9.2/ and the table. *)
Theorem firstLink_trailing_slash (envUrl table params : jstring) :
  endsWith envUrl (str "/") = false ->
  firstLink (envUrl ++ str "/") table params = firstLink envUrl table params
  /\ firstLink envUrl table params
     = envUrl ++ str "/api/data/v9.2/" ++ table ++ str "?" ++ params.
Proof.
  intros Hu. destruct (strip_trailing_slash envUrl Hu) as [H1 H2].
  unfold firstLink. rewrite H1, H2. split; reflexivity.
Qed.

Lemma firstLink_trailing_slash_witness :
  firstLink (str "https://org.crm.dynamics.com/") (str "accounts") (str "$top=50")
  = str "https://org.crm.dynamics.com/api/data/v9.2/accounts?$top=50".
Proof.
  destruct (firstLink_trailing_slash (str "https://org.crm.dynamics.com")
              (str "accounts") (str "$top=50") eq_refl) as [H1 H2].
  change (str "https://org.crm.dynamics.com/")
    with (str "https://org.crm.dynamics.com" ++ str "/").
  rewrite H1, H2. reflexivity.
Defined.

(** *** The requests *)

Lemma truthy_link (l : option jstring) :
  truthy l = true -> l = Some (default [] l).
Proof. destruct l as [[ | a t] | ]; try discriminate. reflexivity. Qed.

Lemma paginate_links (server : Server) (limit : number) (first : jstring) :
  forall fuel s res,
    paginate fuel server limit s = Some res ->
    (forall i url, sent s !! S i = Some url ->
       exists prev data,
         sent s !! i = Some prev /\ server i prev = Ok data
         /\ nextLink data = Some url) ->
    (forall url, head (sent s) = Some url -> url = first) ->
    ((sent s = [] /\ link s = Some first)
     \/ exists n prev data,
          length (sent s) = S n /\ sent s !! n = Some prev
          /\ server n prev = Ok data /\ nextLink data = link s) ->
    let s' := match res with Finished s' => s' | Failed s' _ _ => s' end in
    (forall i url, sent s' !! S i = Some url ->
       exists prev data,
         sent s' !! i = Some prev /\ server i prev = Ok data
         /\ nextLink data = Some url)
    /\ (forall url, head (sent s') = Some url -> url = first).
Proof.
  induction fuel as [ | fuel IH]; intros s res.
  - rewrite paginate_O. destruct (_ && _); [discriminate | ].
    intros [= <-]. auto.
  - rewrite paginate_S.
    destruct (truthy (link s) && _ && _) eqn:Econd; [ | intros [= <-]; auto].
    apply andb_true_iff in Econd as [Econd _].
    apply andb_true_iff in Econd as [Hlink _].
    apply truthy_link in Hlink.
    set (url := default [] (link s)) in *.
    assert (Hchain' :
              (forall i u, sent s !! S i = Some u ->
                 exists prev data,
                   sent s !! i = Some prev /\ server i prev = Ok data
                   /\ nextLink data = Some u) ->
              ((sent s = [] /\ link s = Some first)
               \/ exists n prev data,
                    length (sent s) = S n /\ sent s !! n = Some prev
                    /\ server n prev = Ok data /\ nextLink data = link s) ->
              forall i u, (sent s ++ [url]) !! S i = Some u ->
                exists prev data,
                  (sent s ++ [url]) !! i = Some prev /\ server i prev = Ok data
                  /\ nextLink data = Some u).
    { intros Hchain Hnext i u Hu.
      destruct (Nat.lt_ge_cases (S i) (length (sent s))) as [Hlt | Hge].
      - rewrite lookup_app_l in Hu by exact Hlt.
        destruct (Hchain i u Hu) as (prev & data & Hp & Hs & Hn).
        exists prev, data. rewrite lookup_app_l by lia. auto.
      - rewrite lookup_app_r in Hu by exact Hge.
        destruct (S i - length (sent s))%nat as [ | m] eqn:Em;
          [ | rewrite lookup_cons, lookup_nil in Hu; discriminate].
        injection Hu as <-.
        destruct Hnext as [[Hnil _] | (n & prev & data & Hlen & Hp & Hs & Hn)].
        + rewrite Hnil in Hge, Em. simpl in Em. lia.
        + assert (n = i) by lia. subst n.
          exists prev, data. rewrite lookup_app_l by lia.
          rewrite <- Hlink. auto. }
    assert (Hhead' :
              (forall u, head (sent s) = Some u -> u = first) ->
              ((sent s = [] /\ link s = Some first)
               \/ exists n prev data,
                    length (sent s) = S n /\ sent s !! n = Some prev
                    /\ server n prev = Ok data /\ nextLink data = link s) ->
              forall u, head (sent s ++ [url]) = Some u -> u = first).
    { intros Hhead Hnext u Hu. destruct (sent s) as [ | x l] eqn:Es.
      - destruct Hnext as [[_ Hf] | (n & prev & data & Hlen & _)];
          [ | simpl in Hlen; lia].
        simpl in Hu. injection Hu as <-. congruence.
      - apply Hhead. exact Hu. }
    destruct (server (length (sent s)) url) as [data | status errorText] eqn:Es.
    + intros Hres Hchain Hhead Hnext.
      apply (IH _ _ Hres); simpl.
      * apply Hchain'; assumption.
      * apply Hhead'; assumption.
      * right. exists (length (sent s)), url, data.
        rewrite length_app, lookup_app_r, Nat.sub_diag by lia.
        simpl. repeat split; [lia | exact Es].
    + intros [= <-] Hchain Hhead Hnext. simpl. split.
      * apply Hchain'; assumption.
      * apply Hhead'; assumption.
Qed.

(** X13. extract_dataverse only requests the first link and links the
    server handed out: the first request of an invocation goes to the first
    link, and every later request goes to the continuation link of the
    answer to the request before it. *)
Theorem requests_follow_links (server : Server)
    (envUrl table params : jstring) (top : option number) (now : jstring)
    (e : Extraction) :
  extract server envUrl table params top now = Some e ->
  (forall url, head (requests e) = Some url ->
               url = firstLink envUrl table params)
  /\ (forall i url, requests e !! S i = Some url ->
        exists prev data,
          requests e !! i = Some prev /\ server i prev = Ok data
          /\ nextLink data = Some url).
Proof.
  unfold extract.
  destruct (fetch_all server (maxTop top) (firstLink envUrl table params))
    as [res | ] eqn:E; [ | discriminate].
  destruct (paginate_links server (maxTop top) (firstLink envUrl table params)
              _ _ _ E) as [Hchain Hhead].
  - intros i url H. simpl in H. discriminate.
  - intros url H. discriminate.
  - left. split; reflexivity.
  - destruct res as [s | s status errorText]; intros [= <-]; simpl; auto.
Qed.

Lemma requests_follow_links_witness :
  let server : Server :=
    fun n _ =>
      Ok (mkOData (Some [[(str "n", VNum (Z.of_nat n))]])
                  (if (n <? 1)%nat then Some (str "https://org/next") else None)) in
  exists e,
    extract server (str "https://org") (str "accounts") (str "$top=50") None []
    = Some e
    /\ requests e
       = [str "https://org/api/data/v9.2/accounts?$top=50"; str "https://org/next"]
    /\ (forall url, head (requests e) = Some url ->
                    url = firstLink (str "https://org") (str "accounts")
                                    (str "$top=50")).
Proof.
  intros server. eexists. split; [reflexivity | ]. split; [reflexivity | ].
  apply (requests_follow_links server (str "https://org") (str "accounts")
           (str "$top=50") None []).
  reflexivity.
Defined.

End ExtractDataverseExtras.

(** ** Code extraction: full mode, comments, exports, languages *)

Section ExtractCodeExtras.
Import ExtractCode.

Lemma scan_single {A : Type} (g : Z -> jstring -> A) (lines : list jstring) :
  forall i0,
    length (scan (fun i l => [g i l]) i0 lines) = length lines
    /\ forall i r,
         scan (fun i l => [g i l]) i0 lines !! i = Some r ->
         exists l, lines !! i = Some l /\ r = g (i0 + Z.of_nat i + 1) l.
Proof.
  induction lines as [ | l lines IH]; intros i0; simpl.
  - split; [reflexivity | ]. intros i r H. discriminate.
  - destruct (IH (i0 + 1)) as [Hlen Hget]. split; [rewrite Hlen; reflexivity | ].
    intros [ | i] r H.
    + injection H as <-. exists l. split; [reflexivity | ].
      f_equal. lia.
    + destruct (Hget i r H) as (l' & Hl' & ->). exists l'.
      split; [exact Hl' | ]. f_equal. lia.
Qed.

Lemma scan_signatures (lines : list jstring) :
  forall i0,
    map signature
        (scan (fun i l => [mkCodeRecord (str "line") (String_of_Z i) i l]) i0
              lines)
    = lines.
Proof.
  induction lines as [ | l lines IH]; intros i0; [reflexivity | ].
  simpl. rewrite IH. reflexivity.
Qed.

(** X14. In the mode full there is one record per line, 500 at most; the
    record at position i has the line number i + 1, that number as its
    name and the untouched line as its signature; and for a file of at
    most 500 lines, joining the signatures with newlines gives the content
    back. *)
Theorem extractFull_lines (content : jstring) :
  length (extractFull content) = Nat.min 500 (length (split nl content))
  /\ (forall i r,
        extractFull content !! i = Some r ->
        line r = Z.of_nat i + 1 /\ name r = String_of_Z (line r)
        /\ type r = str "line"
        /\ split nl content !! i = Some (signature r))
  /\ ((length (split nl content) <= 500)%nat ->
      join [nl] (map signature (extractFull content)) = content).
Proof.
  unfold extractFull.
  destruct (scan_single
              (fun i l => mkCodeRecord (str "line") (String_of_Z i) i l)
              (split nl content) 0) as [Hlen Hget].
  split; [rewrite length_take, Hlen; reflexivity | ]. split.
  - intros i r H. apply lookup_take_Some in H as [H _].
    destruct (Hget i r H) as (l & Hl & ->). simpl.
    split; [lia | ]. split; [reflexivity | ]. split; [reflexivity | exact Hl].
  - intros Hshort. rewrite take_ge by lia.
    rewrite scan_signatures. apply join_split.
Qed.

Lemma extractFull_lines_witness :
  let content := str "a" ++ [nl] ++ str "b" in
  map signature (extractFull content) = [str "a"; str "b"]
  /\ join [nl] (map signature (extractFull content)) = content.
Proof.
  intros content. split; [reflexivity | ].
  destruct (extractFull_lines content) as (_ & _ & H).
  apply H. simpl. lia.
Defined.

Lemma comments_loop_blocks (lines : list jstring) :
  forall i inBlock blockStart blockLines,
    (2 * length (List.filter
                   (fun r => jstring_eqb (type r) (str "doc-comment"))
                   (comments_loop i inBlock blockStart blockLines lines))
     <= length lines + (if inBlock then 1 else 0))%nat.
Proof.
  set (doc := fun r => jstring_eqb (type r) (str "doc-comment")).
  induction lines as [ | l lines IH]; intros i inBlock blockStart blockLines.
  - simpl. lia.
  - cbn [comments_loop].
    set (xml := if startsWith (trim l) (str "///") then _ else []).
    assert (Hxml : forall rest, List.filter doc (xml ++ rest) = List.filter doc rest).
    { intros rest. subst xml.
      destruct (startsWith (trim l) (str "///")); reflexivity. }
    destruct (startsWith (trim l) (str "/**") && negb inBlock) eqn:Eopen.
    + rewrite Hxml. apply andb_true_iff in Eopen as [_ Hin].
      apply negb_true_iff in Hin. subst inBlock.
      specialize (IH (i + 1) true (i + 1) [trim l]).
      cbn [length]. cbv iota in IH |- *. lia.
    + destruct inBlock.
      * destruct (includes (trim l) (str "*/")).
        -- cbn [List.filter].
           change (doc (mkCodeRecord _ _ _ _)) with true. cbv iota.
           rewrite Hxml.
           specialize (IH (i + 1) false blockStart []).
           cbn [length]. cbv iota in IH |- *. lia.
        -- rewrite Hxml.
           specialize (IH (i + 1) true blockStart (blockLines ++ [trim l])).
           cbn [length]. cbv iota in IH |- *. lia.
      * rewrite Hxml.
        specialize (IH (i + 1) false blockStart blockLines).
        cbn [length]. cbv iota in IH |- *. lia.
Qed.

(** X15. Every doc-comment record of [extractComments] accounts for at
    least two lines of the file: twice the number of doc-comment records
    is at most the number of lines. A block comment that opens and closes
    on one and the same line is therefore not recorded by that line; it
    stays open until a later line that holds the closing mark. *)
Theorem extractComments_two_lines (content : jstring) :
  (2 * length (List.filter
                 (fun r => jstring_eqb (type r) (str "doc-comment"))
                 (extractComments content))
   <= length (split nl content))%nat.
Proof.
  unfold extractComments.
  pose proof (comments_loop_blocks (split nl content) 0 false 0 []) as H.
  cbv iota in H. rewrite Nat.add_0_r in H. exact H.
Qed.

(** X16. Export lines are recognised for five languages only: whatever
    the content, [extractExports] returns records only when the language is
    typescript, javascript, csharp, java or xpp. *)
Theorem extractExports_languages (content language : jstring) :
  extractExports content language <> [] ->
  In language
     (map str ["typescript"; "javascript"; "csharp"; "java"; "xpp"]%string).
Proof.
  intros Hne.
  destruct (jstring_eqb language (str "typescript")) eqn:E1;
    [apply jstring_eqb_eq in E1; subst; simpl; tauto | ].
  destruct (jstring_eqb language (str "javascript")) eqn:E2;
    [apply jstring_eqb_eq in E2; subst; simpl; tauto | ].
  destruct (jstring_eqb language (str "csharp")) eqn:E3;
    [apply jstring_eqb_eq in E3; subst; simpl; tauto | ].
  destruct (jstring_eqb language (str "java")) eqn:E4;
    [apply jstring_eqb_eq in E4; subst; simpl; tauto | ].
  destruct (jstring_eqb language (str "xpp")) eqn:E5;
    [apply jstring_eqb_eq in E5; subst; simpl; tauto | ].
  exfalso. apply Hne. unfold extractExports. apply scan_nil.
  intros i l. unfold export_record. rewrite E1, E2, E3, E4, E5. reflexivity.
Qed.

Lemma extractExports_languages_witness :
  extractExports (str "public class A {}") (str "java") <> []
  /\ In (str "java")
        (map str ["typescript"; "javascript"; "csharp"; "java"; "xpp"]%string).
Proof.
  split; [vm_compute; discriminate | ].
  apply (extractExports_languages (str "public class A {}") (str "java")).
  vm_compute. discriminate.
Defined.

Lemma prototype_name_patterns (t : jstring) :
  In t Object_prototype_names ->
  table_get patterns t = Inherited /\ table_get importPatterns t = Inherited.
Proof.
  intros Hin. apply list_elem_of_In in Hin.
  unfold Object_prototype_names in Hin. simpl in Hin.
  repeat (apply elem_of_cons in Hin as [-> | Hin];
          [split; reflexivity | ]).
  apply elem_of_nil in Hin. contradiction.
Qed.

(** X17. The extraction itself fails in one way only: [codeRecords]
    throws exactly when the mode is structure or imports and the language
    is one of the names every object inherits from [Object.prototype]
    (constructor, toString, ...), for which the pattern table yields a
    value that is no pattern. In the modes full, exports and comments, and
    for every other language, it returns records. *)
Theorem codeRecords_throws (mode : ExtractionMode) (lang content : jstring) :
  codeRecords mode lang content = Throws
  <-> (mode = Structure \/ mode = Imports) /\ In lang Object_prototype_names.
Proof.
  split.
  - destruct mode; simpl; try discriminate.
    + unfold extractStructure.
      destruct (table_get patterns lang) eqn:E; try discriminate.
      intros _. apply table_get_Inherited in E. tauto.
    + unfold extractImports.
      destruct (table_get importPatterns lang) eqn:E; try discriminate.
      intros _. apply table_get_Inherited in E. tauto.
  - intros [Hmode Hin]. destruct (prototype_name_patterns lang Hin) as [H1 H2].
    destruct Hmode as [-> | ->]; simpl.
    + unfold extractStructure. rewrite H1. reflexivity.
    + unfold extractImports. rewrite H2. reflexivity.
Qed.

(** *** The language of a file *)

Lemma existsb_rev (a : ascii) (s : jstring) :
  existsb (ascii_eqb a) (rev s) = existsb (ascii_eqb a) s.
Proof.
  induction s as [ | x s IH]; [reflexivity | ].
  simpl. rewrite existsb_app, IH. simpl. rewrite orb_false_r. apply orb_comm.
Qed.

Lemma until_char_none (a : ascii) (u : jstring) :
  existsb (ascii_eqb a) u = false -> until_char a u = u.
Proof.
  induction u as [ | x u IH]; [reflexivity | ].
  simpl. rewrite orb_false_iff. intros [Hx Hu].
  rewrite ascii_eqb_sym, Hx, (IH Hu). reflexivity.
Qed.

Lemma until_char_stop (a : ascii) (u w : jstring) :
  existsb (ascii_eqb a) u = false -> until_char a (u ++ a :: w) = u.
Proof.
  induction u as [ | x u IH].
  - intros _. simpl. unfold ascii_eqb. rewrite Ascii.eqb_refl. reflexivity.
  - simpl. rewrite orb_false_iff. intros [Hx Hu].
    rewrite ascii_eqb_sym, Hx, (IH Hu). reflexivity.
Qed.

Lemma existsb_cons {A : Type} (f : A -> bool) (x : A) (l : list A) :
  existsb f (x :: l) = f x || existsb f l.
Proof. reflexivity. Qed.

Lemma drop_slashes_head (x : ascii) (s : jstring) :
  ascii_eqb "/" x = false -> drop_slashes (x :: s) = x :: s.
Proof.
  intros Hx. change (drop_slashes (x :: s))
    with (if ascii_eqb x "/" then drop_slashes s else x :: s).
  rewrite ascii_eqb_sym, Hx. reflexivity.
Qed.

Lemma jstring_eqb_head (x y : ascii) (s t : jstring) :
  ascii_eqb x y = false -> jstring_eqb (x :: s) (y :: t) = false.
Proof. intros H. simpl. rewrite H. reflexivity. Qed.

Lemma extname_of (dir stem ext : jstring) :
  dir = [] \/ (exists d, dir = d ++ str "/") ->
  stem <> [] -> existsb (ascii_eqb "/") stem = false ->
  ext <> [] -> existsb (ascii_eqb "/") ext = false ->
  existsb (ascii_eqb ".") ext = false ->
  extname (dir ++ stem ++ str "." ++ ext) = "."%char :: ext.
Proof.
  intros Hdir Hstem Hstem_slash Hext Hext_slash Hext_dot.
  assert (Hrev : rev (dir ++ stem ++ str "." ++ ext)
                 = (rev ext ++ "."%char :: rev stem) ++ rev dir).
  { rewrite !rev_app_distr. simpl. rewrite <- !app_assoc. reflexivity. }
  assert (Hnoslash : existsb (ascii_eqb "/") (rev ext ++ "."%char :: rev stem)
                     = false).
  { rewrite existsb_app. simpl. rewrite !existsb_rev, Hext_slash, Hstem_slash.
    reflexivity. }
  assert (Hbase : basename_rev (dir ++ stem ++ str "." ++ ext)
                  = rev ext ++ "."%char :: rev stem).
  { unfold basename_rev. rewrite Hrev.
    assert (Hdrop : drop_slashes ((rev ext ++ "."%char :: rev stem) ++ rev dir)
                    = (rev ext ++ "."%char :: rev stem) ++ rev dir).
    { destruct (rev ext ++ "."%char :: rev stem) as [ | x l] eqn:E.
      - destruct (rev ext); discriminate.
      - rewrite existsb_cons in Hnoslash.
        apply orb_false_iff in Hnoslash as [Hx _].
        rewrite <- app_comm_cons. apply drop_slashes_head, Hx. }
    rewrite Hdrop. destruct Hdir as [-> | (d & ->)].
    - simpl rev. rewrite app_nil_r. apply until_char_none, Hnoslash.
    - rewrite rev_app_distr. simpl rev. simpl app at 2.
      apply until_char_stop, Hnoslash. }
  unfold extname. rewrite Hbase.
  assert (Hdot : existsb (ascii_eqb ".") (rev ext ++ "."%char :: rev stem) = true).
  { rewrite existsb_app. simpl. apply orb_true_r. }
  rewrite Hdot. cbn [negb].
  rewrite (until_char_stop "." (rev ext) (rev stem))
    by (rewrite existsb_rev; exact Hext_dot).
  assert (Hlen : (length (rev ext) + 1
                  =? length (rev ext ++ "."%char :: rev stem))%nat = false).
  { apply Nat.eqb_neq. rewrite length_app. simpl. rewrite (length_rev stem).
    destruct stem; [contradiction | simpl; lia]. }
  rewrite Hlen.
  assert (Hdots : jstring_eqb (rev ext ++ "."%char :: rev stem) (str "..") = false).
  { destruct (rev ext) as [ | e l] eqn:E.
    - apply (f_equal (@rev ascii)) in E. rewrite rev_involutive in E.
      contradiction.
    - assert (He : existsb (ascii_eqb ".") (e :: l) = false)
        by (rewrite <- E, existsb_rev; exact Hext_dot).
      rewrite existsb_cons in He. apply orb_false_iff in He as [He _].
      rewrite <- app_comm_cons. apply jstring_eqb_head.
      rewrite ascii_eqb_sym. exact He. }
  rewrite Hdots, rev_involutive. reflexivity.
Qed.

(** X18. The language of a file depends on its extension only, read
    without regard to case: for a path made of a directory part (empty or
    ending with a slash), a non-empty file stem and an extension without
    dots or slashes, [detectLanguage] returns the language the table gives
    for the lower-cased extension; an explicit language hint, when it is
    not empty, takes its place. *)
Theorem detectLanguage_extension (dir stem ext language : jstring) :
  dir = [] \/ (exists d, dir = d ++ str "/") ->
  stem <> [] -> existsb (ascii_eqb "/") stem = false ->
  existsb (ascii_eqb "/") ext = false ->
  existsb (ascii_eqb ".") ext = false ->
  assoc LANGUAGE_MAP (toLowerCase ("."%char :: ext)) = Some language ->
  detectLanguage (dir ++ stem ++ str "." ++ ext) = language
  /\ resolve_language None (dir ++ stem ++ str "." ++ ext) = language
  /\ forall hint, hint <> [] ->
       resolve_language (Some hint) (dir ++ stem ++ str "." ++ ext) = hint.
Proof.
  intros Hdir Hstem Hstem_slash Hext_slash Hext_dot Htable.
  assert (Hext : ext <> []) by (intros ->; discriminate).
  assert (Hd : detectLanguage (dir ++ stem ++ str "." ++ ext) = language).
  { unfold detectLanguage.
    rewrite (extname_of dir stem ext Hdir Hstem Hstem_slash Hext Hext_slash
               Hext_dot), Htable. reflexivity. }
  split; [exact Hd | ]. split; [exact Hd | ].
  intros [ | a t] Hne; [contradiction | reflexivity].
Qed.

Lemma detectLanguage_extension_witness :
  detectLanguage (str "/src/app/Main.TSX") = str "typescript".
Proof.
  apply (detectLanguage_extension (str "/src/app/") (str "Main") (str "TSX")
           (str "typescript")); try reflexivity.
  - right. exists (str "/src/app"). reflexivity.
  - discriminate.
Defined.

End ExtractCodeExtras.

(** ** Token cache: lifetimes and failures *)

Section AuthProviderExtras.
Import AuthProvider.

(** X19. The cache window follows the lifetime the endpoint states: when a
    call at time T fetches a token with a lifetime of expires_in seconds,
    a later call with the same key at time t is served from the cache
    exactly when t < T + (expires_in - 300) s. In particular a token with a
    lifetime of 300 seconds or less is never served from the cache at or
    after T. *)
Theorem token_lifetime_window (tokenCache : gmap jstring CachedToken)
    (T t : Z) (k tok : jstring) (expires_in : Z) (response : TokenResponse) :
  fetched (getToken tokenCache T k (TokenOk tok expires_in)) = true ->
  let cache := cache_after (getToken tokenCache T k (TokenOk tok expires_in)) in
  (t < T + (expires_in - 300) * 1000 ->
   getToken cache t k response = mkCall (Returns tok) false cache)
  /\ (T + (expires_in - 300) * 1000 <= t ->
      fetched (getToken cache t k response) = true)
  /\ (expires_in <= 300 -> T <= t ->
      fetched (getToken cache t k response) = true).
Proof.
  intros Hfetched cache.
  pose proof (getToken_caches tokenCache T k tok expires_in Hfetched) as Hentry.
  fold cache in Hentry. repeat split.
  - intros Hearly.
    rewrite (getToken_served cache t k response _ Hentry); [reflexivity | ].
    simpl. lia.
  - intros Hlate. apply (getToken_expired cache t k response _ Hentry).
    simpl. lia.
  - intros Hshort Hafter. apply (getToken_expired cache t k response _ Hentry).
    simpl. lia.
Qed.

Lemma token_lifetime_window_witness :
  let first := getToken ∅ 1000 (str "graph") (TokenOk (str "tok") 600) in
  fetched first = true
  /\ getToken (cache_after first) 300999 (str "graph") (TokenFailed 500)
     = mkCall (Returns (str "tok")) false (cache_after first)
  /\ fetched (getToken (cache_after first) 301000 (str "graph") (TokenFailed 500))
     = true.
Proof.
  intros first.
  assert (Hfirst : fetched first = true) by reflexivity.
  destruct (token_lifetime_window ∅ 1000 300999 (str "graph") (str "tok") 600
              (TokenFailed 500) Hfirst) as (Hserved & _ & _).
  destruct (token_lifetime_window ∅ 1000 301000 (str "graph") (str "tok") 600
              (TokenFailed 500) Hfirst) as (_ & Hfetch & _).
  split; [exact Hfirst | ]. split; [apply Hserved | apply Hfetch]; lia.
Defined.

(** X20. A failed acquisition is not remembered: when a call of getToken
    throws (the cache could not serve it and the endpoint refused), the
    cache is left exactly as it was, and every later call with that key, at
    the same time or after, asks the endpoint again. *)
Theorem failed_acquisition_retried (tokenCache : gmap jstring CachedToken)
    (now later : Z) (k : jstring) (status : Z) (response : TokenResponse) :
  returned (getToken tokenCache now k (TokenFailed status)) = Throws ->
  now <= later ->
  cache_after (getToken tokenCache now k (TokenFailed status)) = tokenCache
  /\ fetched (getToken tokenCache later k response) = true.
Proof.
  unfold getToken. destruct (tokenCache !! k) as [cached | ].
  - destruct (Z.ltb_spec (now + 5 * 60 * 1000) (expiresAt cached));
      [discriminate | ].
    intros _ Hlater. split; [reflexivity | ].
    destruct (Z.ltb_spec (later + 5 * 60 * 1000) (expiresAt cached));
      [lia | destruct response; reflexivity].
  - intros _ _. split; [reflexivity | destruct response; reflexivity].
Qed.

Lemma failed_acquisition_retried_witness :
  let stale : gmap jstring CachedToken :=
    <[str "graph" := mkCachedToken (str "old") 5000]> ∅ in
  cache_after (getToken stale 5000 (str "graph") (TokenFailed 503)) = stale
  /\ fetched (getToken stale 6000 (str "graph") (TokenOk (str "new") 3600))
     = true.
Proof.
  intros stale.
  apply (failed_acquisition_retried stale 5000 6000 (str "graph") 503
           (TokenOk (str "new") 3600)).
  - reflexivity.
  - lia.
Defined.

Lemma getToken_result (tokenCache : gmap jstring CachedToken) (now : Z)
    (k : jstring) (response : TokenResponse) (tok : jstring) :
  returned (getToken tokenCache now k response) = Returns tok ->
  (exists entry, tokenCache !! k = Some entry /\ accessToken entry = tok)
  \/ (exists expires_in, response = TokenOk tok expires_in).
Proof.
  unfold getToken. destruct (tokenCache !! k) as [cached | ].
  - destruct (now + 5 * 60 * 1000 <? expiresAt cached).
    + intros [= <-]. left. eexists. split; reflexivity.
    + destruct response; [ | discriminate].
      intros [= <-]. right. eexists. reflexivity.
  - destruct response; [ | discriminate].
    intros [= <-]. right. eexists. reflexivity.
Qed.

Lemma getToken_entry (tokenCache : gmap jstring CachedToken) (now : Z)
    (k k' : jstring) (response : TokenResponse) (entry : CachedToken) :
  cache_after (getToken tokenCache now k response) !! k' = Some entry ->
  tokenCache !! k' = Some entry
  \/ (k' = k /\ exists expires_in,
        response = TokenOk (accessToken entry) expires_in).
Proof.
  unfold getToken.
  assert (Hfresh :
            cache_after
              match response with
              | TokenOk access_token expires_in =>
                  mkCall (Returns access_token) true
                    (<[k := mkCachedToken access_token (now + expires_in * 1000)]>
                       tokenCache)
              | TokenFailed _ => mkCall Throws true tokenCache
              end !! k' = Some entry ->
            tokenCache !! k' = Some entry
            \/ (k' = k /\ exists expires_in,
                  response = TokenOk (accessToken entry) expires_in)).
  { destruct response as [access_token expires_in | status]; simpl; [ | auto].
    destruct (decide (k = k')) as [<- | Hne].
    - rewrite lookup_insert_eq. intros [= <-]. right. split; [reflexivity | ].
      eexists. reflexivity.
    - rewrite lookup_insert_ne by exact Hne. auto. }
  destruct (tokenCache !! k) as [cached | ]; [ | exact Hfresh].
  destruct (now + 5 * 60 * 1000 <? expiresAt cached); [simpl; auto | exact Hfresh].
Qed.

Lemma run_provenance (reqs : list Request) :
  forall (tokenCache : gmap jstring CachedToken)
         (P : jstring -> jstring -> Prop),
    (forall k entry, tokenCache !! k = Some entry -> P k (accessToken entry)) ->
    forall r c tok,
      In (r, c) (fst (run tokenCache reqs)) ->
      returned c = Returns tok ->
      P (key r) tok
      \/ exists r' expires_in,
           In r' reqs /\ key r' = key r /\ answer r' = TokenOk tok expires_in.
Proof.
  induction reqs as [ | r0 reqs IH]; intros tokenCache P Hcache r c tok;
    [intros [] | ].
  cbn [run].
  destruct (run (cache_after (getToken tokenCache (at_time r0) (key r0) (answer r0)))
                reqs) as [calls final] eqn:Erun.
  cbn [fst]. intros [[= <- <-] | Hin] Hret.
  - apply getToken_result in Hret as [(entry & Hk & <-) | (e & He)].
    + left. exact (Hcache _ _ Hk).
    + right. exists r0, e. split; [left; reflexivity | auto].
  - specialize (IH (cache_after (getToken tokenCache (at_time r0) (key r0) (answer r0)))
                   (fun k t => P k t
                               \/ (key r0 = k
                                   /\ exists e, answer r0 = TokenOk t e))).
    rewrite Erun in IH. cbn [fst] in IH.
    destruct (IH ltac:(intros k entry Hk;
                       apply getToken_entry in Hk as [Hk | [-> He]];
                       [left; exact (Hcache _ _ Hk) | right; auto])
                 r c tok Hin Hret)
      as [[HP | [Hk (e & He)]] | (r' & e & Hr' & Hk & He)].
    + left. exact HP.
    + right. exists r0, e. split; [left; reflexivity | auto].
    + right. exists r', e. split; [right; exact Hr' | auto].
Qed.

(** X29. Tokens never cross cache keys: in any sequence of [getToken]
    calls that starts with an empty cache, whatever the times, the keys and
    the answers of the endpoint, a token returned to a call was issued by
    the endpoint in answer to a call of the sequence with the same key. (So
    a Graph call never gets a Dataverse token, the two using the keys
    "graph" and "dataverse".) *)
Theorem token_provenance (reqs : list Request) (r : Request) (c : Call)
    (tok : jstring) :
  In (r, c) (fst (run ∅ reqs)) ->
  returned c = Returns tok ->
  exists r' expires_in,
    In r' reqs /\ key r' = key r /\ answer r' = TokenOk tok expires_in.
Proof.
  intros Hin Hret.
  destruct (run_provenance reqs ∅ (fun _ _ => False)
              ltac:(intros k entry Hk; rewrite lookup_empty in Hk; discriminate)
              r c tok Hin Hret) as [[] | H].
  exact H.
Qed.

Lemma token_provenance_witness :
  let reqs :=
    [ mkRequest 0 (str "graph") (TokenOk (str "g-1") 3600);
      mkRequest 10 (str "dataverse") (TokenOk (str "d-1") 3600);
      mkRequest 20 (str "graph") (TokenOk (str "g-2") 3600) ] in
  exists c,
    nth_error (fst (run ∅ reqs)) 2
    = Some (mkRequest 20 (str "graph") (TokenOk (str "g-2") 3600), c)
    /\ returned c = Returns (str "g-1")
    /\ exists r' expires_in,
         In r' reqs /\ key r' = str "graph"
         /\ answer r' = TokenOk (str "g-1") expires_in.
Proof.
  intros reqs. eexists. split; [reflexivity | ]. split; [reflexivity | ].
  eapply (token_provenance reqs
            (mkRequest 20 (str "graph") (TokenOk (str "g-2") 3600)) _ (str "g-1")).
  - right. right. left. reflexivity.
  - reflexivity.
Defined.

End AuthProviderExtras.

(** ** Page selection of the PDF extraction *)

Section ExtractPdfProperties.
Import ExtractPdf.

Lemma count_up_In (n : nat) :
  forall a x, In x (count_up n a) -> a <= x < a + Z.of_nat n.
Proof.
  induction n as [ | n IH]; intros a x; [intros [] | ].
  cbn [count_up]. intros [<- | Hin]; [lia | ].
  specialize (IH _ _ Hin). lia.
Qed.

Lemma part_pages_positive (part : jstring) (x : Z) :
  In x (part_pages part) -> 1 <= x.
Proof.
  unfold part_pages. destruct (includes part (str "-")).
  - destruct (split "-" part) as [ | startStr [ | endStr more]];
      try (intros []).
    unfold range, max1.
    destruct (parseInt startStr) as [a | ]; [ | intros []].
    destruct (parseInt endStr) as [b | ]; [ | intros []].
    simpl option_map. cbv iota beta. intros Hin%count_up_In. lia.
  - destruct (parseInt part) as [page | ]; [ | intros []].
    destruct (Z.ltb_spec 0 page); [ | intros []].
    intros [<- | []]. lia.
Qed.

Lemma existsb_eqb_Z (x : Z) (l : list Z) :
  existsb (Z.eqb x) l = true <-> In x l.
Proof.
  rewrite existsb_exists. split.
  - intros (y & Hy & E). apply Z.eqb_eq in E. congruence.
  - intros H. exists x. split; [exact H | apply Z.eqb_refl].
Qed.

Lemma unique_In (l : list Z) :
  forall seen x, In x (unique seen l) <-> In x seen \/ In x l.
Proof.
  induction l as [ | y l IH]; intros seen x; simpl.
  - rewrite <- in_rev. tauto.
  - destruct (existsb (Z.eqb y) seen) eqn:E.
    + apply existsb_eqb_Z in E. rewrite IH. split; [tauto | ].
      intros [H | [<- | H]]; auto.
    + rewrite IH. simpl. tauto.
Qed.

Lemma unique_NoDup (l : list Z) :
  forall seen, List.NoDup seen -> List.NoDup (unique seen l).
Proof.
  induction l as [ | y l IH]; intros seen Hseen; simpl.
  - apply List.NoDup_rev, Hseen.
  - destruct (existsb (Z.eqb y) seen) eqn:E; [apply IH, Hseen | ].
    apply IH. constructor; [ | exact Hseen].
    intros Hin. apply existsb_eqb_Z in Hin. congruence.
Qed.

Lemma insert_sorted_In (x y : Z) (l : list Z) :
  In y (insert_sorted x l) <-> y = x \/ In y l.
Proof.
  induction l as [ | z l IH]; simpl; [intuition | ].
  destruct (x <=? z); simpl; [intuition | ].
  rewrite IH. intuition.
Qed.

Lemma sort_ascending_In (l : list Z) (y : Z) :
  In y (sort_ascending l) <-> In y l.
Proof.
  induction l as [ | x l IH]; simpl; [tauto | ].
  rewrite insert_sorted_In, IH. intuition.
Qed.

Lemma ascending_cons (x : Z) (l : list Z) :
  ascending (x :: l) = true
  <-> (forall y, head l = Some y -> x < y) /\ ascending l = true.
Proof.
  destruct l as [ | y l]; simpl.
  - split; [intros _; split; [discriminate | reflexivity] | reflexivity].
  - rewrite andb_true_iff, Z.ltb_lt. split.
    + intros [H1 H2]. split; [intros ? [= <-]; exact H1 | exact H2].
    + intros [H1 H2]. split; [apply H1; reflexivity | exact H2].
Qed.

Lemma insert_sorted_ascending (x : Z) (l : list Z) :
  ascending l = true -> ~ In x l -> ascending (insert_sorted x l) = true.
Proof.
  induction l as [ | y l IH]; intros Hl Hx; [reflexivity | ].
  cbn [insert_sorted]. destruct (Z.leb_spec x y) as [Hle | Hgt].
  - apply ascending_cons. split; [ | exact Hl].
    intros z [= <-]. assert (x <> y) by (intros ->; apply Hx; left; reflexivity).
    lia.
  - apply ascending_cons in Hl as [Hhead Hl].
    apply ascending_cons. split.
    + intros z Hz. destruct l as [ | w l]; simpl in Hz.
      * injection Hz as <-. lia.
      * destruct (x <=? w); injection Hz as <-; [lia | ].
        apply Hhead. reflexivity.
    + apply IH; [exact Hl | ]. intros Hin. apply Hx. right. exact Hin.
Qed.

Lemma sort_ascending_ascending (l : list Z) :
  List.NoDup l -> ascending (sort_ascending l) = true.
Proof.
  induction 1 as [ | x l Hx Hl IH]; [reflexivity | ].
  simpl. apply insert_sorted_ascending; [exact IH | ].
  rewrite sort_ascending_In. exact Hx.
Qed.

(** X21. A page selection that [buildParseParams] returns is in order:
    the list is not empty, strictly ascending (so without duplicates), and
    holds page numbers from 1 on only; and a page is in it exactly when
    one of the comma-separated parts of the request contributes it. A
    request none of whose parts yields a page never gives an empty
    selection: like "all", it gives the parameters without a selection. *)
Theorem buildParseParams_selection (pages : jstring) (partial : list Z) :
  buildParseParams (Some pages) = Some partial ->
  partial <> []
  /\ ascending partial = true
  /\ Forall (fun page => 1 <= page) partial
  /\ forall page,
       In page partial
       <-> exists part,
             In part (map trim (split "," pages)) /\ In page (part_pages part).
Proof.
  unfold buildParseParams. destruct pages as [ | c pages]; [discriminate | ].
  destruct (jstring_eqb _ _); [discriminate | ].
  destruct (flat_map part_pages (map trim (split "," (c :: pages))))
    as [ | p0 ps] eqn:E; [discriminate | ].
  intros Hsome.
  assert (Hpartial : partial = sort_ascending (unique [] (p0 :: ps)))
    by congruence.
  clear Hsome. subst partial. rewrite <- E.
  assert (Hin : forall page,
             In page (sort_ascending
                        (unique [] (flat_map part_pages
                                      (map trim (split "," (c :: pages))))))
             <-> exists part,
                   In part (map trim (split "," (c :: pages)))
                   /\ In page (part_pages part)).
  { intros page. rewrite sort_ascending_In, unique_In, in_flat_map.
    simpl. tauto. }
  split; [ | split; [ | split]].
  - intros Hnil.
    assert (H0 : In p0 (sort_ascending
                          (unique [] (flat_map part_pages
                                        (map trim (split "," (c :: pages)))))))
      by (rewrite sort_ascending_In, unique_In, E; right; left; reflexivity).
    rewrite Hnil in H0. contradiction.
  - apply sort_ascending_ascending, unique_NoDup. constructor.
  - apply Forall_forall. intros page Hpage%list_elem_of_In.
    apply Hin in Hpage as (part & _ & Hpart).
    exact (part_pages_positive part page Hpart).
  - exact Hin.
Qed.

Lemma buildParseParams_selection_witness :
  buildParseParams (Some (str "7, 2-4,3,0,x")) = Some [2; 3; 4; 7]
  /\ ascending [2; 3; 4; 7] = true.
Proof.
  split; [vm_compute; reflexivity | ].
  apply (buildParseParams_selection (str "7, 2-4,3,0,x") [2; 3; 4; 7]).
  vm_compute. reflexivity.
Defined.

(** *** A single range *)

Lemma split_free (sep : ascii) (k : jstring) :
  existsb (ascii_eqb sep) k = false -> split sep k = [k].
Proof.
  induction k as [ | a k IH]; [reflexivity | ].
  rewrite existsb_cons, orb_false_iff, ascii_eqb_sym. intros [Ha Hk].
  rewrite split_cons, Ha, (IH Hk). reflexivity.
Qed.

Lemma split_at (sep : ascii) (k rest : jstring) :
  existsb (ascii_eqb sep) k = false ->
  split sep (k ++ sep :: rest) = k :: split sep rest.
Proof.
  induction k as [ | a k IH].
  - intros _. simpl app. rewrite split_cons. unfold ascii_eqb.
    rewrite Ascii.eqb_refl. reflexivity.
  - rewrite existsb_cons, orb_false_iff, ascii_eqb_sym. intros [Ha Hk].
    rewrite <- app_comm_cons, split_cons, Ha, (IH Hk). reflexivity.
Qed.

Lemma digit_facts (d : ascii) :
  is_digit d = true ->
  is_space d = false /\ lower_unit d = d
  /\ ascii_eqb d "-" = false /\ ascii_eqb d "+" = false
  /\ ascii_eqb "," d = false /\ ascii_eqb "-" d = false
  /\ ascii_eqb d "a" = false.
Proof.
  destruct d as [[] [] [] [] [] [] [] []]; intros H; try discriminate H;
    repeat split; reflexivity.
Qed.

Lemma digits_no (c : ascii) (ds : jstring) :
  (forall d, is_digit d = true -> ascii_eqb c d = false) ->
  forallb is_digit ds = true -> existsb (ascii_eqb c) ds = false.
Proof.
  intros Hc. induction ds as [ | d ds IH]; [reflexivity | ].
  cbn [forallb]. rewrite andb_true_iff, existsb_cons. intros [Hd Hds].
  rewrite (Hc d Hd), (IH Hds). reflexivity.
Qed.

Lemma parseInt_digits (ds : jstring) :
  ds <> [] -> forallb is_digit ds = true ->
  parseInt ds = Some (digits_value 0 ds).
Proof.
  destruct ds as [ | d ds]; [contradiction | ]. intros _ Hds.
  cbn [forallb] in Hds. apply andb_true_iff in Hds as [Hd _].
  destruct (digit_facts d Hd) as (Hsp & _ & Hminus & Hplus & _).
  unfold parseInt. cbn [trimStart]. rewrite Hsp, Hminus, Hplus, Hd. reflexivity.
Qed.

Lemma includes_unfold (s p : jstring) :
  includes s p
  = startsWith s p
    || match s with [] => false | _ :: s' => includes s' p end.
Proof. destruct s; reflexivity. Qed.

Lemma includes_at (u w v : jstring) : includes (u ++ w ++ v) w = true.
Proof.
  induction u as [ | a u IH].
  - simpl app. rewrite includes_unfold, startsWith_app. reflexivity.
  - rewrite <- app_comm_cons, includes_unfold, IH. apply orb_true_r.
Qed.

Lemma span_digit_first (d : ascii) (s : jstring) :
  is_digit d = true -> span is_space (d :: s) = 0%nat.
Proof.
  intros Hd. destruct (digit_facts d Hd) as (Hsp & _).
  rewrite span_cons, Hsp. reflexivity.
Qed.

Lemma trim_numerals (a b : jstring) :
  a <> [] -> forallb is_digit a = true ->
  b <> [] -> forallb is_digit b = true ->
  trim (a ++ str "-" ++ b) = a ++ str "-" ++ b.
Proof.
  intros Ha Hda Hb Hdb. apply trim_id.
  - destruct a as [ | d a]; [contradiction | ].
    cbn [forallb] in Hda. apply andb_true_iff in Hda as [Hd _].
    rewrite <- app_comm_cons. apply span_digit_first, Hd.
  - rewrite !rev_app_distr.
    destruct (rev b) as [ | d l] eqn:E.
    + apply (f_equal (@rev ascii)) in E. rewrite rev_involutive in E.
      contradiction.
    + rewrite <- app_comm_cons. apply span_digit_first.
      assert (Hin : In d b) by (apply in_rev; rewrite E; left; reflexivity).
      rewrite forallb_forall in Hdb. apply Hdb, Hin.
Qed.

Lemma unique_fresh (l : list Z) :
  forall seen,
    List.NoDup l -> (forall x, In x l -> ~ In x seen) ->
    unique seen l = rev seen ++ l.
Proof.
  induction l as [ | x l IH]; intros seen Hl Hfresh.
  - simpl. rewrite app_nil_r. reflexivity.
  - inversion Hl as [ | ? ? Hx Hl']; subst. cbn [unique].
    destruct (existsb (Z.eqb x) seen) eqn:E.
    + apply existsb_eqb_Z in E. exfalso.
      exact (Hfresh x (or_introl eq_refl) E).
    + rewrite (IH (x :: seen) Hl').
      * simpl. rewrite <- app_assoc. reflexivity.
      * intros y Hy [<- | Hin]; [contradiction | ].
        exact (Hfresh y (or_intror Hy) Hin).
Qed.

Lemma ascending_sorted (l : list Z) :
  ascending l = true -> sort_ascending l = l.
Proof.
  induction l as [ | x l IH]; [reflexivity | ].
  intros Hl. apply ascending_cons in Hl as [Hhead Hl].
  simpl. rewrite (IH Hl). destruct l as [ | y l]; [reflexivity | ].
  simpl. destruct (Z.leb_spec x y); [reflexivity | ].
  specialize (Hhead y eq_refl). lia.
Qed.

Lemma count_up_ascending (n : nat) :
  forall a, ascending (count_up n a) = true /\ List.NoDup (count_up n a).
Proof.
  induction n as [ | n IH]; intros a; [split; [reflexivity | constructor] | ].
  cbn [count_up]. destruct (IH (a + 1)) as [Hasc Hnd]. split.
  - apply ascending_cons. split; [ | exact Hasc].
    intros y Hy. destruct n; [discriminate | ].
    simpl in Hy. injection Hy as <-. lia.
  - constructor; [ | exact Hnd]. intros Hin%count_up_In. lia.
Qed.

Lemma buildParseParams_unfold (p : jstring) :
  p <> [] -> jstring_eqb (toLowerCase p) (str "all") = false ->
  buildParseParams (Some p)
  = match flat_map part_pages (map trim (split "," p)) with
    | [] => None
    | _ :: _ =>
        Some (sort_ascending
                (unique [] (flat_map part_pages (map trim (split "," p)))))
    end.
Proof.
  destruct p as [ | c p]; [contradiction | ]. intros _ Hall.
  unfold buildParseParams. rewrite Hall. reflexivity.
Qed.

(** X22. A request that is one range "a-b" of two decimal numerals, the
    last page b below 2^24, selects the pages max(1, a), ..., b in order;
    when b is smaller than max(1, a) the range is empty and the parameters
    come without a selection, as for "all". (Below 2^24 every page number
    is an exactly represented double and the selection fits an array and a
    Set; a first page beyond that only makes the range empty.) *)
Theorem buildParseParams_range (a b : jstring) :
  a <> [] -> forallb is_digit a = true ->
  b <> [] -> forallb is_digit b = true ->
  digits_value 0 b < 2 ^ 24 ->
  let first := Z.max 1 (digits_value 0 a) in
  let last := digits_value 0 b in
  buildParseParams (Some (a ++ str "-" ++ b))
  = if first <=? last
    then Some (count_up (Z.to_nat (last - first + 1)) first)
    else None.
Proof.
  intros Ha Hda Hb Hdb _ first last.
  assert (Hcomma : existsb (ascii_eqb ",") (a ++ str "-" ++ b) = false).
  { rewrite !existsb_app.
    rewrite (digits_no "," a), (digits_no "," b);
      try assumption; try reflexivity;
      intros d Hd; apply (digit_facts d Hd). }
  assert (Hparts : split "-" (a ++ str "-" ++ b) = [a; b]).
  { change (a ++ str "-" ++ b) with (a ++ "-"%char :: b).
    rewrite split_at, split_free; try reflexivity;
      apply digits_no; try assumption;
      intros d Hd; apply (digit_facts d Hd). }
  assert (Hne : a ++ str "-" ++ b <> [])
    by (destruct a; [contradiction | discriminate]).
  assert (Hall : jstring_eqb (toLowerCase (a ++ str "-" ++ b)) (str "all")
                 = false).
  { destruct a as [ | d a']; [contradiction | ].
    cbn [forallb] in Hda. apply andb_true_iff in Hda as [Hd _].
    destruct (digit_facts d Hd) as (_ & Hlow & _ & _ & _ & _ & Hna).
    rewrite <- app_comm_cons. unfold toLowerCase. cbn [map]. rewrite Hlow.
    apply jstring_eqb_head, Hna. }
  rewrite (buildParseParams_unfold _ Hne Hall), (split_free "," _ Hcomma).
  cbn [map flat_map]. rewrite (trim_numerals a b Ha Hda Hb Hdb), app_nil_r.
  unfold part_pages.
  rewrite (includes_at a (str "-") b), Hparts.
  rewrite (parseInt_digits a Ha Hda), (parseInt_digits b Hb Hdb).
  unfold max1, range. cbn [option_map]. fold first. fold last.
  destruct (Z.leb_spec first last) as [Hle | Hgt].
  - destruct (Z.to_nat (last - first + 1)) as [ | n] eqn:En; [lia | ].
    destruct (count_up_ascending (S n) first) as [Hasc Hnd].
    cbn [count_up] in *.
    rewrite (unique_fresh _ [] Hnd) by (intros x _ []).
    cbn [rev app]. rewrite (ascending_sorted _ Hasc). reflexivity.
  - replace (Z.to_nat (last - first + 1)) with 0%nat by lia. reflexivity.
Qed.

Lemma buildParseParams_range_witness :
  buildParseParams (Some (str "0-3")) = Some [1; 2; 3]
  /\ buildParseParams (Some (str "5-3")) = None.
Proof.
  split.
  - apply (buildParseParams_range (str "0") (str "3"));
      (discriminate || reflexivity).
  - apply (buildParseParams_range (str "5") (str "3"));
      (discriminate || reflexivity).
Defined.

End ExtractPdfProperties.

(** ** Environment readiness *)

Section ValidateEnvironmentProperties.
Import Customer D365Environment Store ValidateEnvironment.

(** The score in closed form. *)
Lemma score_assess (environments : list D365Environment) :
  score (assess environments)
  = 100
    - (if hasType Production environments then 0 else 30)
    - (if hasType UAT environments then 0 else 20)
    - (if hasType Sandbox environments then 0 else 10)
    - (if (1 <? length (versions environments))%nat then 15 else 0)
    - (if hasType Production environments && hasType UAT environments
       then match List.find (is_type Production) environments,
                  List.find (is_type UAT) environments with
            | Some prodEnv, Some uatEnv =>
                if negb (jstring_eqb (version prodEnv) (version uatEnv))
                then 10 else 0
            | _, _ => 0
            end
       else 0).
Proof.
  unfold assess. cbv zeta.
  destruct (hasType Production environments);
    destruct (hasType UAT environments);
    destruct (hasType Sandbox environments);
    destruct (1 <? length (versions environments))%nat;
    cbn [negb andb];
    destruct (List.find (is_type Production) environments) as [prodEnv | ];
    destruct (List.find (is_type UAT) environments) as [uatEnv | ];
    try destruct (negb (jstring_eqb (version prodEnv) (version uatEnv)));
    destruct (List.filter is_decommissioned environments);
    reflexivity.
Qed.

Lemma findings_assess (environments : list D365Environment) :
  findings (assess environments) <> [].
Proof.
  unfold assess. cbv zeta.
  match goal with
  | |- findings (match findings ?c with [] => _ | _ :: _ => _ end) <> [] =>
      destruct (findings c) eqn:E;
        [cbn [findings finding]; rewrite E; discriminate
        | rewrite E; discriminate]
  end.
Qed.

Lemma two_members {A : Type} (x y : A) (l : list A) :
  In x l -> In y l -> x <> y -> (1 < length l)%nat.
Proof.
  destruct l as [ | a [ | b l]]; simpl; try lia; try tauto.
  intros [<- | []] [<- | []] H. contradiction.
Qed.

Lemma versions_differ (environments : list D365Environment)
    (prodEnv uatEnv : D365Environment) :
  In prodEnv environments -> In uatEnv environments ->
  version prodEnv <> version uatEnv ->
  (1 < length (versions environments))%nat.
Proof.
  intros Hp Hu Hne. unfold versions.
  apply (two_members (version prodEnv) (version uatEnv)); [ | | exact Hne];
    apply distinct_In; right; apply in_map; assumption.
Qed.

(** X23. The readiness score of a customer that exists is never below 25
    and never above 100, so the floor at 0 that the report applies never
    takes effect; the report always lists at least one finding; and a
    customer without any environment scores 40, "Critical Issues". *)
Theorem readiness_score_range (store : FastTrackStore) (customerId : jstring)
    (report : Report) :
  validate_environment_readiness store customerId = Readiness report ->
  25 <= shownScore report <= 100
  /\ listed report <> []
  /\ (environmentCount report = 0 ->
      shownScore report = 40 /\ label report = str "Critical Issues").
Proof.
  unfold validate_environment_readiness.
  destruct (Map_get (customers store) customerId) as [customer | ];
    [ | discriminate].
  intros [= <-]. cbn [shownScore listed environmentCount label].
  set (environments := List.filter _ _).
  pose proof (score_assess environments) as Hscore.
  assert (Hrange : 25 <= score (assess environments) <= 100).
  { rewrite Hscore.
    destruct (hasType Production environments);
      destruct (hasType UAT environments);
      destruct (hasType Sandbox environments);
      destruct (1 <? length (versions environments))%nat;
      cbn [andb];
      destruct (List.find (is_type Production) environments) as [prodEnv | ];
      destruct (List.find (is_type UAT) environments) as [uatEnv | ];
      try destruct (negb (jstring_eqb (version prodEnv) (version uatEnv)));
      lia. }
  split; [lia | ]. split; [apply findings_assess | ].
  intros Hnone. destruct environments as [ | e l]; [ | simpl in Hnone; lia].
  split; reflexivity.
Qed.

Lemma readiness_score_range_witness :
  exists report,
    validate_environment_readiness seedData (str "cust-001") = Readiness report
    /\ shownScore report = 75 /\ label report = str "Good"
    /\ 25 <= shownScore report <= 100.
Proof.
  eexists. split; [vm_compute; reflexivity | ].
  split; [reflexivity | ]. split; [reflexivity | ].
  eapply (readiness_score_range seedData (str "cust-001")).
  vm_compute. reflexivity.
Defined.

(** X24. The label "Excellent" means exactly this: the customer has a
    Production and a UAT environment and all its environments are on one
    version. (A missing Sandbox alone still gives "Excellent"; the check
    of Production against UAT never fires unless the versions differ
    overall.) *)
Theorem excellent_label (environments : list D365Environment) :
  scoreLabel (score (assess environments)) = str "Excellent"
  <-> hasType Production environments = true
      /\ hasType UAT environments = true
      /\ (length (versions environments) <= 1)%nat.
Proof.
  assert (Hlabel : forall s, scoreLabel s = str "Excellent" <-> 90 <= s).
  { intros s. unfold scoreLabel.
    destruct (Z.leb_spec 90 s); [split; [intros _; assumption | reflexivity] | ].
    split; [ | lia].
    destruct (70 <=? s); [discriminate | ].
    destruct (50 <=? s); discriminate. }
  rewrite Hlabel, score_assess.
  destruct (hasType Production environments) eqn:Ep;
    destruct (hasType UAT environments) eqn:Eu;
    cbn [andb];
    try (split; [ | intros (? & ? & ?); discriminate];
         destruct (hasType Sandbox environments);
         destruct (1 <? length (versions environments))%nat; lia).
  destruct (Nat.ltb_spec 1 (length (versions environments))) as [Hv | Hv].
  - split; [ | lia].
    destruct (hasType Sandbox environments);
      destruct (List.find (is_type Production) environments);
      destruct (List.find (is_type UAT) environments);
      try destruct (negb _); lia.
  - split; [intros _; repeat split; lia | intros _].
    destruct (List.find (is_type Production) environments) as [prodEnv | ] eqn:Fp;
      destruct (List.find (is_type UAT) environments) as [uatEnv | ] eqn:Fu;
      try (destruct (hasType Sandbox environments); lia).
    destruct (jstring_eqb (version prodEnv) (version uatEnv)) eqn:Ev;
      [destruct (hasType Sandbox environments); simpl; lia | ].
    exfalso. apply find_some in Fp as [Hp _]. apply find_some in Fu as [Hu _].
    apply jstring_eqb_neq in Ev.
    pose proof (versions_differ environments prodEnv uatEnv Hp Hu Ev). lia.
Qed.

End ValidateEnvironmentProperties.

(** ** The store: fresh identifiers *)

Section StoreProperties.
Import Customer D365Environment Store.

Lemma digits_value_acc (d : Decimal.uint) :
  forall acc : positive,
    digits_value (Z.pos acc) (str (NilEmpty.string_of_uint d))
    = Z.pos (Pos.of_uint_acc d acc).
Proof.
  induction d; intros acc; cbn [NilEmpty.string_of_uint Pos.of_uint_acc];
    try reflexivity;
    change (str (String ?c ?s)) with (c :: str s);
    cbn [digits_value]; cbv [is_digit in_range code nat_of_ascii];
    cbn; rewrite <- IHd; f_equal; lia.
Qed.

Lemma digits_value_uint (d : Decimal.uint) :
  digits_value 0 (str (NilEmpty.string_of_uint d)) = Z.of_N (Pos.of_uint d).
Proof.
  induction d; cbn [NilEmpty.string_of_uint Pos.of_uint];
    try reflexivity;
    change (str (String ?c ?s)) with (c :: str s);
    try exact IHd; apply (digits_value_acc d).
Qed.

(** Reading back the decimal numeral of a number that is not negative. *)
Lemma digits_value_String (n : Z) :
  0 <= n -> digits_value 0 (String_of_Z n) = n.
Proof.
  intros Hn. unfold String_of_Z. destruct n as [ | p | p]; [reflexivity | | lia].
  cbn [Z.to_int NilZero.string_of_int].
  pose proof (DecimalPos.Unsigned.of_to p) as Hp.
  unfold NilZero.string_of_uint.
  destruct (Pos.to_uint p);
    [simpl in Hp; discriminate | rewrite digits_value_uint, Hp; reflexivity ..].
Qed.

Lemma digits_value_zeros (k : nat) (s : jstring) :
  digits_value 0 (repeat "0"%char k ++ s) = digits_value 0 s.
Proof. induction k as [ | k IH]; [reflexivity | exact IH]. Qed.

Lemma numbered_inj (prefix : jstring) (n m : Z) :
  0 <= n -> 0 <= m -> numbered prefix n = numbered prefix m -> n = m.
Proof.
  intros Hn Hm. unfold numbered, padStart3. intros H.
  apply app_inv_head in H. apply app_inv_head in H.
  apply (f_equal (digits_value 0)) in H.
  rewrite !digits_value_zeros, !digits_value_String in H; assumption.
Qed.

Lemma Map_set_fresh {A : Type} (m : list (jstring * A)) (k : jstring) (v : A) :
  ~ In k (map fst m) -> Map_set m k v = m ++ [(k, v)].
Proof.
  induction m as [ | [k' v'] m IH]; [reflexivity | ].
  simpl. intros Hk. destruct (jstring_eqb k' k) eqn:E.
  - apply jstring_eqb_eq in E. tauto.
  - rewrite IH by tauto. reflexivity.
Qed.

(** X25. New environments never overwrite old ones. While the identifiers
    of the environments in the store are env-001, env-002, ... in order (as
    in the seeded store), [add_environment] for a known customer appends
    one environment under the next identifier, leaving every existing
    entry in place, and the identifiers are again in that form; for an
    unknown customer the store is left unchanged. *)
Theorem add_environment_fresh (store : FastTrackStore)
    (customerId name : jstring) (type : EnvironmentType)
    (region version : jstring) (lcsProjectId url : option jstring) :
  sequential (str "env") (environments store) ->
  let after :=
    fst (add_environment store customerId name type region version
                         lcsProjectId url) in
  match Map_get (customers store) customerId with
  | None => after = store
  | Some _ =>
      exists id,
        id = numbered (str "env") (Map_size (environments store) + 1)
        /\ ~ In id (map fst (environments store))
        /\ environments after
           = environments store
             ++ [(id, mkEnvironment id customerId name type region version
                                    lcsProjectId url D365Environment.Active)]
        /\ customers after = customers store
        /\ sequential (str "env") (environments after)
  end.
Proof.
  intros Hseq after. subst after. unfold add_environment.
  destruct (Map_get (customers store) customerId) as [customer | ];
    [ | reflexivity].
  cbn [fst customers environments].
  set (id := numbered (str "env") (Map_size (environments store) + 1)).
  assert (Hfresh : ~ In id (map fst (environments store))).
  { rewrite Hseq. intros Hin. apply in_map_iff in Hin as (i & Hi & Hrange).
    apply in_seq in Hrange. unfold id, Map_size in Hi.
    apply numbered_inj in Hi; lia. }
  exists id. split; [reflexivity | ]. split; [exact Hfresh | ].
  rewrite (Map_set_fresh _ _ _ Hfresh).
  split; [reflexivity | ]. split; [reflexivity | ].
  unfold sequential. rewrite map_app, length_app, Hseq.
  cbn [length map fst]. rewrite Nat.add_1_r, seq_S, map_app.
  cbn [map]. f_equal. unfold id, Map_size. do 2 f_equal. lia.
Qed.

Lemma add_environment_fresh_witness :
  let after :=
    fst (add_environment seedData (str "cust-002") (str "Northwind-UAT") UAT
                         (str "West Europe") (str "10.0.40") None None) in
  map fst (environments after)
  = map str ["env-001"; "env-002"; "env-003"; "env-004"]%string
  /\ sequential (str "env") (environments after).
Proof.
  intros after. split; [vm_compute; reflexivity | ].
  pose proof (add_environment_fresh seedData (str "cust-002")
                (str "Northwind-UAT") UAT (str "West Europe") (str "10.0.40")
                None None) as H.
  assert (Hseed : sequential (str "env") (environments seedData))
    by (vm_compute; reflexivity).
  specialize (H Hseed). cbv zeta in H.
  destruct (Map_get (customers seedData) (str "cust-002")) eqn:E.
  - destruct H as (id & _ & _ & _ & _ & H). exact H.
  - vm_compute in E. discriminate.
Defined.

End StoreProperties.

(** ** Code extraction: the order of the records *)

Section ExtractCodeOrder.
Import ExtractCode.

Lemma scan_in_line_order (f : Z -> jstring -> list CodeRecord) :
  (forall i l, f i l = [] \/ exists r, f i l = [r] /\ line r = i) ->
  forall lines i0,
    ExtractPdf.ascending (map line (scan f i0 lines)) = true
    /\ Forall (fun r => i0 < line r <= i0 + Z.of_nat (length lines))
              (scan f i0 lines).
Proof.
  intros Hf. induction lines as [ | l lines IH]; intros i0.
  - split; [reflexivity | constructor].
  - destruct (IH (i0 + 1)) as [Hasc Hall]. cbn [scan].
    assert (Hrest : Forall (fun r => i0 < line r <= i0 + Z.of_nat (length (l :: lines)))
                           (scan f (i0 + 1) lines)).
    { eapply Forall_impl; [exact Hall | ].
      intros r Hr. cbv beta in Hr |- *. cbn [length]. lia. }
    destruct (Hf (i0 + 1) l) as [-> | (r & -> & Hline)].
    + split; [exact Hasc | exact Hrest].
    + split.
      * cbn [app map]. apply ascending_cons. split; [ | exact Hasc].
        intros y Hy. destruct (scan f (i0 + 1) lines) as [ | r' rs];
          [discriminate | ].
        simpl in Hy. injection Hy as <-.
        apply List.Forall_inv in Hall. lia.
      * cbn [app]. constructor; [ | exact Hrest]. cbn [length]. lia.
Qed.

(** X26. In the modes structure, imports and exports a line gives at most
    one record and the records come in the order of the lines: the line
    numbers of the records are strictly ascending and lie between 1 and
    the number of lines of the content. *)
Theorem records_in_line_order (mode : ExtractionMode) (lang content : jstring)
    (records : list CodeRecord) :
  mode = Structure \/ mode = Imports \/ mode = Exports ->
  codeRecords mode lang content = Returns records ->
  ExtractPdf.ascending (map line records) = true
  /\ Forall (fun r => 1 <= line r <= Z.of_nat (length (split nl content)))
            records.
Proof.
  assert (Hscan : forall f,
             (forall i l, f i l = [] \/ exists r, f i l = [r] /\ line r = i) ->
             ExtractPdf.ascending (map line (scan f 0 (split nl content))) = true
             /\ Forall (fun r => 1 <= line r
                                 <= Z.of_nat (length (split nl content)))
                       (scan f 0 (split nl content))).
  { intros f Hf.
    destruct (scan_in_line_order f Hf (split nl content) 0) as [Hasc Hall].
    split; [exact Hasc | ].
    eapply Forall_impl; [exact Hall | ]. intros r Hr. cbv beta in Hr |- *. lia. }
  assert (Hstructure : forall langPatterns i l,
             structure_record langPatterns lang i l = []
             \/ exists r, structure_record langPatterns lang i l = [r]
                          /\ line r = i).
  { intros langPatterns i l. unfold structure_record.
    destruct (first_match langPatterns l); [right | left; reflexivity].
    eexists. split; reflexivity. }
  assert (Himport : forall pattern i l,
             import_record pattern i l = []
             \/ exists r, import_record pattern i l = [r] /\ line r = i).
  { intros pattern i l. unfold import_record.
    destruct (test pattern (trim l)); [right | left; reflexivity].
    eexists. split; reflexivity. }
  intros [-> | [-> | ->]]; cbn [codeRecords].
  - unfold extractStructure. destruct (table_get patterns lang);
      try discriminate; intros [= <-]; apply Hscan, Hstructure.
  - unfold extractImports. destruct (table_get importPatterns lang);
      try discriminate; intros [= <-]; apply Hscan, Himport.
  - intros [= <-]. unfold extractExports. apply Hscan.
    intros i l. unfold export_record.
    destruct (_ && _); [right; eexists; split; reflexivity | ].
    destruct (_ && _); [right; eexists; split; reflexivity | left; reflexivity].
Qed.

Lemma records_in_line_order_witness :
  let content := str "import a" ++ [nl] ++ str "x" ++ [nl] ++ str "import b" in
  exists records,
    codeRecords Imports (str "typescript") content = Returns records
    /\ map line records = [1; 3]
    /\ ExtractPdf.ascending (map line records) = true.
Proof.
  intros content. eexists. split; [vm_compute; reflexivity | ].
  split; [reflexivity | ].
  eapply (records_in_line_order Imports (str "typescript") content).
  - right. left. reflexivity.
  - vm_compute. reflexivity.
Defined.

End ExtractCodeOrder.

(** ** CSV cells *)

Section CsvCells.
Import OutputFormatter.

Lemma match_here_chr (a : ascii) (i : nat) (s : jstring) :
  match_here (Chr a) i s
  = match s with
    | x :: s' => if ascii_eqb x a then Some (mkCfg (S i) s' []) else None
    | [] => None
    end.
Proof.
  unfold match_here. simpl. destruct s as [ | x s']; [reflexivity | ].
  destruct (ascii_eqb x a); reflexivity.
Qed.

(** Replacing every quote by two. *)
Lemma double_quotes (s : jstring) :
  forall i,
    replace_go (Chr dquote) (fun _ _ => [dquote; dquote]) i 0 s
    = flat_map (fun a => if ascii_eqb a dquote then [dquote; dquote] else [a]) s.
Proof.
  induction s as [ | a s IH]; intros i.
  - apply replace_go_nil. rewrite match_here_chr. reflexivity.
  - rewrite replace_go_cons, match_here_chr. cbn [flat_map].
    destruct (ascii_eqb a dquote).
    + cbn [pos]. replace (S i - i)%nat with 1%nat by lia.
      change (replace_go ?r ?rep (S i) 0 s) with (replace_go r rep (S i) 0 s).
      rewrite <- (IH (S i)). reflexivity.
    + rewrite <- (IH (S i)). reflexivity.
Qed.

Lemma doubled_inj (s t : jstring) :
  flat_map (fun a => if ascii_eqb a dquote then [dquote; dquote] else [a]) s
  = flat_map (fun a => if ascii_eqb a dquote then [dquote; dquote] else [a]) t ->
  s = t.
Proof.
  revert t. induction s as [ | a s IH]; intros [ | b t]; cbn [flat_map].
  - reflexivity.
  - destruct (ascii_eqb b dquote); discriminate.
  - destruct (ascii_eqb a dquote); discriminate.
  - destruct (ascii_eqb a dquote) eqn:Ea; destruct (ascii_eqb b dquote) eqn:Eb;
      cbn [app]; intros H.
    + apply Ascii.eqb_eq in Ea, Eb. subst a b.
      injection H as H. f_equal. apply IH, H.
    + injection H as Hb _. subst b.
      unfold ascii_eqb in Eb. rewrite Ascii.eqb_refl in Eb. discriminate.
    + injection H as Ha _. subst a.
      unfold ascii_eqb in Ea. rewrite Ascii.eqb_refl in Ea. discriminate.
    + injection H as -> H. f_equal. apply IH, H.
Qed.

Lemma includes_head (a : ascii) (s : jstring) : includes (a :: s) [a] = true.
Proof.
  rewrite includes_unfold. cbn [startsWith]. unfold ascii_eqb.
  rewrite Ascii.eqb_refl. destruct s; reflexivity.
Qed.

Lemma csv_cell_text (val : value) :
  val <> VUndefined -> val <> VNull ->
  csv_cell val
  = if includes (cell_text val) (str ",") || includes (cell_text val) [dquote]
       || includes (cell_text val) [nl]
    then dquote
         :: flat_map (fun a => if ascii_eqb a dquote then [dquote; dquote] else [a])
                     (cell_text val)
         ++ [dquote]
    else cell_text val.
Proof.
  intros Hu Hn. destruct val; try contradiction;
    unfold csv_cell, cell_text, replaceAll; rewrite double_quotes; reflexivity.
Qed.

(** X27. Quoting a CSV cell loses nothing: two values that are neither
    null nor undefined and whose texts differ never give the same cell. A
    text with a comma, a quote or a newline is put between quotes with each
    of its quotes doubled, any other text is written as it is, and the two
    forms cannot be confused. *)
Theorem csv_cell_injective (val val' : value) :
  val <> VUndefined -> val <> VNull ->
  val' <> VUndefined -> val' <> VNull ->
  csv_cell val = csv_cell val' -> cell_text val = cell_text val'.
Proof.
  intros Hu Hn Hu' Hn'.
  rewrite (csv_cell_text val Hu Hn), (csv_cell_text val' Hu' Hn').
  generalize (cell_text val) (cell_text val'). intros s t.
  assert (Hplain : forall u w : jstring,
             (includes u (str ",") || includes u [dquote] || includes u [nl])
             = false ->
             dquote :: w <> u).
  { intros u w Hplain <-. rewrite includes_head in Hplain.
    rewrite orb_true_r in Hplain. discriminate. }
  destruct (includes s (str ",") || includes s [dquote] || includes s [nl]) eqn:Es;
    destruct (includes t (str ",") || includes t [dquote] || includes t [nl])
      eqn:Et.
  - intros [= H]. apply app_inv_tail in H. apply doubled_inj, H.
  - intros H. exfalso. exact (Hplain t _ Et H).
  - intros H. exfalso. exact (Hplain s _ Es (eq_sym H)).
  - auto.
Qed.

Lemma csv_cell_injective_witness :
  csv_cell (VStr (str "a,b")) = [dquote] ++ str "a,b" ++ [dquote]
  /\ cell_text (VNum 1) = cell_text (VStr (str "1")).
Proof.
  split; [vm_compute; reflexivity | ].
  apply (csv_cell_injective (VNum 1) (VStr (str "1")));
    (discriminate || reflexivity).
Defined.

End CsvCells.

(** ** E-mail extraction: the body of a record *)

Section ExtractEmailProperties.
Import HtmlToText ExtractEmail.
Local Open Scope nat_scope.

(** X28. The body of an e-mail record is at most 5000 characters long; for
    a message with a non-empty HTML body it is the plain text of that body
    cut to 5000 characters, and so holds no tab, no two adjacent blanks
    and no three adjacent newlines and does not start with white space. *)
Theorem email_record_body (msg : GraphMessage) :
  exists text,
    get (toRecord msg) (str "body") = VStr text
    /\ length text <= 5000
    /\ forall b,
         body msg = Some b -> content b <> [] ->
         contentType b = str "html" ->
         text = take 5000 (htmlToText (content b))
         /\ single_spaced text = true /\ ~ In tab text
         /\ no_triple_newline text = true
         /\ span is_space text = 0.
Proof.
  exists (substring0 5000 (bodyText msg)). split; [reflexivity | ].
  split; [unfold substring0; rewrite length_take; lia | ].
  intros b Hb Hc Hhtml.
  assert (Htext : bodyText msg = htmlToText (content b)).
  { unfold bodyText. rewrite Hb, Hhtml.
    destruct (content b); [contradiction | reflexivity]. }
  rewrite Htext. unfold substring0.
  destruct (htmlToText_shape (content b)) as (Hs & Hn & Ht & _).
  split; [reflexivity | ].
  assert (Hsingle : single_spaced (take 5000 (htmlToText (content b))) = true)
    by (apply single_spaced_take, Hs).
  split; [exact Hsingle | ].
  split; [apply single_spaced_no_tab, Hsingle | ].
  split; [apply no_triple_newline_take, Hn | ].
  apply span_take_zero, Ht.
Qed.

Lemma email_record_body_witness :
  let msg :=
    mkMessage (str "m1") (str "Go-live") None (str "2026-01-01T00:00:00Z")
      (str "preview") (Some (mkBody (str "html") (str "<p>Hello<br/>team</p>")))
      false (str "normal") None in
  get (toRecord msg) (str "body") = VStr (str "Hello" ++ [nl] ++ str "team")
  /\ exists text,
       get (toRecord msg) (str "body") = VStr text /\ length text <= 5000.
Proof.
  intros msg. split; [vm_compute; reflexivity | ].
  destruct (email_record_body msg) as (text & Hget & Hlen & _).
  exists text. split; assumption.
Defined.

End ExtractEmailProperties.

(** ** Flattening twice *)

Section FlattenTwice.
Import JsonPath.

(** *** Array indices are decimal numerals without leading zeros *)

Lemma digit_value_range (a : ascii) :
  is_digit a = true -> 0 <= Z.of_nat (code a - 48) <= 9.
Proof.
  destruct a as [[] [] [] [] [] [] [] []]; intros H; try discriminate H;
    vm_compute; split; discriminate.
Qed.

Lemma digit_value_inj (a b : ascii) :
  is_digit a = true -> is_digit b = true ->
  Z.of_nat (code a - 48) = Z.of_nat (code b - 48) -> a = b.
Proof.
  destruct a as [[] [] [] [] [] [] [] []]; intros Ha; try discriminate Ha;
    destruct b as [[] [] [] [] [] [] [] []]; intros Hb; try discriminate Hb;
    intros H; try reflexivity; vm_compute in H; discriminate H.
Qed.

Lemma digit_value_zero (a : ascii) :
  is_digit a = true -> ascii_eqb a "0" = false -> 1 <= Z.of_nat (code a - 48).
Proof.
  destruct a as [[] [] [] [] [] [] [] []]; intros H; try discriminate H;
    intros H0; try discriminate H0; vm_compute; discriminate.
Qed.

Lemma digits_value_cons (acc : Z) (a : ascii) (s : jstring) :
  is_digit a = true ->
  digits_value acc (a :: s) = digits_value (10 * acc + Z.of_nat (code a - 48)) s.
Proof. intros Ha. cbn [digits_value]. rewrite Ha. reflexivity. Qed.

Lemma digits_value_shift (s : jstring) :
  forall acc,
    forallb is_digit s = true ->
    digits_value acc s = acc * 10 ^ Z.of_nat (length s) + digits_value 0 s.
Proof.
  induction s as [ | a s IH]; intros acc Hs.
  - simpl. lia.
  - cbn [forallb] in Hs. apply andb_true_iff in Hs as [Ha Hs].
    rewrite !(digits_value_cons _ a s Ha).
    rewrite (IH (10 * acc + _) Hs), (IH (10 * 0 + _) Hs).
    cbn [length]. rewrite Nat2Z.inj_succ, Z.pow_succ_r by lia. ring.
Qed.

Lemma digits_value_bound (s : jstring) :
  forallb is_digit s = true ->
  0 <= digits_value 0 s < 10 ^ Z.of_nat (length s).
Proof.
  induction s as [ | a s IH]; intros Hs.
  - simpl. lia.
  - cbn [forallb] in Hs. apply andb_true_iff in Hs as [Ha Hs].
    rewrite (digits_value_cons _ a s Ha), (digits_value_shift s _ Hs).
    specialize (IH Hs). pose proof (digit_value_range a Ha).
    cbn [length]. rewrite Nat2Z.inj_succ, Z.pow_succ_r by lia.
    assert (0 < 10 ^ Z.of_nat (length s)) by (apply Z.pow_pos_nonneg; lia).
    nia.
Qed.

Lemma digits_same_length (s : jstring) :
  forall t,
    length s = length t ->
    forallb is_digit s = true -> forallb is_digit t = true ->
    digits_value 0 s = digits_value 0 t -> s = t.
Proof.
  induction s as [ | a s IH]; intros [ | b t] Hlen Hs Ht Hv;
    try discriminate Hlen; [reflexivity | ].
  cbn [forallb] in Hs, Ht.
  apply andb_true_iff in Hs as [Ha Hs]. apply andb_true_iff in Ht as [Hb Ht].
  rewrite (digits_value_cons _ a s Ha), (digits_value_cons _ b t Hb) in Hv.
  rewrite (digits_value_shift s _ Hs), (digits_value_shift t _ Ht) in Hv.
  injection Hlen as Hlen. rewrite <- Hlen in Hv.
  pose proof (digits_value_bound s Hs) as Bs.
  pose proof (digits_value_bound t Ht) as Bt. rewrite <- Hlen in Bt.
  pose proof (digit_value_range a Ha). pose proof (digit_value_range b Hb).
  assert (Hd : Z.of_nat (code a - 48) = Z.of_nat (code b - 48)) by nia.
  rewrite (digit_value_inj a b Ha Hb Hd). f_equal.
  apply IH; try assumption. rewrite Hd in Hv. lia.
Qed.

Lemma array_index_canonical (k : jstring) (n : Z) :
  array_index k = Some n ->
  exists a k',
    k = a :: k' /\ forallb is_digit k = true
    /\ (ascii_eqb a "0" = false \/ k' = [])
    /\ n = digits_value 0 k.
Proof.
  unfold array_index. destruct k as [ | a k']; [discriminate | ].
  destruct (forallb is_digit (a :: k')) eqn:Hd; [ | discriminate].
  destruct (negb (ascii_eqb a "0") || (length k' =? 0)%nat) eqn:Hc;
    [ | discriminate].
  destruct (digits_value 0 (a :: k') <=? 4294967294); [ | discriminate].
  cbn [andb]. intros [= <-]. exists a, k'.
  split; [reflexivity | ]. split; [reflexivity | ]. split; [ | reflexivity].
  apply orb_true_iff in Hc as [Hc | Hc].
  - left. apply negb_true_iff, Hc.
  - right. apply Nat.eqb_eq in Hc. destruct k'; [reflexivity | discriminate].
Qed.

Lemma numeral_range (a : ascii) (k' : jstring) :
  forallb is_digit (a :: k') = true ->
  (ascii_eqb a "0" = false ->
   10 ^ Z.of_nat (length k') <= digits_value 0 (a :: k'))
  /\ digits_value 0 (a :: k') < 10 ^ Z.of_nat (S (length k'))
  /\ (ascii_eqb a "0" = true -> k' = [] -> digits_value 0 (a :: k') = 0).
Proof.
  intros Hk. pose proof (digits_value_bound (a :: k') Hk) as Hb.
  cbn [forallb] in Hk. apply andb_true_iff in Hk as [Ha Hk'].
  split; [ | split].
  - intros Hnz. rewrite (digits_value_cons _ a k' Ha), (digits_value_shift k' _ Hk').
    pose proof (digit_value_zero a Ha Hnz).
    pose proof (digits_value_bound k' Hk').
    assert (0 < 10 ^ Z.of_nat (length k')) by (apply Z.pow_pos_nonneg; lia).
    nia.
  - apply Hb.
  - intros Hz ->. apply Ascii.eqb_eq in Hz. subst a. reflexivity.
Qed.

Lemma array_index_inj (k k' : jstring) (n : Z) :
  array_index k = Some n -> array_index k' = Some n -> k = k'.
Proof.
  intros Hk Hk'.
  apply array_index_canonical in Hk as (a & s & -> & Hds & Hcs & Hn).
  apply array_index_canonical in Hk' as (b & t & -> & Hdt & Hct & Hn').
  destruct (numeral_range a s Hds) as (Hlow_s & Hup_s & Hzero_s).
  destruct (numeral_range b t Hdt) as (Hlow_t & Hup_t & Hzero_t).
  assert (Hlen : length s = length t).
  { destruct (ascii_eqb a "0") eqn:Ea; destruct (ascii_eqb b "0") eqn:Eb.
    - destruct Hcs as [? | ->]; [discriminate | ].
      destruct Hct as [? | ->]; [discriminate | reflexivity].
    - destruct Hcs as [? | ->]; [discriminate | ].
      specialize (Hzero_s eq_refl eq_refl). specialize (Hlow_t eq_refl).
      assert (0 < 10 ^ Z.of_nat (length t)) by (apply Z.pow_pos_nonneg; lia).
      lia.
    - destruct Hct as [? | ->]; [discriminate | ].
      specialize (Hzero_t eq_refl eq_refl). specialize (Hlow_s eq_refl).
      assert (0 < 10 ^ Z.of_nat (length s)) by (apply Z.pow_pos_nonneg; lia).
      lia.
    - specialize (Hlow_s eq_refl). specialize (Hlow_t eq_refl).
      destruct (Nat.lt_trichotomy (length s) (length t)) as [Hlt | [Heq | Hgt]];
        [ | exact Heq | ]; exfalso.
      + assert (10 ^ Z.of_nat (S (length s)) <= 10 ^ Z.of_nat (length t))
          by (apply Z.pow_le_mono_r; lia).
        lia.
      + assert (10 ^ Z.of_nat (S (length t)) <= 10 ^ Z.of_nat (length s))
          by (apply Z.pow_le_mono_r; lia).
        lia. }
  apply digits_same_length; try assumption; [simpl; lia | lia].
Qed.

Lemma array_index_nonneg (k : jstring) (n : Z) :
  array_index k = Some n -> 0 <= n.
Proof.
  intros Hk. apply array_index_canonical in Hk as (a & s & -> & Hd & _ & ->).
  apply digits_value_bound, Hd.
Qed.

(** *** Assignments keep the enumeration order *)

Lemma own_order_cons (lower : Z) (k : jstring) (ks : list jstring) :
  own_order lower (k :: ks)
  = match array_index k with
    | Some n => (lower <? n) && own_order n ks
    | None => forallb not_index ks
    end.
Proof. reflexivity. Qed.

Lemma own_order_not_index (ks : list jstring) (lower : Z) :
  forallb not_index ks = true -> own_order lower ks = true.
Proof.
  destruct ks as [ | k ks]; [reflexivity | ].
  cbn [forallb]. rewrite andb_true_iff, own_order_cons. unfold not_index at 1.
  destruct (array_index k); [intros [? _]; discriminate | tauto].
Qed.

Lemma own_order_snoc (k : jstring) (ks : list jstring) :
  forall lower,
    own_order lower ks = true -> array_index k = None ->
    own_order lower (ks ++ [k]) = true.
Proof.
  induction ks as [ | k0 ks IH]; intros lower Hks Hk.
  - simpl. rewrite Hk. reflexivity.
  - rewrite <- app_comm_cons, own_order_cons. rewrite own_order_cons in Hks.
    destruct (array_index k0) as [n0 | ].
    + apply andb_true_iff in Hks as [Hlt Hks].
      rewrite Hlt, (IH n0 Hks Hk). reflexivity.
    + rewrite forallb_app, Hks. simpl. unfold not_index. rewrite Hk. reflexivity.
Qed.

Lemma insert_index_order (n : Z) (k : jstring) (v : value) :
  array_index k = Some n ->
  forall (o : record) lower,
    own_order lower (Object_keys o) = true -> lower < n ->
    (forall k', In k' (Object_keys o) -> array_index k' <> Some n) ->
    own_order lower (Object_keys (insert_index o n k v)) = true.
Proof.
  intros Hk. induction o as [ | [k0 v0] o IH]; intros lower Ho Hlower Hfresh.
  - simpl. rewrite Hk. apply andb_true_iff. split; [apply Z.ltb_lt, Hlower | reflexivity].
  - cbn [insert_index]. cbn [Object_keys map fst] in Ho.
    fold (Object_keys o) in Ho. rewrite own_order_cons in Ho.
    destruct (array_index k0) as [n0 | ] eqn:E0.
    + apply andb_true_iff in Ho as [Hlt Ho]. apply Z.ltb_lt in Hlt.
      destruct (Z.ltb_spec n0 n) as [Hless | Hge].
      * cbn [Object_keys map fst]. fold (Object_keys (insert_index o n k v)).
        rewrite own_order_cons, E0.
        apply andb_true_iff. split; [apply Z.ltb_lt, Hlt | ].
        apply IH; [exact Ho | exact Hless | ].
        intros k' Hin. apply Hfresh. right. exact Hin.
      * assert (n0 <> n).
        { intros ->. apply (Hfresh k0); [left; reflexivity | exact E0]. }
        cbn [Object_keys map fst]. fold (Object_keys o).
        rewrite own_order_cons, Hk, own_order_cons, E0.
        rewrite !andb_true_iff, !Z.ltb_lt. repeat split; [lia | lia | exact Ho].
    + cbn [Object_keys map fst]. fold (Object_keys o).
      rewrite own_order_cons, Hk, own_order_cons, E0.
      rewrite andb_true_iff, Z.ltb_lt. split; [lia | exact Ho].
Qed.

Lemma set_order (o : record) (k : jstring) (v : value) :
  own_order (-1) (Object_keys o) = true ->
  own_order (-1) (Object_keys (set o k v)) = true.
Proof.
  intros Ho. unfold set. destruct (get_own o k) eqn:E.
  - rewrite keys_update. exact Ho.
  - apply get_own_None in E. destruct (array_index k) as [n | ] eqn:Ek.
    + apply (insert_index_order n k v Ek); [exact Ho | | ].
      * pose proof (array_index_nonneg k n Ek). lia.
      * intros k' Hin Hk'. apply E.
        rewrite (array_index_inj k k' n Ek Hk'). exact Hin.
    + unfold Object_keys. rewrite map_app. apply own_order_snoc; assumption.
Qed.

Lemma Object_assign_order (source target : record) :
  own_order (-1) (Object_keys target) = true ->
  own_order (-1) (Object_keys (Object_assign target source)) = true.
Proof.
  unfold Object_assign. revert target.
  induction source as [ | [k v] source IH]; intros target Ht; [exact Ht | ].
  simpl. apply IH, set_order, Ht.
Qed.

Lemma flatten_order (obj : record) (prefix : jstring) :
  own_order (-1) (Object_keys (flattenObject obj prefix)) = true.
Proof.
  unfold flattenObject.
  change (flatten (VObj obj) prefix)
    with (fold_left
            (fun result kv =>
               match snd kv with
               | VObj _ =>
                   Object_assign result
                     (flatten (snd kv) (fullKey prefix (fst kv)))
               | other => set result (fullKey prefix (fst kv)) other
               end) obj []).
  assert (Hnil : own_order (-1) (Object_keys []) = true) by reflexivity.
  revert Hnil. generalize (@nil (jstring * value)).
  induction obj as [ | [k v] obj IH]; intros result Hr; [exact Hr | ].
  simpl fold_left. apply IH.
  destruct v; try (apply set_order, Hr).
  apply Object_assign_order, Hr.
Qed.

(** *** Assigning the keys of an object in its own order rebuilds it *)

Lemma own_order_before (ks1 : list jstring) (k : jstring) (n : Z)
    (ks2 : list jstring) :
  forall lower,
    own_order lower (ks1 ++ k :: ks2) = true -> array_index k = Some n ->
    forall k', In k' ks1 -> exists n', array_index k' = Some n' /\ n' < n.
Proof.
  induction ks1 as [ | k1 ks1 IH]; intros lower Ho Hk k' Hin; [contradiction | ].
  rewrite <- app_comm_cons, own_order_cons in Ho.
  destruct (array_index k1) as [n1 | ] eqn:E1.
  - apply andb_true_iff in Ho as [_ Ho].
    assert (Hlt : n1 < n).
    { destruct ks1 as [ | k2 ks1'].
      - simpl in Ho. rewrite Hk in Ho. apply andb_true_iff in Ho as [Ho _].
        apply Z.ltb_lt, Ho.
      - assert (Hin2 : In k2 (k2 :: ks1')) by (left; reflexivity).
        destruct (IH n1 Ho Hk k2 Hin2) as (n2 & E2 & Hlt2).
        rewrite <- app_comm_cons, own_order_cons, E2 in Ho.
        apply andb_true_iff in Ho as [Ho _]. apply Z.ltb_lt in Ho. lia. }
    destruct Hin as [<- | Hin]; [exists n1; auto | ].
    exact (IH n1 Ho Hk k' Hin).
  - exfalso. rewrite forallb_app in Ho. apply andb_true_iff in Ho as [_ Ho].
    cbn [forallb] in Ho. apply andb_true_iff in Ho as [Ho _].
    unfold not_index in Ho. rewrite Hk in Ho. discriminate.
Qed.

Lemma insert_index_last (n : Z) (k : jstring) (v : value) (o : record) :
  (forall k', In k' (Object_keys o) ->
              exists n', array_index k' = Some n' /\ n' < n) ->
  insert_index o n k v = o ++ [(k, v)].
Proof.
  induction o as [ | [k0 v0] o IH]; intros Ho; [reflexivity | ].
  cbn [insert_index].
  destruct (Ho k0 ltac:(left; reflexivity)) as (n0 & -> & Hlt).
  destruct (Z.ltb_spec n0 n); [ | lia].
  rewrite IH; [reflexivity | ].
  intros k' Hin. apply Ho. right. exact Hin.
Qed.

Lemma assign_in_order (rest : record) :
  forall done : record,
    own_order (-1) (Object_keys (done ++ rest)) = true ->
    NoDup (Object_keys (done ++ rest)) ->
    fold_left (fun result kv => set result (fst kv) (snd kv)) rest done
    = done ++ rest.
Proof.
  induction rest as [ | [k v] rest IH]; intros done Ho Hnd.
  - simpl. rewrite app_nil_r. reflexivity.
  - cbn [fold_left fst snd].
    assert (Hset : set done k v = done ++ [(k, v)]).
    { unfold Object_keys in Ho, Hnd. rewrite map_app in Ho, Hnd.
      cbn [map fst] in Ho, Hnd.
      assert (Hfresh : get_own done k = None).
      { apply get_own_None. intros Hin.
        apply NoDup_app in Hnd as (_ & Hdisj & _).
        apply (Hdisj k); [apply list_elem_of_In, Hin | left]. }
      unfold set. rewrite Hfresh.
      destruct (array_index k) as [n | ] eqn:Ek; [ | reflexivity].
      apply insert_index_last.
      exact (own_order_before (map fst done) k n (map fst rest) (-1) Ho Ek). }
    rewrite Hset, IH; rewrite <- ?app_assoc; try assumption; reflexivity.
Qed.

Lemma flatten_leaves (fields : record) :
  Forall (fun v => is_plain_object v = false) (Object_values fields) ->
  flattenObject fields []
  = fold_left (fun result kv => set result (fst kv) (snd kv)) fields [].
Proof.
  intros Hleaves. unfold flattenObject.
  change (flatten (VObj fields) [])
    with (fold_left
            (fun result kv =>
               match snd kv with
               | VObj _ =>
                   Object_assign result
                     (flatten (snd kv) (fullKey [] (fst kv)))
               | other => set result (fullKey [] (fst kv)) other
               end) fields []).
  apply fold_left_ext_in. apply Forall_forall. intros [k v] Hin result.
  rewrite Forall_forall in Hleaves.
  assert (Hv : is_plain_object v = false).
  { apply Hleaves, list_elem_of_In. apply list_elem_of_In in Hin.
    apply (in_map snd) in Hin. exact Hin. }
  cbn [fst snd]. destruct v; try reflexivity. discriminate.
Qed.

(** X30. Flattening is idempotent: flattening an object that is already
    the result of [flattenObject] (under any prefix) gives the same
    object again, keys, values and enumeration order included. *)
Theorem flattenObject_idempotent (obj : record) (prefix : jstring) :
  flattenObject (flattenObject obj prefix) [] = flattenObject obj prefix.
Proof.
  destruct (flatten_flat obj prefix) as [Hleaves Hnodup].
  rewrite (flatten_leaves _ Hleaves).
  apply (assign_in_order (flattenObject obj prefix) []).
  - apply flatten_order.
  - exact Hnodup.
Qed.

End FlattenTwice.
